(** * Structural fidelity of the chunked HTML translator

    A shallow embedding of the translator's Python sources
    ([utils.py], [html_processor.py], [api_client.py], [translator.py])
    together with the properties its design document states about them.

    Conventions of the embedding:
    - a Python [str] is a sequence of Unicode code points, modelled as a
      list of code points ([N]); indices and lengths are [nat], and [Z]
      where the code computes with [-1] or with negative slice bounds;
    - an exception is a value of type [exn], and a function that can raise
      returns a sum; the state machine threads the files and the log of
      Generator requests through its calls;
    - floating-point quantities (the mismatch ratio, the temperature, the
      length multiplier) are exact rationals;
    - the values of [config.py], the Unicode tables of the Python runtime
      and the prose of the system instructions are parameters;
    - logging, the progress bar and the audible alerts are left out. *)

From Stdlib Require Import ZArith QArith List Sorted Ascii String DecimalString Lia Bool.
From stdpp Require Import base list gmap.
Close Scope Q_scope.

(** ** Python strings *)

Abbreviation str := (list N).

(** A Rocq string literal read as a Python [str] (one code point per
    character of the literal). *)
Definition py (s : string) : str := map N_of_ascii (list_ascii_of_string s).

Module Py.

Definition LT : N := 60.   (* '<' *)
Definition GT : N := 62.   (* '>' *)
Definition SP : N := 32.   (* ' ' *)
#[global] Arguments LT : simpl never.
#[global] Arguments GT : simpl never.
#[global] Arguments SP : simpl never.

(** [str.isspace] on one code point; this is also the class [\s] of [re]
    on [str] patterns. *)
Definition isspace (c : N) : bool :=
  (((9 <=? c) && (c <=? 13)) || ((28 <=? c) && (c <=? 32))
   || (c =? 133) || (c =? 160) || (c =? 5760)
   || ((8192 <=? c) && (c <=? 8202))
   || (c =? 8232) || (c =? 8233) || (c =? 8239) || (c =? 8287)
   || (c =? 12288))%N.

Definition str_eqb (a b : str) : bool := bool_decide (a = b).

(** [s.startswith(p)] *)
Fixpoint startswith (s p : str) : bool :=
  match p, s with
  | [], _ => true
  | a :: p', b :: s' => N.eqb a b && startswith s' p'
  | _ :: _, [] => false
  end.

(** [s.endswith(p)] *)
Definition endswith (s p : str) : bool := startswith (rev s) (rev p).

(** Index results: Python's [find] family answers [-1] for "absent". *)
Definition to_index (o : option nat) : Z :=
  match o with Some i => Z.of_nat i | None => (-1)%Z end.

Fixpoint find_from (i n : nat) (s sub : str) : option nat :=
  match n with
  | O => None
  | S n' =>
      if startswith s sub then Some i
      else match s with
           | [] => None
           | _ :: s' => find_from (S i) n' s' sub
           end
  end.

(** [s.find(sub, start, stop)] for non-negative [start], [stop]. *)
Definition find_in (s sub : str) (start stop : nat) : option nat :=
  let stop' := min stop (length s) in
  if start + length sub <=? stop'
  then find_from start (stop' - length sub - start + 1) (drop start s) sub
  else None.

(** [s.find(sub)] *)
Definition find (s sub : str) : option nat := find_in s sub 0 (length s).

Fixpoint rfind_from (i n : nat) (s sub : str) (acc : option nat) : option nat :=
  match n with
  | O => acc
  | S n' =>
      let acc' := if startswith s sub then Some i else acc in
      match s with
      | [] => acc'
      | _ :: s' => rfind_from (S i) n' s' sub acc'
      end
  end.

(** [s.rfind(sub, start)] for a non-negative [start]. *)
Definition rfind_in (s sub : str) (start : nat) : option nat :=
  if start + length sub <=? length s
  then rfind_from start (length s - length sub - start + 1) (drop start s) sub None
  else None.

(** [s.rfind(sub)] *)
Definition rfind (s sub : str) : option nat := rfind_in s sub 0.

(** [sub in s] *)
Definition contains (s sub : str) : bool :=
  match find s sub with Some _ => true | None => false end.

(** [s[a:b]] for arbitrary integer bounds. *)
Definition norm_index (len : nat) (a : Z) : nat :=
  if (a <? 0)%Z then Z.to_nat (Z.of_nat len + a) else min (Z.to_nat a) len.
Definition slice {A} (s : list A) (a b : Z) : list A :=
  let a' := norm_index (length s) a in
  let b' := norm_index (length s) b in
  take (b' - a') (drop a' s).

(** [s[:k]] and [s[k:]] for an arbitrary integer [k]. *)
Definition slice_to {A} (s : list A) (k : Z) : list A := take (norm_index (length s) k) s.
Definition slice_from {A} (s : list A) (k : Z) : list A := drop (norm_index (length s) k) s.

(** [l[k]] for an arbitrary integer [k]; [None] is [IndexError]. *)
Definition index {A} (l : list A) (k : Z) : option A :=
  if (k <? 0)%Z
  then if (Z.of_nat (length l) + k <? 0)%Z then None
       else l !! Z.to_nat (Z.of_nat (length l) + k)
  else l !! Z.to_nat k.

(** [sep.join(l)] *)
Fixpoint join (sep : str) (l : list str) : str :=
  match l with
  | [] => []
  | [x] => x
  | x :: l' => x ++ sep ++ join sep l'
  end.

(** [str(n)] for an integer. *)
Definition str_of_Z (n : Z) : str :=
  map N_of_ascii (list_ascii_of_string (DecimalString.NilZero.string_of_int (Z.to_int n))).

(** [int(x)]: truncation toward zero. *)
Definition int_of_Q (x : Q) : Z := Z.quot (Qnum x) (Zpos (Qden x)).

(** [s[-k:]] for a non-negative [k]; note that [s[-0:]] is [s]. *)
Definition last_chars {A} (k : nat) (s : list A) : list A :=
  match k with
  | O => s
  | _ => drop (length s - k) s
  end.

(** [s.replace(old, new)]: non-overlapping occurrences, left to right.
    [skip] counts the characters of an occurrence still to be passed. *)
Fixpoint replace_aux (skip : nat) (s old new : str) : str :=
  match s with
  | [] => []
  | c :: r =>
      match skip with
      | S k => replace_aux k r old new
      | O =>
          if startswith s old
          then new ++ replace_aux (length old - 1) r old new
          else c :: replace_aux 0 r old new
      end
  end.

Definition replace (s old new : str) : str :=
  match old with
  | [] => new ++ flat_map (fun c => c :: new) s
  | _ => replace_aux 0 s old new
  end.

(** [s.replace(old, new, 1)] for a non-empty [old]. *)
Definition replace_first (s old new : str) : str :=
  match find s old with
  | Some i => take i s ++ new ++ drop (i + length old) s
  | None => s
  end.

(** [s.removesuffix(suffix)] *)
Definition removesuffix (s suffix : str) : str :=
  if endswith s suffix then take (length s - length suffix) s else s.

Fixpoint lstrip_by (p : N -> bool) (s : str) : str :=
  match s with
  | c :: r => if p c then lstrip_by p r else s
  | [] => []
  end.
Definition rstrip_by (p : N -> bool) (s : str) : str := rev (lstrip_by p (rev s)).

Definition lstrip (s : str) : str := lstrip_by isspace s.
Definition rstrip (s : str) : str := rstrip_by isspace s.
Definition strip (s : str) : str := lstrip (rstrip s).

(** [s.split()]: the maximal runs of non-whitespace characters. *)
Fixpoint split_aux (cur : str) (s : str) : list str :=
  match s with
  | [] => match cur with [] => [] | _ => [rev cur] end
  | c :: r =>
      if isspace c
      then match cur with
           | [] => split_aux [] r
           | _ => rev cur :: split_aux [] r
           end
      else split_aux (c :: cur) r
  end.
Definition split (s : str) : list str := split_aux [] s.

(** [range(0, stop, step)] for a positive [step]. *)
Definition range (stop step : nat) : list nat :=
  map (fun k => k * step) (seq 0 ((stop + step - 1) / step)).

(** [collections.Counter(ws).items()]: counts in order of first
    occurrence. *)
Fixpoint counter_add (w : str) (cs : list (str * nat)) : list (str * nat) :=
  match cs with
  | [] => [(w, 1)]
  | (w', n) :: cs' =>
      if str_eqb w w' then (w', S n) :: cs' else (w', n) :: counter_add w cs'
  end.
Definition Counter (ws : list str) : list (str * nat) :=
  fold_left (fun cs w => counter_add w cs) ws [].

End Py.

(** ** Regular-expression fragments used by the sources *)

Module Re.
Import Py.

(** The rest of [[^>]+>] once its first character is known to be
    present: everything up to and including the first ['>']. *)
Fixpoint until_gt (s : str) : option (str * str) :=
  match s with
  | [] => None
  | c :: r =>
      if N.eqb c GT then Some ([c], r)
      else match until_gt r with
           | Some (b, r') => Some (c :: b, r')
           | None => None
           end
  end.

(** A match of [<[^>]+>] at the head of [s], and what follows it. *)
Definition match_tag (s : str) : option (str * str) :=
  match s with
  | c0 :: c1 :: r =>
      if N.eqb c0 LT && negb (N.eqb c1 GT)
      then match until_gt (c1 :: r) with
           | Some (b, r') => Some (c0 :: b, r')
           | None => None
           end
      else None
  | _ => None
  end.

#[global] Arguments match_tag : simpl never.

(** The maximal run [[^<]*] at the head of [s]. *)
Fixpoint text_run (s : str) : str :=
  match s with
  | c :: r => if N.eqb c LT then [] else c :: text_run r
  | [] => []
  end.

(** [re.compile(r'(<[^>]+>|[^<]+)').finditer(s)]: the matches with their
    end offsets.  At a ['<'] that opens no tag neither alternative
    matches, and the search resumes one character later.  [skip] counts
    the characters of the current match still to be passed. *)
Fixpoint finditer_aux (skip pos : nat) (s : str) : list (str * nat) :=
  match s with
  | [] => []
  | c :: r =>
      match skip with
      | S k => finditer_aux k (S pos) r
      | O =>
          if N.eqb c LT then
            match match_tag s with
            | Some (tag, _) =>
                (tag, pos + length tag) :: finditer_aux (length tag - 1) (S pos) r
            | None => finditer_aux 0 (S pos) r
            end
          else
            let t := text_run s in
            (t, pos + length t) :: finditer_aux (length t - 1) (S pos) r
      end
  end.
Definition finditer (s : str) : list (str * nat) := finditer_aux 0 0 s.

(** [re.sub(r'<[^>]+>', '', s)] *)
Fixpoint sub_tags_empty (skip : nat) (s : str) : str :=
  match s with
  | [] => []
  | c :: r =>
      match skip with
      | S k => sub_tags_empty k r
      | O =>
          match match_tag s with
          | Some (tag, _) => sub_tags_empty (length tag - 1) r
          | None => c :: sub_tags_empty 0 r
          end
      end
  end.

(** [re.sub(r'\s+', ' ', s)] *)
Fixpoint sub_spaces (in_run : bool) (s : str) : str :=
  match s with
  | [] => []
  | c :: r =>
      if isspace c
      then if in_run then sub_spaces true r else SP :: sub_spaces true r
      else c :: sub_spaces false r
  end.

(** [re.search(r'<[^>]+>', s)] finds a match. *)
Fixpoint search_tag (s : str) : bool :=
  match s with
  | [] => false
  | _ :: r => match match_tag s with Some _ => true | None => search_tag r end
  end.

(** The group [[^/>\s]+] of [<([^/>\s]+)[^>]*>], taken greedily. *)
Fixpoint name_run (s : str) : str :=
  match s with
  | c :: r =>
      if N.eqb c 47 || N.eqb c GT || isspace c then [] else c :: name_run r
  | [] => []
  end.

(** A match of [<([^/>\s]+)[^>]*>] at the head of [s]: its replacement
    [<\1>] and its length. *)
Definition match_open_tag (s : str) : option (str * nat) :=
  match s with
  | c0 :: r =>
      if N.eqb c0 LT then
        match name_run r with
        | [] => None
        | name =>
            match until_gt r with
            | Some (b, _) => Some (LT :: name ++ [GT], S (length b))
            | None => None
            end
        end
      else None
  | [] => None
  end.
#[global] Arguments match_open_tag : simpl never.

(** [re.sub(r'<([^/>\s]+)[^>]*>', r'<\1>', s)] *)
Fixpoint sub_simplify_aux (skip : nat) (s : str) : str :=
  match s with
  | [] => []
  | c :: r =>
      match skip with
      | S k => sub_simplify_aux k r
      | O =>
          match match_open_tag s with
          | Some (repl, len) => repl ++ sub_simplify_aux (len - 1) r
          | None => c :: sub_simplify_aux 0 r
          end
      end
  end.
Definition sub_simplify (s : str) : str := sub_simplify_aux 0 s.

(** [re.split(r'[\s>]', s)[0]] *)
Fixpoint split_head (s : str) : str :=
  match s with
  | [] => []
  | c :: r => if isspace c || N.eqb c GT then [] else c :: split_head r
  end.

End Re.

(** ** Exceptions *)

(** One entry of the structure list: [[element, is_html_tag, position]]. *)
Record token := Token {
  element : str;
  is_html_tag : bool;
  position : nat
}.

(** The attributes [validate_html_structure] attaches to its
    [ValueError("Structure Mismatch")]. *)
Record mismatch_info := MismatchInfo {
  ratio : Q;
  orig : token;
  trans : token;
  original_context : str;
  translated_context : str
}.

Inductive exn :=
| ValueError (msg : str) (attrs : option mismatch_info)
| RuntimeError (msg : str)
| RateLimitError (msg : str)
| BadRequestError (msg : str)
| ZeroDivisionError
| IndexError
| UnboundLocalError
| OtherError (msg : str).

Definition exn_str (e : exn) : str :=
  match e with
  | ValueError m _ | RuntimeError m | RateLimitError m | BadRequestError m
  | OtherError m => m
  | ZeroDivisionError => py "division by zero"
  | IndexError => py "list index out of range"
  | UnboundLocalError => py "local variable referenced before assignment"
  end.

(** ** utils.py *)

Section Utils.
Import Py Re.

(** Unicode tables of the Python runtime: [str.isalnum] per code point
    (the class [\w] is alphanumeric or underscore) and [str.lower]. *)
Variable isalnum : N -> bool.
Variable lower : str -> str.

(** The configured code-point ranges of the source script:
    [LANGUAGE_CONFIG['hebrew_chars']['ranges']]. *)
Variable hebrew_ranges : list (N * N).

Definition remove_formatting (s : str) : str :=
  let s := sub_spaces false
             (replace (replace (replace s [10%N] (py " "))
                               [9%N] (py " "))
                      [13%N] (py " ")) in
  replace (replace (replace s (py "> <") (py "><"))
                   (py " <br>") (py "<br>"))
          (py "<br> ") (py "<br>").

Definition truncate_str (s : str) (length : nat) : str :=
  if length * 2 <? List.length s
  then take length s ++ py "..." ++ last_chars length s
  else s.

(** [re.sub(r'[^\w\s]', ' ', s)] *)
Definition sub_nonword (s : str) : str :=
  map (fun c => if isalnum c || N.eqb c 95 || isspace c then c else SP) s.

Definition words_of (text : str) (asian : bool) : list str :=
  let words :=
    strip (lower (remove_formatting
      (sub_nonword (sub_tags_empty 0 (replace text (py "&nbsp;") (py " ")))))) in
  if asian then map (fun c => [c]) (replace words (py " ") [])
  else split words.

Definition repeated_words (window : list str) (asian : bool) : list str :=
  map fst (filter (fun wc => (if asian then 35 else 20) <=? snd wc)
                  (Counter window)).

Fixpoint scan_windows (starts : list nat) (words : list str) (asian : bool)
    (window_size : nat) : list str :=
  match starts with
  | [] => []
  | i :: starts' =>
      let repeated := repeated_words (take window_size (drop i words)) asian in
      if 2 <? List.length repeated then repeated
      else scan_windows starts' words asian window_size
  end.

(** [abnormal_repetitions(text, asian)], with [window_size] at its default
    of 200, the only value a caller passes. *)
Definition abnormal_repetitions (text : str) (asian : bool) : list str :=
  let window_size := 200 in
  let words := words_of text asian in
  scan_windows (range (List.length words + 1 - window_size) (window_size / 2))
               words asian window_size.

Definition extract_test (answer : str) : str * str :=
  match find answer (py "<test") with
  | None => ([], answer)
  | Some start_index =>
      (strip (slice answer (Z.of_nat (start_index + List.length (py "<test ")))
                           (to_index (rfind answer (py "></test>")))),
       take start_index answer)
  end.

(** The inner loop of [contains_hebrew] over the ranges, for the character
    [c] at index [i]: [inl] is the early return. *)
Fixpoint scan_ranges (ranges : list (N * N)) (i : nat) (c : N)
    (hebrew_chars : list nat) : list nat + list nat :=
  match ranges with
  | [] => inr hebrew_chars
  | (s, e) :: ranges' =>
      if ((s <=? c) && (c <=? e))%N then
        let hebrew_chars := hebrew_chars ++ [i] in
        if 15 <? List.length hebrew_chars then inl hebrew_chars
        else scan_ranges ranges' i c hebrew_chars
      else scan_ranges ranges' i c hebrew_chars
  end.

Fixpoint scan_text (i : nat) (text : str) (hebrew_chars : list nat) : list nat :=
  match text with
  | [] => hebrew_chars
  | c :: text' =>
      match scan_ranges hebrew_ranges i c hebrew_chars with
      | inl found => found
      | inr hebrew_chars => scan_text (S i) text' hebrew_chars
      end
  end.

Definition contains_hebrew (text : str) : list nat := scan_text 0 text [].

End Utils.

(** ** html_processor.py *)

Section HtmlProcessor.
Import Py Re.

Definition is_tag_text (item : str) : bool :=
  startswith item [LT] && endswith item [GT].

Definition extract_html_structure (content : str) : list token :=
  map (fun m => Token (fst m) (is_tag_text (fst m)) (snd m))
      (filter (fun m => negb (bool_decide (strip (fst m) = []))) (finditer content)).

(** The leftover assigned when the last translated token is not a tag. *)
Definition last_token_leftover (translated_structure : list token)
    (translated_content leftover : str) : str :=
  if length translated_structure =? 1 then leftover ++ translated_content
  else
    let prev :=
      match translated_structure !! (length translated_structure - 2) with
      | Some t => element t
      | None => []
      end in
    drop (Z.to_nat (to_index (rfind translated_content prev) + Z.of_nat (length prev)))
         translated_content.

Definition tokens_differ (orig trans : token) : bool :=
  negb (eqb (is_html_tag orig) (is_html_tag trans))
  || (is_html_tag orig
      && negb (str_eqb (split_head (element orig)) (split_head (element trans)))).

Definition qmin1 (x : Q) : Q := if Qle_bool 1 x then 1%Q else x.

(** The [raise] of the mismatch branch, at loop index [i]. *)
Definition structure_mismatch (original_structure translated_structure : list token)
    (translated_content : str) (start_position i : nat) (leftover : str)
    (orig trans : token) : exn :=
  match length translated_content with
  | O => ZeroDivisionError
  | S _ =>
      let consumed :=
        length (concat (map element (take (i + 1) translated_structure))) in
      ValueError (py "Structure Mismatch") (Some {|
        ratio := qmin1 (Qplus
                   ((Z.of_nat consumed - Z.of_nat (length leftover))
                      # Pos.of_nat (length translated_content))
                   (5 # 100));
        orig := orig;
        trans := trans;
        original_context :=
          concat (map (fun s => truncate_str (element s) 50)
            (take (start_position + i + 1 - max start_position (start_position + i - 4))
               (drop (max start_position (start_position + i - 4)) original_structure)));
        translated_context :=
          concat (map (fun s => truncate_str (element s) 50)
            (take (i + 1 - (i - 4)) (drop (i - 4) translated_structure)))
      |})
  end.

(** The [for] loop over the zipped structures; the result is the value of
    the variable [leftover] when the loop ends. *)
Fixpoint validate_loop (original_structure translated_structure : list token)
    (translated_content : str) (start_position : nat)
    (pairs : list (token * token)) (i : nat) (leftover : str) : exn + str :=
  match pairs with
  | [] => inr leftover
  | (orig, trans) :: pairs' =>
      let at_last :=
        (i =? length translated_structure - 1) && negb (is_html_tag trans) in
      let leftover :=
        if at_last
        then last_token_leftover translated_structure translated_content leftover
        else leftover in
      if at_last && negb (length translated_structure =? 1)
         && startswith (lstrip leftover) [LT]
      then validate_loop original_structure translated_structure translated_content
             start_position pairs' (S i) leftover
      else if tokens_differ orig trans
      then inl (structure_mismatch original_structure translated_structure
                  translated_content start_position i leftover orig trans)
      else validate_loop original_structure translated_structure translated_content
             start_position pairs' (S i) leftover
  end.

Definition validate_html_structure (original_structure : list token)
    (translated_content : str) (start_position : nat) (leftover : str)
    : exn + (nat * str) :=
  let translated_structure := extract_html_structure (leftover ++ translated_content) in
  let pairs := zip (drop start_position original_structure) translated_structure in
  match validate_loop original_structure translated_structure translated_content
          start_position pairs 0 leftover with
  | inl e => inl e
  | inr leftover =>
      match last translated_structure with
      | None => inl IndexError
      | Some final =>
          let end_position := start_position + length translated_structure in
          let leftover := if is_html_tag final then [] else leftover in
          let end_position :=
            if is_html_tag final then end_position else end_position - 1 in
          match pairs with
          | [] => inl UnboundLocalError
          | _ :: _ => inr (end_position, leftover)
          end
      end
  end.

End HtmlProcessor.

(** ** translator.py: chunking *)

(** A chunk is the two-element list [[index, text]]; the list of chunks is
    a store of such objects, addressed by list index, whose texts are
    assigned in place. *)
Abbreviation chunk := (nat * str)%type.

Section Chunking.
Import Py Re.

(** [LANGUAGE_CONFIG['text_separators']] *)
Variable separators : list str.


Definition text_at (chunks : list chunk) (p : nat) : str :=
  match chunks !! p with Some c => snd c | None => [] end.

Definition set_text (chunks : list chunk) (p : nat) (v : str) : list chunk :=
  alter (fun c => (fst c, v)) p chunks.

(** The loop over the separators for the chunk at [p] and its
    [next_chunk] at [q]. *)
Fixpoint try_separators (seps : list str) (p q : nat) (chunks : list chunk)
    : list chunk :=
  match seps with
  | [] => chunks
  | separator :: seps' =>
      let next_cut :=
        to_index (find_in (text_at chunks q) separator 0
                          (length (text_at chunks q) / 7)) in
      let cut :=
        to_index (rfind_in (text_at chunks p) separator
                    (length (text_at chunks p) - (length (text_at chunks p) + 6) / 7)) in
      if ((-1 <? next_cut)
          && (next_cut <? Z.of_nat (length (text_at chunks p)) - cut
                           - 2 * Z.of_nat (length separator)))%Z
      then
        let next_cut := (next_cut + Z.of_nat (length separator))%Z in
        let chunks :=
          set_text chunks p (text_at chunks p ++ slice_to (text_at chunks q) next_cut) in
        set_text chunks q (slice_from (text_at chunks q) next_cut)
      else if negb (cut =? -1)%Z
      then
        let cut := (cut + Z.of_nat (length separator))%Z in
        let chunks :=
          set_text chunks q (slice_from (text_at chunks p) cut ++ text_at chunks q) in
        set_text chunks p (slice_to (text_at chunks p) cut)
      else try_separators seps' p q chunks
  end.

(** The loop that moves leading tags of [next_chunk] into the chunk. *)
Fixpoint pull_tags (items : list token) (p q : nat) (chunks : list chunk)
    : list chunk :=
  match items with
  | [] => chunks
  | item :: items' =>
      if is_html_tag item then
        let adjusted_cut :=
          (to_index (find (text_at chunks q) (element item))
           + Z.of_nat (length (element item)))%Z in
        let chunks :=
          set_text chunks p (text_at chunks p ++ slice_to (text_at chunks q) adjusted_cut) in
        let chunks := set_text chunks q (slice_from (text_at chunks q) adjusted_cut) in
        pull_tags items' p q chunks
      else chunks
  end.

(** The loop over [chunks[:-1]]: [positions] are the list indices of the
    chunk objects still to visit. *)
Fixpoint adjust_loop (positions : list nat) (chunks : list chunk)
    : exn + list chunk :=
  match positions with
  | [] => inr chunks
  | p :: positions' =>
      match chunks !! p with
      | None => inl IndexError
      | Some c =>
          let q := fst c + 1 in
          if q <? length chunks then
            let chunks := try_separators separators p q chunks in
            let chunks :=
              pull_tags (extract_html_structure (text_at chunks q)) p q chunks in
            adjust_loop positions' chunks
          else inl IndexError
      end
  end.

Definition adjust_chunks (chunks : list chunk) : exn + list chunk :=
  adjust_loop (seq 0 (length chunks - 1)) chunks.

(** The even split of [translate_html_file], before adjustment. *)
Definition split_chunks (chunk_max_size : nat) (translation_content : str)
    : exn + list chunk :=
  match chunk_max_size with
  | O => inl ZeroDivisionError
  | S _ =>
      let chunks_num := length translation_content / chunk_max_size + 1 in
      let chunk_size := length translation_content / chunks_num + 1 in
      inr (map (fun i => (i, take chunk_size (drop (i * chunk_size) translation_content)))
               (seq 0 chunks_num))
  end.

(** The chunk list [translate_html_file] works on. *)
Definition document_chunks (chunk_max_size : nat) (translation_content : str)
    : exn + list chunk :=
  match split_chunks chunk_max_size translation_content with
  | inl e => inl e
  | inr chunks => adjust_chunks chunks
  end.

End Chunking.

(** ** html_processor.py: reconstruction *)

Section Reconstruct.
Import Py Re.

Definition incomplete_marker : str := py "<incomplete-translation>".

(** The loop over the structure, on the variables [result] and
    [search_start]; at the incomplete-translation marker the loop breaks
    and the result stands as it is. *)
Fixpoint reconstruct_loop (items : list token) (result : str) (search_start : nat)
    : exn + str :=
  match items with
  | [] => inr result
  | item :: items' =>
      if is_html_tag item then
        let tag_to_find := split_head (element item) ++ [GT] in
        let tag_position :=
          to_index (find_in result tag_to_find search_start (length result)) in
        let next_tag_position :=
          to_index (find_in result [LT] search_start (length result)) in
        if (negb (tag_position =? -1) && (tag_position =? next_tag_position))%Z
        then
          reconstruct_loop items'
            (take (Z.to_nat tag_position) result ++ element item
               ++ drop (Z.to_nat tag_position + length tag_to_find) result)
            (Z.to_nat tag_position + length (element item))
        else if str_eqb (slice result next_tag_position (next_tag_position + 24))
                        incomplete_marker
        then inr result
        else inl (ValueError (py "Error: Could not find a match") None)
      else reconstruct_loop items' result search_start
  end.

Definition reconstruct_html_from_structure (original_structure : list token)
    (translated_content : str) : exn + str :=
  reconstruct_loop original_structure translated_content 0.

End Reconstruct.

(** ** The Generator and the file system *)

Inductive stop_reason := stop_sequence | max_tokens_stop | end_turn.

(** What the state machine reads of an API message: [message.content]
    ([None] when the content list is empty, else [content[0].text]),
    [message.stop_reason] and [message.usage.output_tokens]. *)
Record message := Message {
  msg_content : option str;
  msg_stop_reason : stop_reason;
  msg_output_tokens : nat
}.

(** One call of [client.messages.create]: it raises or returns. *)
Inductive api_result :=
| ApiRaise (e : exn)
| ApiReturn (m : message).

(** The arguments of [create_translation_message]. *)
Record request := Request {
  rq_system_text : str;
  rq_prompt : str;
  rq_assistant_answer : str;
  rq_max_tokens : nat;
  rq_temperature : Q;
  rq_use_cache : bool;
  rq_new_model : bool
}.

(** The world outside the interpreter: the files, by path, and the log of
    requests sent to the Generator so far. *)
Record world := World {
  fs : gmap str str;
  requests : list request
}.

(** The result of a call: it returns, it raises, or the scripted Generator
    has no response left for a request that has just been sent. *)
Inductive outcome (A : Type) :=
| Return (a : A)
| Raise (e : exn)
| OutOfScript.
Arguments Return {A} a.
Arguments Raise {A} e.
Arguments OutOfScript {A}.

Definition exists_path (w : world) (path : str) : bool :=
  match fs w !! path with Some _ => true | None => false end.

(** [open(path, 'a').write(data)] *)
Definition append_file (path data : str) (files : gmap str str) : gmap str str :=
  <[path := default [] (files !! path) ++ data]> files.

(** [os.rename(src, dst)], which replaces an existing [dst] (POSIX). *)
Definition rename (src dst : str) (files : gmap str str) : gmap str str :=
  match files !! src with
  | Some c => <[dst := c]> (delete src files)
  | None => files
  end.

(** ** api_client.py *)

(** [TranslationAPIClient.create_translation_message]: the request is
    sent; a rate-limit or bad-request error of the API is re-raised as
    [RuntimeError("!Stop!")], any other exception as itself. *)
Definition create_translation_message (rq : request) (script : list api_result)
    (w : world) : outcome message * list api_result * world :=
  let w := World (fs w) (requests w ++ [rq]) in
  match script with
  | [] => (OutOfScript, [], w)
  | ApiReturn m :: script' => (Return m, script', w)
  | ApiRaise (RateLimitError _) :: script'
  | ApiRaise (BadRequestError _) :: script' =>
      (Raise (RuntimeError (py "!Stop!")), script', w)
  | ApiRaise e :: script' => (Raise e, script', w)
  end.

(** ** translator.py: the chunk state machine *)

Record translation_config := TranslationConfig {
  chunk_overlap : nat;
  overlap_parting : nat;
  cfg_max_tokens : nat;
  cfg_min_tokens : nat;
  max_retries : nat;
  default_temperature : Q;
  recovery_mode : bool;
  chunk_max_size : nat
}.

Record lang_config := LangConfig {
  lc_title : str;
  lc_html : str;
  lc_future : str;
  lc_multiplier : Q          (* [lang_config.get('multiplier', 1)] *)
}.

(** An entry of [saved_data['chunks']]: a chunk or the string
    ["Chunk End"]. *)
Inductive chunk_entry :=
| Entry (c : chunk)
| ChunkEnd.

(** The checkpoint dictionary [saved_data]. *)
Record saved_data := SavedData {
  sd_chunks : list chunk_entry;
  sd_translations : list str;
  sd_current_position : nat;
  sd_leftover : str;
  sd_chunk_end_position : nat
}.

(** The local variables of [translate_chunk] that outlive an attempt. *)
Record locals := Locals {
  chunk_translation : str;
  warning_message : str;
  leftover : str;
  conversation : option (str * str);
  token_count : nat;
  chunk_parts : nat;
  current_position : nat;
  max_tokens : nat;
  use_cache : bool;
  previous_context : str;
  answer_start : str;
  saved : saved_data;
  chunk_end_position : nat;
  prompt : str;
  assistant_answer : str
}.

Definition set_warning (w : str) (l : locals) : locals :=
  Locals (chunk_translation l) w (leftover l) (conversation l) (token_count l)
    (chunk_parts l) (current_position l) (max_tokens l) (use_cache l)
    (previous_context l) (answer_start l) (saved l) (chunk_end_position l)
    (prompt l) (assistant_answer l).

Definition set_conversation (c : option (str * str)) (l : locals) : locals :=
  Locals (chunk_translation l) (warning_message l) (leftover l) c (token_count l)
    (chunk_parts l) (current_position l) (max_tokens l) (use_cache l)
    (previous_context l) (answer_start l) (saved l) (chunk_end_position l)
    (prompt l) (assistant_answer l).

Definition set_budget (m : nat) (cache : bool) (l : locals) : locals :=
  Locals (chunk_translation l) (warning_message l) (leftover l) (conversation l)
    (token_count l) (chunk_parts l) (current_position l) m cache
    (previous_context l) (answer_start l) (saved l) (chunk_end_position l)
    (prompt l) (assistant_answer l).

Section Wording.
Import Py Re.

Definition DQ : str := [34%N].
Definition NL : str := [10%N].

Definition constant_instruction (new_model : bool) : str :=
  py "Re-read <output-format> and <validation> requirements and verify strict compliance. Do not omit ANY content or HTML element, NOR replace <br> with line break. Do not stop mid-translation. NEVER truncate your answer before the end of the entire original text"
  ++ (if new_model then py ", or end it with ANY comment." else py ".").

Definition progress_prompt (current_length : Z) (prompt_context : str) : str :=
  py "About " ++ str_of_Z (Z.max current_length 0)
  ++ py " characters were translated. End of previous translation: <context>"
  ++ prompt_context
  ++ py "</context> Continue the translation exactly from where you left off. ".

Definition empty_answer_warning : str :=
  py "Last time, you returned an empty answer. Do not repeat this mistake. DO NOT stop before the very last character of this HTML text".

Definition last_tags_warning (last_tag : str) : str :=
  py ", NOR forget to include the last HTML tags in your answer. Your translation must end with "
  ++ last_tag.

Definition hebrew_warning (language hebrew : str) : str :=
  py "Last time, there was Hebrew inside your answer, instead of only " ++ language
  ++ py ": " ++ DQ ++ py "..." ++ hebrew ++ py "..." ++ DQ
  ++ py ". NEVER use hebrew letters in your answer. DO NOT repeat this mistake</warning>".

Definition repetition_warning (repeating_words : list str) : str :=
  py "Content hallucination was detected in your previous answer. Within ~200 words, these appeared over 20 times each: "
  ++ join (py ", ") repeating_words
  ++ py ". This indicates severe repetition and loss of context. DO NOT repeat this mistake</warning>".

Definition only_text_warning : str :=
  py "Last time you returned only text without HTML structure. ONLY stop answering at the end of the entire original text</warning>".

Definition mismatch_warning (e : mismatch_info) : str :=
  let orig := if is_html_tag (orig e) then sub_simplify (element (orig e)) else py "text" in
  let trans := if is_html_tag (trans e) then element (trans e) else py "text" in
  py "An HTML mismatch was detected in your previous answer, due to earlier omissions or alterations. Instead of "
  ++ orig ++ py " there was " ++ trans
  ++ py ". Context up to and including mismatch: <original>" ++ original_context e
  ++ py "</original> <your-translation>" ++ translated_context e
  ++ py "</your-translation></warning> DO NOT repeat this mistake, NOR misplace any "
  ++ orig ++ py " or " ++ trans ++ py ".".

Definition last_attempt_prefix (language : str) : str :=
  py " <warning>ATTENTION: This is your last attempt to translate this section into "
  ++ language ++ py ". ".

(** [os.path.basename] *)
Definition basename (path : str) : str :=
  match rfind path (py "/") with
  | Some i => drop (i + 1) path
  | None => path
  end.

Definition indent : str := repeat SP 24.

(** The degraded fragment returned in recovery. *)
Definition recovery_fragment (kept : str) (future name : str) : str :=
  kept ++ py " " ++ NL
  ++ indent ++ py "<incomplete-translation></incomplete-translation>"
  ++ concat (repeat (py "</div>") 20) ++ NL
  ++ indent ++ py "<div style=" ++ DQ ++ py "text-align:center;margin:0 auto;" ++ DQ ++ py ">" ++ NL
  ++ indent ++ future ++ py "<br><br>" ++ NL
  ++ indent ++ py "<a style=" ++ DQ ++ py "text-decoration:underline;" ++ DQ
  ++ py " href=" ++ DQ ++ py "/en/" ++ name ++ py ".html" ++ DQ ++ py ">" ++ NL
  ++ indent ++ py "Read complete version in English</a></div><br><br>" ++ NL
  ++ indent ++ py "<div style=" ++ DQ
  ++ py "font-size:13px;text-align:center;border-top:1px solid black;padding:4px;margin-bottom:2px;"
  ++ DQ ++ py ">" ++ NL
  ++ indent ++ py "<a style=" ++ DQ ++ py "text-decoration:underline;" ++ DQ
  ++ py " href=" ++ DQ ++ py "https://degeneration-of-nation.org/index.html" ++ DQ ++ py ">" ++ NL
  ++ indent ++ py "Our Site in Multiple Languages</a></div></body>".

(** The trailing-comment pattern of [translate_chunk]: optional
    whitespace, then one or more bracketed groups (an opening bracket, at
    least one character other than a closing bracket, a closing bracket,
    optional whitespace), up to the end of the answer.  [comment_tail]
    recognises it from the head of [s]; the states are [0] before the
    first group, [1] just after an opening bracket, [2] inside a group,
    [3] after a closing bracket. *)
Fixpoint comment_tail (state : nat) (s : str) : bool :=
  match s with
  | [] => state =? 3
  | c :: r =>
      match state with
      | 0 | 3 =>
          if isspace c then comment_tail state r
          else if N.eqb c 91 then comment_tail 1 r
          else false
      | 1 => if N.eqb c 93 then false else comment_tail 2 r
      | _ => if N.eqb c 93 then comment_tail 3 r else comment_tail 2 r
      end
  end.

(** [re.search] of that pattern: the start of the leftmost match. *)
Fixpoint search_comment (p : nat) (s : str) : option nat :=
  if comment_tail 0 s then Some p
  else match s with
       | [] => None
       | _ :: r => search_comment (S p) r
       end.

End Wording.

Section TranslateChunk.
Import Py Re.

(** [TRANSLATION_CONFIG] and the tables of [config.py]. *)
Variable cfg : translation_config.
Variable hebrew_ranges : list (N * N).
(** Unicode tables of the Python runtime. *)
Variable isalnum : N -> bool.
Variable lower : str -> str.
(** The [json] library: [json.dumps] and [json.loads] on checkpoints. *)
Variable json_dump : saved_data -> str.
Variable json_load : str -> exn + saved_data.
(** The system instructions, from the language, the language
    configuration, [new_model], [hebrew_context] and the chunk text; and
    the line logged to the [.txt] file for a request and its response. *)
Variable system_text : str -> lang_config -> bool -> str -> str -> str.
Variable api_log_entry : option (str * str) -> message -> str.

Definition json_path (destination_path : str) : str := destination_path ++ py ".json".

(** Lines 126-140: the start of a part (one round of the [while] loop). *)
Definition start_part (lc : lang_config) (hebrew_context : str) (l : locals)
    : exn + locals :=
  let assistant_overlap := chunk_overlap cfg / overlap_parting cfg in
  let max_tokens := (cfg_max_tokens cfg + max_tokens l) / 2 in
  match previous_context l with
  | [] =>
      inr (Locals (chunk_translation l) (warning_message l) (leftover l)
             (conversation l) (token_count l) (S (chunk_parts l))
             (current_position l) max_tokens (use_cache l) (previous_context l)
             (answer_start l) (saved l) (chunk_end_position l)
             [] (answer_start l))
  | _ =>
      let assistant_answer := last_chars assistant_overlap (previous_context l) in
      let prompt_context :=
        take (assistant_overlap * (overlap_parting cfg - 1)) (previous_context l) in
      if Qeq_bool (lc_multiplier lc) 0 then inl ZeroDivisionError
      else
        let translated :=
          match chunk_translation l with
          | [] => Z.of_nat (length prompt_context)
          | _ => (Z.of_nat (length (chunk_translation l))
                  - Z.of_nat (length assistant_answer))%Z
          end in
        let current_length := int_of_Q (Qdiv (inject_Z translated) (lc_multiplier lc)) in
        let current_length :=
          match chunk_translation l with
          | [] => current_length
          | _ => (current_length + Z.max (Z.of_nat (length hebrew_context) - 3) 0)%Z
          end in
        inr (Locals (chunk_translation l) (warning_message l) (leftover l)
               (conversation l) (token_count l) (S (chunk_parts l))
               (current_position l) max_tokens (use_cache l) (previous_context l)
               (answer_start l) (saved l) (chunk_end_position l)
               (progress_prompt current_length prompt_context) assistant_answer)
  end.

(** Lines 160-161. *)
Definition temperature (problematic : bool) (attempt : nat) : Q :=
  if problematic then (match attempt with O => 0 | S _ => 1 end)%Q
  else
    let t := Qplus (default_temperature cfg) (Qmult (3 # 10) (inject_Z (Z.of_nat attempt))) in
    if Qle_bool t 1 then t else 1%Q.

(** Lines 192-204: the answer text of a message with content. *)
Definition clean_answer (text : str) : str :=
  let answer := snd (extract_test text) in
  let answer := lstrip_by (N.eqb 10) (rstrip answer) in
  match search_comment 0 answer with
  | Some start => rstrip (take start answer)
  | None => answer
  end.

(** Lines 207-238: the checks that precede structural validation.  A
    failed check assigns [warning_message] and raises. *)
Definition check_answer (language : str) (lc : lang_config) (chunk_text : str)
    (html_structure : list token) (m : message) (l : locals)
    : (str * exn) + str :=
  let answer := match msg_content m with Some t => clean_answer t | None => [] end in
  match answer with
  | [] =>
      match index html_structure (Z.of_nat (chunk_end_position l) - 1) with
      | None => inl (empty_answer_warning, IndexError)
      | Some last_token =>
          inl (empty_answer_warning
                 ++ (if is_html_tag last_token
                     then last_tags_warning (element last_token) else []),
               ValueError (py "Empty Answer") None)
      end
  | _ =>
      let answer :=
        (match previous_context l with [] => answer_start l | _ => [] end) ++ answer in
      let answer :=
        match msg_stop_reason m with
        | stop_sequence => answer ++ py "</body>"
        | _ => answer
        end in
      match contains_hebrew hebrew_ranges answer with
      | h0 :: _ =>
          let hebrew := slice answer (Z.of_nat h0 - 20) (Z.of_nat h0 + 20) in
          inl (hebrew_warning language hebrew,
               ValueError (py "Hebrew in translation: ..." ++ hebrew) None)
      | [] =>
          match abnormal_repetitions isalnum lower answer
                  (contains (py "ja,zh,hi") (lc_html lc)) with
          | _ :: _ as repeating_words =>
              inl (repetition_warning repeating_words,
                   ValueError (py "abnormal_repetition detected") None)
          | [] =>
              if negb (search_tag answer)
                 && negb (Qle_bool
                            (Qdiv (Qmult (inject_Z (Z.of_nat (length chunk_text)))
                                         (lc_multiplier lc)) 3)
                            (inject_Z (Z.of_nat (length answer))))
              then inl (only_text_warning,
                        ValueError (py "Cannot validate: Only text, No HTML") None)
              else inr answer
          end
      end
  end.

(** Lines 241-254: structural validation, then the closing tags the
    answer may leave out.  The result is the answer, the position and the
    leftover. *)
Definition validate_answer (html_structure : list token) (answer : str) (l : locals)
    : exn + (str * nat * str) :=
  match validate_html_structure html_structure answer (current_position l) (leftover l) with
  | inl e => inl e
  | inr (current_position, leftover) =>
      let structure_leftover :=
        take (chunk_end_position l - current_position)
             (drop current_position html_structure) in
      match structure_leftover, leftover with
      | _ :: _, [] =>
          if forallb is_html_tag structure_leftover
          then inr (answer ++ sub_simplify (concat (map element structure_leftover)),
                    chunk_end_position l, leftover)
          else inr (answer, current_position, leftover)
      | _, _ => inr (answer, current_position, leftover)
      end
  end.

Definition chunk_in (c : chunk) (entries : list chunk_entry) : bool :=
  existsb (fun e => match e with
                    | Entry c' => bool_decide (c = c')
                    | ChunkEnd => false
                    end) entries.

(** Lines 264-272: the checkpoint dictionary after an increment; the
    assignment into [translations] can raise. *)
Definition update_saved (c : chunk) (chunk_translation : str)
    (current_position : nat) (leftover : str) (chunk_end_position : nat)
    (s : saved_data) : option exn * saved_data :=
  if chunk_in c (sd_chunks s) then
    if fst c <? length (sd_translations s)
    then (None,
          SavedData (sd_chunks s)
            (<[fst c := chunk_translation]> (sd_translations s))
            current_position leftover chunk_end_position)
    else (Some IndexError,
          SavedData (sd_chunks s) (sd_translations s)
            current_position leftover chunk_end_position)
  else
    (None,
     SavedData (removelast (sd_chunks s) ++ [Entry c])
       (sd_translations s ++ [chunk_translation])
       current_position leftover chunk_end_position).

(** Lines 275-277. *)
Definition chunk_complete (m : message) (current_position : nat) (leftover : str)
    (chunk_end_position : nat) : bool :=
  match msg_stop_reason m with
  | stop_sequence => true
  | _ =>
      match leftover with
      | [] => current_position =? chunk_end_position
      | _ => (Z.of_nat current_position =? Z.of_nat chunk_end_position - 1)%Z
      end
  end.

Definition with_chunk_end (s : saved_data) : saved_data :=
  SavedData (sd_chunks s ++ [ChunkEnd]) (sd_translations s)
    (sd_current_position s) (sd_leftover s) (sd_chunk_end_position s).

(** Lines 283-287: the previous checkpoint, if any, is renamed to
    [.old]; the checkpoint path is opened for writing and the dictionary
    is dumped into it. *)
Definition save_final_state (json_file : str) (s : saved_data)
    (files : gmap str str) : gmap str str :=
  let files :=
    match files !! json_file with
    | Some _ => rename json_file (json_file ++ py ".old") files
    | None => files
    end in
  <[json_file := json_dump (with_chunk_end s)]> (<[json_file := []]> files).

(** The states of the files a concurrent reader can find while
    [save_final_state] runs: after the rename, after [open] has truncated
    the checkpoint path, and after each flush of the dump, which reaches
    the file prefix by prefix. *)
Definition save_final_state_trace (json_file : str) (s : saved_data)
    (files : gmap str str) : list (gmap str str) :=
  let renamed :=
    match files !! json_file with
    | Some _ => rename json_file (json_file ++ py ".old") files
    | None => files
    end in
  renamed
  :: map (fun written => <[json_file := written]> renamed)
         (map (fun k => take k (json_dump (with_chunk_end s)))
              (seq 0 (S (length (json_dump (with_chunk_end s)))))).

(** The ways an attempt ends. *)
Inductive attempt_result :=
| Completed (chunk_translation : str)   (* [return chunk_translation, False] *)
| NextPart (l : locals)                 (* [break]: the increment was accepted *)
| Failed (e : exn) (m : option message) (l : locals)   (* an exception in the [try] *)
| NoResponse.

(** Lines 256-295: an accepted increment is appended to the partial
    file and to the running translation; the checkpoint dictionary is
    updated; the chunk is finished or goes on. *)
Definition accept_increment (c : chunk) (destination_path : str) (m : message)
    (answer : str) (current_position : nat) (leftover : str)
    (l : locals) (w : world) : attempt_result * world :=
  let w := World (append_file (destination_path ++ py ".partial.html") answer (fs w))
                 (requests w) in
  let chunk_translation := chunk_translation l ++ remove_formatting answer in
  let token_count := token_count l + msg_output_tokens m in
  let l' (saved : saved_data) (warning previous answer_start : str) : locals :=
    Locals chunk_translation warning leftover (conversation l) token_count
      (chunk_parts l) current_position (max_tokens l) (use_cache l)
      previous answer_start saved (chunk_end_position l)
      (prompt l) (assistant_answer l) in
  match update_saved c chunk_translation current_position leftover
          (chunk_end_position l) (saved l) with
  | (Some e, saved) =>
      (Failed e (Some m)
         (l' saved (warning_message l) (previous_context l) (answer_start l)), w)
  | (None, saved) =>
      if chunk_complete m current_position leftover (chunk_end_position l) then
        match snd c with
        | [] =>
            (Failed ZeroDivisionError (Some m)
               (l' saved (warning_message l) (previous_context l) (answer_start l)), w)
        | _ =>
            (Completed chunk_translation,
             World (save_final_state (json_path destination_path) saved (fs w))
                   (requests w))
        end
      else
        (NextPart (l' saved [] (last_chars (chunk_overlap cfg) chunk_translation) []), w)
  end.

(** Lines 144-295: the [try] block of one attempt. *)
Definition attempt_body (c : chunk) (language : str) (lc : lang_config)
    (hebrew_context destination_path : str) (html_structure : list token)
    (problematic new_model : bool) (attempt : nat)
    (l : locals) (script : list api_result) (w : world)
    : attempt_result * list api_result * world :=
  let text := prompt l ++ constant_instruction new_model ++ warning_message l in
  let new_conversation := Some (text, assistant_answer l) in
  if bool_decide (new_conversation = conversation l)
  then (Failed (RuntimeError (py "Stuck in a loop with LLM")) None l, script, w)
  else
    let l := set_conversation new_conversation l in
    let rq :=
      Request (system_text language lc new_model hebrew_context (snd c))
        text (assistant_answer l) (max_tokens l)
        (temperature problematic attempt) (use_cache l) new_model in
    match create_translation_message rq script w with
    | (OutOfScript, script, w) => (NoResponse, script, w)
    | (Raise e, script, w) => (Failed e None l, script, w)
    | (Return m, script, w) =>
        let w :=
          World (append_file (destination_path ++ py ".txt")
                   (api_log_entry (conversation l) m) (fs w)) (requests w) in
        match check_answer language lc (snd c) html_structure m l with
        | inl (warning, e) => (Failed e (Some m) (set_warning warning l), script, w)
        | inr answer =>
            match validate_answer html_structure answer l with
            | inl e => (Failed e (Some m) l, script, w)
            | inr (answer, current_position, leftover) =>
                let '(r, w) :=
                  accept_increment c destination_path m answer
                    current_position leftover l w in
                (r, script, w)
            end
        end
    end.

Definition is_value_error (e : exn) (msg : str) : bool :=
  match e with
  | ValueError m _ => str_eqb m msg
  | _ => false
  end.

Definition is_runtime_error (e : exn) (msg : str) : bool :=
  match e with
  | RuntimeError m => str_eqb m msg
  | _ => false
  end.

(** How the [except] block ends. *)
Inductive handled :=
| Reraise (e : exn)                      (* [raise ...] *)
| Fragment (text : str)                  (* [return fragment, True] *)
| Retry (l : locals).                    (* on to the next attempt *)

(** Lines 297-335: the [except Exception as e] block. *)
Definition handle_exception (language : str) (lc : lang_config)
    (destination_path : str) (attempt : nat) (e : exn) (m : option message)
    (l : locals) (w : world) : handled :=
  match e with
  | RateLimitError _ | BadRequestError _ => Reraise (RuntimeError (py "!Stop!"))
  | _ =>
      if (max_retries cfg - 1 <=? attempt)
         || is_value_error e (py "Empty Answer")
         || is_runtime_error e (py "Stuck in a loop with LLM")
      then
        if recovery_mode cfg
           && (exists_path w (json_path destination_path)
               || negb (bool_decide (chunk_translation l = [])))
        then
          Fragment (recovery_fragment
                      (if exists_path w (json_path destination_path)
                       then [] else chunk_translation l)
                      (lc_future lc) (basename destination_path))
        else Reraise e
      else
        let l :=
          match e, m with
          | ValueError msg (Some info), Some m =>
              if str_eqb msg (py "Structure Mismatch") then
                let scaled := Qmult (inject_Z (Z.of_nat (msg_output_tokens m))) (ratio info) in
                let budget :=
                  if Qle_bool (inject_Z (Z.of_nat (cfg_min_tokens cfg))) scaled
                  then Z.to_nat (int_of_Q scaled) else cfg_min_tokens cfg in
                set_warning (mismatch_warning info) (set_budget budget true l)
              else l
          | _, _ => l
          end in
        match warning_message l with
        | [] => Retry l
        | _ =>
            if contains (warning_message l) (py "<warning>") then Retry l
            else Retry (set_warning (last_attempt_prefix language ++ warning_message l) l)
        end
  end.

(** The [for attempt in range(max_retries)] loop inside the [while]
    loop.  Every attempt that neither returns nor raises has consumed one
    response of the Generator, so the recursion is on the script. *)
Fixpoint attempts (c : chunk) (language : str) (lc : lang_config)
    (hebrew_context destination_path : str) (html_structure : list token)
    (problematic new_model : bool)
    (fuel : nat) (attempt : nat) (l : locals) (script : list api_result) (w : world)
    : outcome (str * bool) * list api_result * world :=
  match attempt_body c language lc hebrew_context destination_path html_structure
          problematic new_model attempt l script w with
  | (NoResponse, script, w) => (OutOfScript, script, w)
  | (Completed t, script, w) => (Return (t, false), script, w)
  | (NextPart l, script, w) =>
      match fuel with
      | O => (OutOfScript, script, w)
      | S fuel =>
          match start_part lc hebrew_context l with
          | inl e => (Raise e, script, w)
          | inr l =>
              attempts c language lc hebrew_context destination_path html_structure
                problematic new_model fuel 0 l script w
          end
      end
  | (Failed e m l, script, w) =>
      match handle_exception language lc destination_path attempt e m l w with
      | Reraise e => (Raise e, script, w)
      | Fragment t => (Return (t, true), script, w)
      | Retry l =>
          if S attempt <? max_retries cfg then
            match fuel with
            | O => (OutOfScript, script, w)
            | S fuel =>
                attempts c language lc hebrew_context destination_path html_structure
                  problematic new_model fuel (S attempt) l script w
            end
          else (Return ([], true), script, w)
      end
  end.

(** Lines 89-122: the initial locals, from the checkpoint file if there
    is one.  [inr (inl r)] is the early return of a chunk the checkpoint
    already holds. *)
Definition resume (c : chunk) (lc : lang_config) (context : str)
    (destination_path : str) (problematic : bool) (w : world)
    : exn + ((str * bool) + locals) :=
  let fresh :=
    Locals [] [] [] None 0 0 0 (cfg_max_tokens cfg) problematic context
      (py "<body><div><a>" ++ lc_title lc ++ py "</a></div><")
      (SavedData [] [] 0 [] 0) 0 [] [] in
  let finish (l : locals) : locals :=
    match chunk_translation l with
    | [] =>
        Locals (chunk_translation l) (warning_message l) (leftover l)
          (conversation l) (token_count l) (chunk_parts l) (current_position l)
          (max_tokens l) (use_cache l) (previous_context l) (answer_start l)
          (saved l)
          (length (extract_html_structure (snd c)) + current_position l)
          (prompt l) (assistant_answer l)
    | _ => l
    end in
  match fs w !! json_path destination_path with
  | None => inr (inr (finish fresh))
  | Some file =>
      match json_load file with
      | inl e => inl e
      | inr s =>
          let loaded (translation previous : str) (chunk_end : nat) : locals :=
            Locals translation [] (sd_leftover s) None 0 0 (sd_current_position s)
              (cfg_max_tokens cfg) problematic previous [] s chunk_end [] [] in
          if chunk_in c (sd_chunks s) then
            match sd_translations s !! fst c with
            | None => inl IndexError
            | Some translation =>
                if negb (match last (sd_chunks s) with
                         | Some (Entry c') => bool_decide (c = c')
                         | _ => false
                         end)
                then inr (inl (translation, problematic))
                else inr (inr (finish
                       (loaded translation
                          (last_chars (chunk_overlap cfg) (context ++ translation))
                          (sd_chunk_end_position s))))
            end
          else inr (inr (finish (loaded [] context 0)))
      end
  end.

Definition translate_chunk (c : chunk) (language : str) (lc : lang_config)
    (context hebrew_context destination_path : str)
    (html_structure : list token) (problematic new_model : bool)
    (script : list api_result) (w : world)
    : outcome (str * bool) * list api_result * world :=
  match overlap_parting cfg with
  | O => (Raise ZeroDivisionError, script, w)
  | S _ =>
      match resume c lc context destination_path problematic w with
      | inl e => (Raise e, script, w)
      | inr (inl r) => (Return r, script, w)
      | inr (inr l) =>
          match max_retries cfg with
          | O => (Return ([], true), script, w)
          | S _ =>
              match start_part lc hebrew_context l with
              | inl e => (Raise e, script, w)
              | inr l =>
                  attempts c language lc hebrew_context destination_path
                    html_structure problematic new_model
                    (length script) 0 l script w
              end
          end
      end
  end.

End TranslateChunk.

(** ** The checkpoint file format *)

(** [json.dump] with its default arguments on a checkpoint dictionary,
    and [json.load] on the files it writes.  Content in any other layout
    is taken as undecodable. *)
Section Json.
Import Py.

Definition hex_digit (n : N) : N := (if n <? 10 then 48 + n else 87 + n)%N.

Definition hex4 (n : N) : str :=
  [hex_digit ((n / 4096) mod 16); hex_digit ((n / 256) mod 16);
   hex_digit ((n / 16) mod 16); hex_digit (n mod 16)]%N.

Definition unicode_escape (n : N) : str := [92; 117]%N ++ hex4 n.

Definition escape_char (c : N) : str :=
  (if c =? 34 then [92; 34]
   else if c =? 92 then [92; 92]
   else if c =? 10 then [92; 110]
   else if c =? 13 then [92; 114]
   else if c =? 9 then [92; 116]
   else if c =? 8 then [92; 98]
   else if c =? 12 then [92; 102]
   else if (32 <=? c) && (c <=? 126) then [c]
   else if c <? 65536 then unicode_escape c
   else unicode_escape (55296 + (c - 65536) / 1024)
        ++ unicode_escape (56320 + (c - 65536) mod 1024))%N.

Definition json_string (s : str) : str := DQ ++ flat_map escape_char s ++ DQ.
Definition json_nat (n : nat) : str := str_of_Z (Z.of_nat n).
Definition json_list (items : list str) : str := py "[" ++ join (py ", ") items ++ py "]".

Definition json_entry (e : chunk_entry) : str :=
  match e with
  | Entry c => json_list [json_nat (fst c); json_string (snd c)]
  | ChunkEnd => json_string (py "Chunk End")
  end.

Definition json_dumps (s : saved_data) : str :=
  py "{" ++ json_string (py "chunks") ++ py ": "
  ++ json_list (map json_entry (sd_chunks s)) ++ py ", "
  ++ json_string (py "translations") ++ py ": "
  ++ json_list (map json_string (sd_translations s)) ++ py ", "
  ++ json_string (py "current_position") ++ py ": "
  ++ json_nat (sd_current_position s) ++ py ", "
  ++ json_string (py "leftover") ++ py ": "
  ++ json_string (sd_leftover s) ++ py ", "
  ++ json_string (py "chunk_end_position") ++ py ": "
  ++ json_nat (sd_chunk_end_position s) ++ py "}".

Definition expect (lit s : str) : option str :=
  if startswith s lit then Some (drop (length lit) s) else None.

Definition hex_value (c : N) : option N :=
  (if (48 <=? c) && (c <=? 57) then Some (c - 48)
   else if (97 <=? c) && (c <=? 102) then Some (c - 87)
   else if (65 <=? c) && (c <=? 70) then Some (c - 55)
   else None)%N.

Definition simple_escape (e : N) : option N :=
  (if e =? 34 then Some 34 else if e =? 92 then Some 92
   else if e =? 47 then Some 47 else if e =? 110 then Some 10
   else if e =? 114 then Some 13 else if e =? 116 then Some 9
   else if e =? 98 then Some 8 else if e =? 102 then Some 12
   else None)%N.

(** The code units of a string literal, read after its opening quote,
    and the text after its closing quote. *)
Fixpoint parse_units (s : str) : option (list N * str) :=
  match s with
  | [] => None
  | c :: r =>
      if N.eqb c 34 then Some ([], r)
      else if N.eqb c 92 then
        match r with
        | [] => None
        | e :: r' =>
            if N.eqb e 117 then
              match r' with
              | a :: b :: c' :: d :: r'' =>
                  match hex_value a, hex_value b, hex_value c', hex_value d,
                        parse_units r'' with
                  | Some a, Some b, Some c', Some d, Some (us, rest) =>
                      Some ((a * 4096 + b * 256 + c' * 16 + d)%N :: us, rest)
                  | _, _, _, _, _ => None
                  end
              | _ => None
              end
            else
              match simple_escape e, parse_units r' with
              | Some u, Some (us, rest) => Some (u :: us, rest)
              | _, _ => None
              end
        end
      else if (c <? 32)%N then None
      else match parse_units r with
           | Some (us, rest) => Some (c :: us, rest)
           | None => None
           end
  end.

(** Surrogate pairs become one code point. *)
Fixpoint join_surrogates (high : option N) (us : list N) : str :=
  match us with
  | [] => match high with Some h => [h] | None => [] end
  | u :: us' =>
      match high with
      | Some h =>
          if ((56320 <=? u) && (u <? 57344))%N
          then (65536 + (h - 55296) * 1024 + (u - 56320))%N :: join_surrogates None us'
          else if ((55296 <=? u) && (u <? 56320))%N
          then h :: join_surrogates (Some u) us'
          else h :: u :: join_surrogates None us'
      | None =>
          if ((55296 <=? u) && (u <? 56320))%N
          then join_surrogates (Some u) us'
          else u :: join_surrogates None us'
      end
  end.

Definition parse_string (s : str) : option (str * str) :=
  match expect DQ s with
  | Some r =>
      match parse_units r with
      | Some (us, rest) => Some (join_surrogates None us, rest)
      | None => None
      end
  | None => None
  end.

Fixpoint digits_value (acc : nat) (s : str) : nat * str :=
  match s with
  | c :: r =>
      if ((48 <=? c) && (c <=? 57))%N
      then digits_value (acc * 10 + N.to_nat (c - 48)) r
      else (acc, s)
  | [] => (acc, [])
  end.

Definition parse_nat (s : str) : option (nat * str) :=
  match s with
  | c :: _ =>
      if ((48 <=? c) && (c <=? 57))%N then Some (digits_value 0 s) else None
  | [] => None
  end.

Definition parse_entry (s : str) : option (chunk_entry * str) :=
  match expect (py "[") s with
  | Some r =>
      match parse_nat r with
      | Some (i, r) =>
          match expect (py ", ") r with
          | Some r =>
              match parse_string r with
              | Some (t, r) =>
                  match expect (py "]") r with
                  | Some r => Some (Entry (i, t), r)
                  | None => None
                  end
              | None => None
              end
          | None => None
          end
      | None => None
      end
  | None =>
      match parse_string s with
      | Some (t, r) => if str_eqb t (py "Chunk End") then Some (ChunkEnd, r) else None
      | None => None
      end
  end.

(** The items of a list after its first one, up to the closing bracket. *)
Fixpoint parse_more {A} (item : str -> option (A * str)) (fuel : nat) (s : str)
    : option (list A * str) :=
  match expect (py "]") s with
  | Some r => Some ([], r)
  | None =>
      match fuel, expect (py ", ") s with
      | S fuel, Some r =>
          match item r with
          | Some (x, r) =>
              match parse_more item fuel r with
              | Some (xs, r) => Some (x :: xs, r)
              | None => None
              end
          | None => None
          end
      | _, _ => None
      end
  end.

Definition parse_list {A} (item : str -> option (A * str)) (s : str)
    : option (list A * str) :=
  match expect (py "[") s with
  | Some r =>
      match expect (py "]") r with
      | Some r => Some ([], r)
      | None =>
          match item r with
          | Some (x, r) =>
              match parse_more item (length r) r with
              | Some (xs, r) => Some (x :: xs, r)
              | None => None
              end
          | None => None
          end
      end
  | None => None
  end.

Definition parse_checkpoint (s : str) : option saved_data :=
  match expect (py "{" ++ json_string (py "chunks") ++ py ": ") s with
  | Some r =>
  match parse_list parse_entry r with
  | Some (chunks, r) =>
  match expect (py ", " ++ json_string (py "translations") ++ py ": ") r with
  | Some r =>
  match parse_list parse_string r with
  | Some (translations, r) =>
  match expect (py ", " ++ json_string (py "current_position") ++ py ": ") r with
  | Some r =>
  match parse_nat r with
  | Some (current_position, r) =>
  match expect (py ", " ++ json_string (py "leftover") ++ py ": ") r with
  | Some r =>
  match parse_string r with
  | Some (leftover, r) =>
  match expect (py ", " ++ json_string (py "chunk_end_position") ++ py ": ") r with
  | Some r =>
  match parse_nat r with
  | Some (chunk_end_position, r) =>
      if str_eqb r (py "}")
      then Some (SavedData chunks translations current_position leftover
                           chunk_end_position)
      else None
  | None => None end | None => None end | None => None end | None => None end
  | None => None end | None => None end | None => None end | None => None end
  | None => None end | None => None end.

Definition json_loads (s : str) : exn + saved_data :=
  match parse_checkpoint s with
  | Some d => inr d
  | None => inl (ValueError (py "JSONDecodeError") None)
  end.

End Json.

(** ** translator.py: a document and the whole run *)

Section Run.
Import Py Re.

Variable cfg : translation_config.
Variable hebrew_ranges : list (N * N).
Variable separators : list str.
Variable isalnum : N -> bool.
Variable lower : str -> str.
Variable isdigit : N -> bool.
Variable json_dump : saved_data -> str.
Variable json_load : str -> exn + saved_data.
Variable system_text : str -> lang_config -> bool -> str -> str -> str.
Variable api_log_entry : option (str * str) -> message -> str.
(** The site-specific rewriting of a finished document (title, headlines,
    paths: lines 446-471 of [translate_html_file]) and of a script file
    ([adjust_paths_after_translation] on [add.js]). *)
Variable post_process : lang_config -> str -> str.
Variable adjust_script : lang_config -> str -> str.
(** [PATH_MAPPING_CONFIG['source_paths']], [TRANSLATION_CONFIG['source_dir']],
    the language's [html_code], and [EXECUTION_CONFIG]. *)
Variable source_paths : list (str * str).
Variable source_dir : str.
Variable html_code : str.
Variable test_mode : bool.
Variable test_file_count : nat.

Definition headline_marker : str :=
  py "<div class=" ++ DQ ++ py "mainheadline" ++ DQ ++ py ">".

(** The state of the loop over the chunks of a document. *)
Record doc_state := DocState {
  translated_content : str;
  doc_previous_context : str;
  doc_hebrew_context : str;
  doc_problematic : bool
}.

(** Lines 413-437: the loop over the chunks; [inr] is the translated
    content when the loop ends or breaks. *)
Fixpoint translate_chunks (chunks : list chunk) (language : str) (lc : lang_config)
    (destination_path : str) (html_structure : list token)
    (d : doc_state) (script : list api_result) (w : world)
    : outcome str * list api_result * world :=
  match chunks with
  | [] => (Return (translated_content d), script, w)
  | c :: chunks' =>
      let call problematic script w :=
        translate_chunk cfg hebrew_ranges isalnum lower json_dump json_load
          system_text api_log_entry c language lc
          (doc_previous_context d) (doc_hebrew_context d) destination_path
          html_structure problematic true script w in
      let continue (response : str) (problematic : bool) script w :=
        let translated := translated_content d ++ response in
        if Qeq_bool (lc_multiplier lc) 0 then (Raise ZeroDivisionError, script, w)
        else
          let d' :=
            DocState translated
              (last_chars (chunk_overlap cfg) translated)
              (py "..." ++ slice_from (snd c)
                 (- int_of_Q (Qdiv (inject_Z (Z.of_nat (chunk_overlap cfg)))
                                   (lc_multiplier lc))))
              problematic in
          if recovery_mode cfg && contains translated incomplete_marker
          then (Return translated, script, w)
          else translate_chunks chunks' language lc destination_path
                 html_structure d' script w in
      match call (doc_problematic d) script w with
      | (Return ([], problematic), script, w) =>
          match call problematic script w with
          | (Return ([], _), script, w) =>
              (Raise (ValueError (py "(((((((0))))))) Failure after chunk retry") None),
               script, w)
          | (Return (response, problematic), script, w) =>
              continue response problematic script w
          | (Raise e, script, w) => (Raise e, script, w)
          | (OutOfScript, script, w) => (OutOfScript, script, w)
          end
      | (Return (response, problematic), script, w) =>
          continue response problematic script w
      | (Raise e, script, w) => (Raise e, script, w)
      | (OutOfScript, script, w) => (OutOfScript, script, w)
      end
  end.

Definition translate_html_file (content language : str) (lc : lang_config)
    (destination_path : str) (script : list api_result) (w : world)
    : outcome str * list api_result * world :=
  match find content headline_marker with
  | None => (Raise (ValueError (py "substring not found") None), script, w)
  | Some split_index =>
      let first_part := take split_index content in
      let second_part :=
        py "<body>"
        ++ slice content (Z.of_nat split_index) (to_index (rfind content (py "</html>"))) in
      let html_structure := extract_html_structure second_part in
      let translation_content := remove_formatting (sub_simplify second_part) in
      match document_chunks separators (chunk_max_size cfg) translation_content with
      | inl e => (Raise e, script, w)
      | inr chunks =>
          let problematic := exists_path w (destination_path ++ py ".txt") in
          match translate_chunks chunks language lc destination_path html_structure
                  (DocState [] [] [] problematic) script w with
          | (Return translated, script, w) =>
              match reconstruct_html_from_structure html_structure
                      (translated ++ py "</html>") with
              | inl e => (Raise e, script, w)
              | inr translated =>
                  (Return (post_process lc
                             (first_part ++ replace_first translated (py "<body>") [])),
                   script, w)
              end
          | r => r
          end
      end
  end.

(** [os.path.join] of a directory and a relative name. *)
Definition join_path (dir name : str) : str := dir ++ py "/" ++ name.

Definition map_paths (file : str) : str :=
  fold_left (fun f m => replace f (fst m) (snd m)) source_paths file.

(** The files to translate, from the directory listing: those whose names
    have no digit first. *)
Definition files_to_translate (listing : list str) : list str :=
  let files :=
    filter (fun f => endswith f (py ".html") || endswith f (py "add.js")) listing in
  let files_without_numbers := filter (fun f => negb (existsb isdigit f)) files in
  files_without_numbers
  ++ filter (fun f => negb (bool_decide (f ∈ files_without_numbers))) files.

(** How one round of the loop over the files ends. *)
Inductive round :=
| Go (error_count : nat)           (* on to the next file *)
| Stop                             (* [break] *)
| Propagate (e : exn)              (* an exception leaves the loop *)
| Silent.                          (* the Generator script ran out *)

(** Lines 534-594: the [try] / [except] / [finally] for one file.  A
    [break] in the [finally] block discards an exception in flight.
    [last_written] is the variable [translated_content] as the previous
    rounds left it. *)
Definition process_file (language : str) (lc : lang_config)
    (source_file_path target_file : str) (files_processed error_count : nat)
    (last_written : option str) (script : list api_result) (w : world)
    : round * option str * list api_result * world :=
  let finally (r : round) : round :=
    if test_mode && (test_file_count <=? S files_processed) then
      match r with Silent => Silent | _ => Stop end
    else r in
  let except (e : exn) : round :=
    if contains (exn_str e) (py "!Stop!") then Propagate e
    else if max (files_processed / 8) 4 <? S error_count
    then Propagate (RuntimeError (py "O-: Too many translation errors: "
                                  ++ str_of_Z (Z.of_nat (S error_count))))
    else Go (S error_count) in
  let write (translated : str) (w : world) : world :=
    World (<[target_file := translated]> (fs w)) (requests w) in
  match fs w !! source_file_path with
  | None =>
      (finally (except (OtherError (py "No such file or directory"))),
       last_written, script, w)
  | Some content =>
      if endswith target_file (py ".html") then
        let destination_path := removesuffix target_file (py ".html") in
        match translate_html_file content language lc destination_path script w with
        | (Return translated, script, w) =>
            if negb (recovery_mode cfg) || negb (contains translated incomplete_marker)
            then
              let cleaned :=
                delete (destination_path ++ py ".partial.html")
                  (delete (destination_path ++ py ".json.old")
                     (delete (destination_path ++ py ".json") (fs w))) in
              (finally (Go error_count), Some translated, script,
               write translated (World cleaned (requests w)))
            else (finally (Go (S error_count)), Some translated, script,
                  write translated w)
        | (Raise e, script, w) => (finally (except e), last_written, script, w)
        | (OutOfScript, script, w) => (Silent, last_written, script, w)
        end
      else if endswith target_file (py "add.js") then
        let translated := adjust_script lc content in
        (finally (Go error_count), Some translated, script, write translated w)
      else
        match last_written with
        | Some translated =>
            (finally (Go error_count), last_written, script, write translated w)
        | None => (finally (except UnboundLocalError), last_written, script, w)
        end
  end.

(** Lines 518-594: the loop over the files. *)
Fixpoint translate_files (files : list str) (language : str) (lc : lang_config)
    (files_processed error_count : nat) (last_written : option str)
    (script : list api_result) (w : world)
    : outcome unit * list api_result * world :=
  match files with
  | [] => (Return tt, script, w)
  | file :: files' =>
      let source_file_path := join_path source_dir file in
      let target_file := join_path (join_path source_dir html_code) (map_paths file) in
      if match fs w !! target_file with
         | Some (_ :: _) =>
             negb (exists_path w (removesuffix target_file (py ".html")
                                  ++ py ".partial.html"))
         | _ => false
         end
      then translate_files files' language lc files_processed error_count
             last_written script w
      else
        match process_file language lc source_file_path target_file
                files_processed error_count last_written script w with
        | (Go error_count, last_written, script, w) =>
            translate_files files' language lc (S files_processed) error_count
              last_written script w
        | (Stop, _, script, w) => (Return tt, script, w)
        | (Propagate e, _, script, w) => (Raise e, script, w)
        | (Silent, _, script, w) => (OutOfScript, script, w)
        end
  end.

(** [translate_website], for a supported language with configuration
    [lc], over the directory listing [listing]. *)
Definition translate_website (language : str) (lc : lang_config) (listing : list str)
    (script : list api_result) (w : world)
    : outcome unit * list api_result * world :=
  translate_files (files_to_translate listing) language lc 0 0 None script w.

End Run.

(** * Specification-side definitions *)

(** ** The tokenizer *)

Section TokenizerSpec.
Import Py Re.

(** The texts of all regex matches, blank ones included. *)
Definition match_texts (s : str) : list str := map fst (finditer s).

Definition blank (item : str) : bool := forallb isspace item.

(** A ['<'] opens a tag when at least one character other than ['>']
    follows it and a ['>'] comes later. *)
Definition opens_tag (r : str) : bool :=
  match r with
  | c :: r' => negb (N.eqb c GT) && existsb (fun c' => N.eqb c' GT) r'
  | [] => false
  end.

Fixpoint well_tagged (s : str) : bool :=
  match s with
  | [] => true
  | c :: r => (if N.eqb c LT then opens_tag r else true) && well_tagged r
  end.

Definition non_space (c : N) : bool := negb (isspace c).

End TokenizerSpec.

(** ** The leak detector *)

Section LeakSpec.

Definition in_range (c : N) (r : N * N) : bool := ((fst r <=? c) && (c <=? snd r))%N.

(** The number of configured ranges that contain [c]. *)
Fixpoint ranges_containing (c : N) (ranges : list (N * N)) : nat :=
  match ranges with
  | [] => 0
  | r :: ranges' => (if in_range c r then 1 else 0) + ranges_containing c ranges'
  end.

(** What an uncapped scan reports from index [i] on: every position of a
    character of the disallowed ranges, once for each range that contains
    the character. *)
Fixpoint leak_hits (ranges : list (N * N)) (i : nat) (text : str) : list nat :=
  match text with
  | [] => []
  | c :: text' => repeat i (ranges_containing c ranges) ++ leak_hits ranges (S i) text'
  end.

(** The Hebrew block, and a text of sixteen alephs. *)
Definition hebrew_block : list (N * N) := [(1424, 1535)%N].
Definition sixteen_alephs : str := repeat 1488%N 16.

End LeakSpec.

(** ** The repetition detector *)

Section RepetitionSpec.
Import Py.

Fixpoint occurrences (w : str) (ws : list str) : nat :=
  match ws with
  | [] => 0
  | x :: ws' => (if str_eqb w x then 1 else 0) + occurrences w ws'
  end.

(** The count a [Counter] holds for [w]. *)
Fixpoint counter_get (w : str) (cs : list (str * nat)) : nat :=
  match cs with
  | [] => 0
  | (w', n) :: cs' => if str_eqb w w' then n else counter_get w cs'
  end.

(** The windows the detector examines: 200 consecutive words starting at
    a multiple of 100. *)
Definition window (k : nat) (words : list str) : list str :=
  take 200 (drop (100 * k) words).

(** More than two distinct words reach the threshold. *)
Definition looping (threshold : nat) (ws : list str) : Prop :=
  exists w1 w2 w3,
    w1 <> w2 /\ w1 <> w3 /\ w2 <> w3
    /\ threshold <= occurrences w1 ws
    /\ threshold <= occurrences w2 ws
    /\ threshold <= occurrences w3 ws.

(** The ASCII part of the Unicode tables, for inputs in ASCII. *)
Definition ascii_isalnum (c : N) : bool :=
  (((48 <=? c) && (c <=? 57)) || ((65 <=? c) && (c <=? 90))
   || ((97 <=? c) && (c <=? 122)))%N.
Definition ascii_lower (s : str) : str :=
  map (fun c => if ((65 <=? c) && (c <=? 90))%N then (c + 32)%N else c) s.
Definition ascii_isdigit (c : N) : bool := ((48 <=? c) && (c <=? 57))%N.

(** A text of 200 words: [times] copies of one word, then distinct
    numerals. *)
Definition one_word_repeated (times : nat) : str :=
  join (py " ")
    (repeat (py "spam") times
     ++ map (fun i => py "w" ++ str_of_Z (Z.of_nat i)) (seq 0 (200 - times))).

End RepetitionSpec.

(** ** The validator *)

Section ValidatorSpec.
Import Py Re.

(** The value of the variable [leftover] when a mismatch is raised at
    loop index [j] on the translated token [t]: the carried leftover,
    unless [t] is the final token and not a tag, in which case the final
    token branch has reassigned it. *)
Definition leftover_at (translated_structure : list token)
    (translated_content leftover : str) (j : nat) (t : token) : str :=
  if (j =? length translated_structure - 1) && negb (is_html_tag t)
  then last_token_leftover translated_structure translated_content leftover
  else leftover.

(** The length of the translated output up to and including token [j]. *)
Definition consumed_upto (translated_structure : list token) (j : nat) : nat :=
  length (concat (map element (take (j + 1) translated_structure))).

Definition consumed_fraction (consumed leftover_length increment_length : nat) : Q :=
  (Z.of_nat consumed - Z.of_nat leftover_length) # Pos.of_nat increment_length.

(** The ratio as the code computes it: 0.05 is added, then the sum is
    capped at 1. *)
Definition capped_ratio (consumed leftover_length increment_length : nat) : Q :=
  qmin1 (Qplus (consumed_fraction consumed leftover_length increment_length) (5 # 100)).

(** The ratio as C4 words it: the fraction is capped at 1, then 0.05 is
    added. *)
Definition claimed_ratio (consumed leftover_length increment_length : nat) : Q :=
  Qplus (qmin1 (consumed_fraction consumed leftover_length increment_length)) (5 # 100).

(** The token at [pos] with the (at most) [before] tokens that precede
    it. *)
Definition window_before (l : list token) (pos before : nat) : list token :=
  take (before + 1) (drop (pos - before) l).

Definition contribution (t : token) : str := truncate_str (element t) 50.

(** The skeleton and the inputs of the examples. *)
Definition small_skeleton : list token :=
  extract_html_structure (py "<div>Hello<br>World</div>").
Definition long_text_skeleton : list token :=
  extract_html_structure (repeat 120%N 120).

End ValidatorSpec.

(** ** The chunk adjuster *)

Section ChunkSpec.

(** The chunk texts, in order. *)
Definition chunk_texts (chunks : list chunk) : list str := map snd chunks.

(** Two chunk lists hold the same indices and the same concatenated
    text. *)
Definition conserved (before after : list chunk) : Prop :=
  map fst after = map fst before
  /\ concat (chunk_texts after) = concat (chunk_texts before).

(** The separators and the body of the examples. *)
Definition example_separators : list str := [py ". "; py ", "].
Definition example_body : str :=
  py "<body><div><a>Title</a></div><p>First sentence. Second one, with clause.</p><br><p>Another paragraph here. And more text to split</p></body>".

End ChunkSpec.

(** ** A concrete configuration *)

Section Example.
Import Py Re.

(** The closing lines of the system instructions (the rest is prose that
    the state machine only passes on). *)
Definition plain_system_text (language : str) (lc : lang_config) (new_model : bool)
    (hebrew_context chunk_text : str) : str :=
  py "HTML text to translate into " ++ language ++ py ":" ++ NL
  ++ hebrew_context ++ chunk_text.

Definition plain_log_entry (conversation : option (str * str)) (m : message) : str :=
  py "Conversation: "
  ++ match conversation with Some (user, _) => user | None => [] end
  ++ NL ++ NL ++ py "Message: " ++ default [] (msg_content m) ++ NL ++ NL ++ NL.

Definition example_config (recovery : bool) : translation_config :=
  {| chunk_overlap := 100; overlap_parting := 4;
     cfg_max_tokens := 1000; cfg_min_tokens := 100;
     max_retries := 3; default_temperature := 0%Q;
     recovery_mode := recovery; chunk_max_size := 4000 |}.

Definition french : lang_config :=
  {| lc_title := py "Title"; lc_html := py "fr"; lc_future := py "Soon";
     lc_multiplier := 1%Q |}.

(** A source page: header material, then the translatable body from the
    headline marker on. *)
Definition example_page : str :=
  py "<html><head><title>t</title></head>"
  ++ headline_marker ++ py "<a href=/>Site</a></div><div>Hello<br>World</div></body></html>".

(** The chunk state machine, a document and the run in this
    configuration. *)
Definition example_translate_chunk (recovery : bool) :=
  translate_chunk (example_config recovery) hebrew_block ascii_isalnum ascii_lower
    json_dumps json_loads plain_system_text plain_log_entry.

Definition example_translate_website (recovery : bool) :=
  translate_website (example_config recovery) hebrew_block example_separators
    ascii_isalnum ascii_lower ascii_isdigit json_dumps json_loads
    plain_system_text plain_log_entry
    (fun _ content => content) (fun _ content => content)
    [] (py "site") (py "fr") false 0.

Definition example_body_chunk : chunk :=
  (0, py "<body><div><a>Site</a></div><div>Hello<br>World</div></body>").

Definition example_skeleton : list token :=
  extract_html_structure
    (py "<body>" ++ headline_marker
     ++ py "<a href=/>Site</a></div><div>Hello<br>World</div></body>").

Definition reply (text : string) (stop : stop_reason) : api_result :=
  ApiReturn (Message (Some (py text)) stop 50).

Definition empty_world : world := World ∅ [].

(** Two pages to translate. *)
Definition two_pages : world :=
  World (<[py "site/a.html" := example_page]>
           (<[py "site/b.html" := example_page]> ∅)) [].

End Example.

(** ** Checkpoints of the examples *)

Section CheckpointExamples.

Definition example_json_file : str := py "site/fr/a.json".

(** The checkpoint on disk after the first chunk, and the dictionary in
    memory when the second chunk completes. *)
Definition example_old : saved_data :=
  {| sd_chunks := [Entry (0, py "<body><div>one</div>"); ChunkEnd];
     sd_translations := [py "<body><div>un</div>"];
     sd_current_position := 4; sd_leftover := []; sd_chunk_end_position := 4 |}.

Definition example_new : saved_data :=
  {| sd_chunks := [Entry (0, py "<body><div>one</div>"); Entry (1, py "<p>two</p></body>")];
     sd_translations := [py "<body><div>un</div>"; py "<p>deux</p></body>"];
     sd_current_position := 8; sd_leftover := []; sd_chunk_end_position := 8 |}.

Definition example_files : gmap str str :=
  {[ example_json_file := json_dumps example_old ]}.

End CheckpointExamples.
From Stdlib Require Import DecimalPos.

(** ** api_client.py: the response processor *)

Section ResponseProcessor.
Import Py Re.

(** [TranslationAPIClient.process_response]: a message without content,
    or whose first block has an empty text, gives the empty string and [False];
    otherwise the text is stripped, a trailing bracketed comment is cut
    off, and the previous context, if any, is put in front. *)
Definition process_response (m : message) (previous_context : str) : str * bool :=
  match msg_content m with
  | None | Some [] => ([], false)
  | Some text =>
      let answer := lstrip_by (N.eqb 10) (rstrip text) in
      let answer :=
        match search_comment 0 answer with
        | Some start => rstrip (take start answer)
        | None => answer
        end in
      (match previous_context with
       | [] => answer
       | _ => previous_context ++ answer
       end, true)
  end.

End ResponseProcessor.

(** * Specification-side definitions: layout of tokens and of texts *)

Section LayoutSpec.
Import Py Re.

(** The tokens lie in [s] one after the other: each token's element is
    the piece of [s] that ends at the token's position, and starts at or
    after the end of the previous token ([start] for the first). *)
Fixpoint tokens_laid_out (start : nat) (s : str) (ts : list token) : Prop :=
  match ts with
  | [] => True
  | t :: ts' =>
      start + length (element t) <= position t
      /\ position t <= length s
      /\ take (length (element t)) (drop (position t - length (element t)) s)
         = element t
      /\ tokens_laid_out (position t) s ts'
  end.

(** Texts and tags in alternation, a text first, and what follows the
    last tag. *)
Fixpoint interleave (texts tags : list str) (rest : str) : str :=
  match texts, tags with
  | t :: texts', tag :: tags' => t ++ tag ++ interleave texts' tags' rest
  | _, _ => rest
  end.

(** The tag a translation is searched for: the skeleton tag up to its
    first whitespace, closed. *)
Definition simplified_tag (item : token) : str := split_head (element item) ++ [GT].

Definition no_lt (t : str) : bool := forallb (fun c => negb (N.eqb c LT)) t.

(** No two whitespace characters in a row; [after_space] tells whether
    the character before [s] is one. *)
Fixpoint single_spaced (after_space : bool) (s : str) : bool :=
  match s with
  | [] => true
  | c :: r => negb (after_space && isspace c) && single_spaced (isspace c) r
  end.

(** Every whitespace character is the plain space. *)
Definition plain_spaces (s : str) : bool :=
  forallb (fun c => negb (isspace c) || N.eqb c SP) s.

End LayoutSpec.

Section ReconstructSpec.

(** The tags of a skeleton, in order. *)
Fixpoint tag_items (os : list token) : list token :=
  match os with
  | [] => []
  | item :: os' => if is_html_tag item then item :: tag_items os' else tag_items os'
  end.

(** Every tag item opens with ['<'], as the tokenizer's tags do. *)
Definition tags_open (os : list token) : bool :=
  forallb (fun item => Py.startswith (element item) [Py.LT]) (tag_items os).

End ReconstructSpec.

(** * Specification-side definitions: checkpoints that [json] round-trips *)

Section JsonSpec.

(** A Unicode scalar value: a code point that is not a surrogate. *)
Definition scalar (c : N) : bool :=
  ((c <? 55296) || ((57344 <=? c) && (c <? 1114112)))%N.

Definition valid_str (s : str) : bool := forallb scalar s.

(** The UTF-16 code units [json] writes for a code point. *)
Definition code_units (c : N) : list N :=
  (if c <? 65536 then [c]
   else [55296 + (c - 65536) / 1024; 56320 + (c - 65536) mod 1024])%N.

(** A checkpoint whose strings hold scalar values only. *)
Definition valid_checkpoint (s : saved_data) : bool :=
  forallb (fun e => match e with
                    | Entry c => valid_str (snd c)
                    | ChunkEnd => true
                    end) (sd_chunks s)
  && forallb valid_str (sd_translations s)
  && valid_str (sd_leftover s).

(** The text that follows a numeral does not start with a digit. *)
Definition no_digit_head (r : str) : Prop :=
  match r with
  | c :: _ => ((48 <=? c) && (c <=? 57))%N = false
  | [] => True
  end.

(** The characters of a decimal numeral. *)
Definition uint_chars (d : Decimal.uint) : str :=
  map N_of_ascii (list_ascii_of_string (DecimalString.NilEmpty.string_of_uint d)).

End JsonSpec.

(** * Inputs of the examples below *)

Section MoreExamples.
Import Py.

(** A skeleton with attributes, and a translation that keeps the tag
    names. *)
Definition linked_skeleton : list token :=
  extract_html_structure (py "<div class=x><a href=/>Site</a></div>").

(** The tokens of [<div class=x>Hello<p>More</p></div>] before its
    second tag, that tag, and the rest. *)
Definition broken_head : list token :=
  [Token (py "<div class=x>") true 13; Token (py "Hello") false 18].
Definition broken_item : token := Token (py "<p>") true 21.
Definition broken_tail : list token :=
  [Token (py "More") false 25; Token (py "</p>") true 29;
   Token (py "</div>") true 35].

(** The locals of a first attempt on the example chunk. *)
Definition first_attempt : locals :=
  Locals [] [] [] None 0 1 0 1000 false [] (py "<body><div><a>Title</a></div><")
    (SavedData [] [] 0 [] 0) 12 [] (py "<body><div><a>Title</a></div><").

(** The run in test mode, stopping after one file. *)
Definition example_test_run :=
  translate_files (example_config false) hebrew_block example_separators
    ascii_isalnum ascii_lower json_dumps json_loads
    plain_system_text plain_log_entry
    (fun _ content => content) (fun _ content => content)
    [] (py "site") (py "fr") true 1.

Definition example_translate_files :=
  translate_files (example_config false) hebrew_block example_separators
    ascii_isalnum ascii_lower json_dumps json_loads
    plain_system_text plain_log_entry
    (fun _ content => content) (fun _ content => content)
    [] (py "site") (py "fr") false 0.

Definition example_process_file :=
  process_file (example_config false) hebrew_block example_separators
    ascii_isalnum ascii_lower json_dumps json_loads
    plain_system_text plain_log_entry
    (fun _ content => content) (fun _ content => content) false 0.

(** A site whose one page is translated already, and a site whose page
    lacks the headline marker. *)
Definition finished_site : world :=
  World (<[py "site/a.html" := example_page]>
           (<[py "site/fr/a.html" := py "<html>fini</html>"]> ∅)) [].

Definition bare_site : world :=
  World (<[py "site/a.html" := py "<html><body>plain</body></html>"]> ∅) [].

(** A continuation whose reply has a Hebrew letter as its fourth
    character. *)
Definition continuing : locals :=
  Locals (py "<body>Bon") [] [] None 0 2 3 1000 false (py "<body>Bon") []
    (SavedData [] [] 0 [] 0) 12 [] (py "Bon").
Definition leaking_reply : message :=
  Message (Some (py "abc" ++ [1488%N] ++ repeat 120%N 50)) max_tokens_stop 50.

(** A text of 200 words in which three words are repeated. *)
Definition three_words_repeated : str :=
  join (py " ") (repeat (py "a") 70 ++ repeat (py "b") 70 ++ repeat (py "c") 60).

End MoreExamples.

Section AnswerSpec.

(** The answer as [translate_chunk] assembles it from a cleaned reply:
    the opening of the first part in front, the closing body tag behind
    when the Generator stopped at its stop sequence. *)
Definition assembled_answer (m : message) (l : locals) : str :=
  (match previous_context l with [] => answer_start l | _ => [] end)
  ++ match msg_content m with Some t => clean_answer t | None => [] end
  ++ match msg_stop_reason m with stop_sequence => py "</body>" | _ => [] end.

End AnswerSpec.

(** * Properties *)

(** ** Python string primitives *)

Section PyFacts.
Import Py.

Lemma startswith_spec (s p : str) : startswith s p = true <-> exists r, s = p ++ r.
Proof.
  revert s; induction p as [|a p IH]; intros s.
  - destruct s; (split; [intros _; eexists; reflexivity | reflexivity]).
  - destruct s as [|b s]; simpl.
    + split; [discriminate | intros [r Hr]; discriminate].
    + rewrite andb_true_iff, N.eqb_eq, IH. split.
      * intros [-> [r ->]]. exists r. reflexivity.
      * intros [r Hr]. injection Hr as -> ->. split; [reflexivity | now exists r].
Qed.

Lemma existsb_lstrip_by (p : N -> bool) (s : str) :
  existsb (fun c => negb (p c)) (lstrip_by p s) = existsb (fun c => negb (p c)) s.
Proof.
  induction s as [|c s IH]; simpl; [reflexivity|].
  destruct (p c) eqn:Hc; simpl; [exact IH | now rewrite Hc].
Qed.

Lemma lstrip_by_nil (p : N -> bool) (s : str) :
  lstrip_by p s = [] <-> existsb (fun c => negb (p c)) s = false.
Proof.
  induction s as [|c s IH]; simpl; [tauto|].
  destruct (p c); simpl; [exact IH | split; discriminate].
Qed.

Lemma existsb_rev {A} (f : A -> bool) (l : list A) : existsb f (rev l) = existsb f l.
Proof.
  induction l as [|x l IH]; simpl; [reflexivity|].
  rewrite existsb_app, IH. simpl. rewrite orb_false_r. apply orb_comm.
Qed.

(** [item.strip()] is falsy exactly when [item] is whitespace only. *)
Lemma strip_nil (s : str) : strip s = [] <-> forallb isspace s = true.
Proof.
  unfold strip, lstrip, rstrip, rstrip_by.
  rewrite lstrip_by_nil, existsb_rev, existsb_lstrip_by, existsb_rev.
  induction s as [|c s IH]; simpl; [tauto|].
  destruct (isspace c); simpl; [exact IH | split; discriminate].
Qed.

End PyFacts.

(** ** The tokenizer *)

Section Tokenizer.
Import Py Re.

Lemma until_gt_app (s b r : str) :
  until_gt s = Some (b, r) -> s = b ++ r /\ b <> [] /\ last b = Some GT.
Proof.
  revert b r; induction s as [|c s IH]; intros b r; simpl; [discriminate|].
  destruct (N.eqb_spec c GT) as [->|Hc].
  - intros [= <- <-]. auto.
  - destruct (until_gt s) as [[b' r']|]; [|discriminate].
    intros [= <- <-]. destruct (IH _ _ eq_refl) as (-> & Hb & Hl).
    repeat split; [discriminate|].
    destruct b'; [congruence | exact Hl].
Qed.

Lemma until_gt_some (s : str) :
  existsb (fun c => N.eqb c GT) s = true -> until_gt s <> None.
Proof.
  induction s as [|c s IH]; simpl; [discriminate|].
  destruct (N.eqb c GT); simpl; [discriminate|].
  intros H. specialize (IH H). destruct (until_gt s) as [[? ?]|]; congruence.
Qed.

Lemma match_tag_app (s tag rest : str) :
  match_tag s = Some (tag, rest) ->
  s = tag ++ rest /\ exists b, tag = LT :: b /\ b <> [] /\ last tag = Some GT.
Proof.
  unfold match_tag. destruct s as [|c0 [|c1 r]]; simpl; try discriminate.
  destruct (N.eqb_spec c0 LT) as [->|]; simpl; [|discriminate].
  destruct (N.eqb c1 GT); simpl; [discriminate|].
  destruct (until_gt r) as [[b r']|] eqn:Hu; [|discriminate].
  intros [= <- <-]. destruct (until_gt_app _ _ _ Hu) as (-> & Hb & Hl).
  split; [reflexivity|]. exists (c1 :: b). repeat split; [discriminate|].
  simpl. destruct b; [congruence | exact Hl].
Qed.

Lemma match_tag_opens (r : str) : opens_tag r = true -> match_tag (LT :: r) <> None.
Proof.
  unfold match_tag. destruct r as [|c r]; simpl; [discriminate|].
  change (N.eqb LT LT) with true.
  destruct (N.eqb c GT); simpl; [discriminate|].
  intros H. pose proof (until_gt_some r H).
  destruct (until_gt r) as [[? ?]|]; congruence.
Qed.

Lemma text_run_app (s : str) : s = text_run s ++ drop (length (text_run s)) s.
Proof.
  induction s as [|c s IH]; simpl; [reflexivity|].
  destruct (N.eqb c LT); simpl; [reflexivity | now f_equal].
Qed.

Lemma text_run_no_lt (s : str) : forallb (fun c => negb (N.eqb c LT)) (text_run s) = true.
Proof.
  induction s as [|c s IH]; simpl; [reflexivity|].
  destruct (N.eqb c LT) eqn:Hc; simpl; [reflexivity | now rewrite Hc].
Qed.

Lemma finditer_aux_skip (s : str) : forall skip pos,
  skip <= length s ->
  finditer_aux skip pos s = finditer_aux 0 (pos + skip) (drop skip s).
Proof.
  induction s as [|c s IH]; intros [|k] pos Hk.
  - reflexivity.
  - simpl in Hk. lia.
  - now rewrite Nat.add_0_r.
  - simpl in Hk. change (finditer_aux k (S pos) s = finditer_aux 0 (pos + S k) (drop k s)).
    rewrite IH by lia. f_equal. lia.
Qed.

Lemma finditer_aux_pos (s : str) : forall skip p q,
  map fst (finditer_aux skip p s) = map fst (finditer_aux skip q s).
Proof.
  induction s as [|c s IH]; intros [|k] p q; simpl; auto.
  destruct (N.eqb c LT).
  - destruct (match_tag (c :: s)) as [[tag rest]|]; simpl; [f_equal|]; auto.
  - simpl. f_equal. auto.
Qed.

(** The three ways the scan proceeds from a match boundary. *)
Lemma match_texts_tag (r tag rest : str) :
  match_tag (LT :: r) = Some (tag, rest) ->
  match_texts (LT :: r) = tag :: match_texts rest.
Proof.
  intros Hm. unfold match_texts, finditer. simpl finditer_aux.
  change (N.eqb LT LT) with true. cbv iota. rewrite Hm. simpl map. f_equal.
  destruct (match_tag_app _ _ _ Hm) as (Hs & b & -> & Hb & _).
  simpl in Hs. injection Hs as ->. simpl length.
  rewrite finditer_aux_skip by (rewrite length_app; lia).
  replace (S (length b) - 1) with (length b) by lia.
  rewrite drop_app_length. apply finditer_aux_pos.
Qed.

Lemma match_texts_skip (r : str) :
  match_tag (LT :: r) = None -> match_texts (LT :: r) = match_texts r.
Proof.
  intros Hm. unfold match_texts, finditer. simpl finditer_aux.
  change (N.eqb LT LT) with true. cbv iota. rewrite Hm. apply finditer_aux_pos.
Qed.

Lemma match_texts_text (c : N) (r : str) :
  N.eqb c LT = false ->
  match_texts (c :: r) =
    text_run (c :: r) :: match_texts (drop (length (text_run (c :: r))) (c :: r)).
Proof.
  intros Hc. unfold match_texts, finditer. simpl finditer_aux. rewrite Hc.
  simpl map. simpl text_run. rewrite Hc. simpl length. f_equal.
  rewrite Nat.sub_0_r, finditer_aux_skip.
  - apply finditer_aux_pos.
  - rewrite (text_run_app r) at 2. rewrite length_app. lia.
Qed.

(** Induction along the scan. *)
Lemma match_texts_ind (P : str -> list str -> Prop) :
  P [] [] ->
  (forall r tag rest,
      match_tag (LT :: r) = Some (tag, rest) ->
      P rest (match_texts rest) -> P (tag ++ rest) (tag :: match_texts rest)) ->
  (forall r,
      match_tag (LT :: r) = None ->
      P r (match_texts r) -> P (LT :: r) (match_texts r)) ->
  (forall c r,
      N.eqb c LT = false ->
      let t := text_run (c :: r) in
      let rest := drop (length t) (c :: r) in
      P rest (match_texts rest) -> P (t ++ rest) (t :: match_texts rest)) ->
  forall s, P s (match_texts s).
Proof.
  intros Hnil Htag Hskip Htext s.
  remember (length s) as n eqn:Hn. revert s Hn.
  induction n as [n IH] using lt_wf_ind. intros [|c r] Hn; [exact Hnil|].
  destruct (N.eqb_spec c LT) as [->|Hc].
  - destruct (match_tag (LT :: r)) as [[tag rest]|] eqn:Hm.
    + rewrite (match_texts_tag _ _ _ Hm).
      destruct (match_tag_app _ _ _ Hm) as (Hs & b & Hb & _). rewrite Hs.
      apply (Htag r); [exact Hm|]. apply (IH (length rest)); [|reflexivity].
      subst n tag. rewrite Hs. simpl. rewrite length_app. lia.
    + rewrite (match_texts_skip _ Hm). apply Hskip; [exact Hm|].
      apply (IH (length r)); [subst n; simpl; lia | reflexivity].
  - apply N.eqb_neq in Hc. rewrite (match_texts_text _ _ Hc).
    rewrite (text_run_app (c :: r)) at 1. apply Htext; [exact Hc|].
    apply (IH (length (drop (length (text_run (c :: r))) (c :: r)))); [|reflexivity].
    subst n. rewrite length_drop. simpl text_run. rewrite Hc. simpl. lia.
Qed.

Lemma extract_elements (s : str) :
  map element (extract_html_structure s) =
  filter (fun m => negb (blank m)) (match_texts s).
Proof.
  unfold extract_html_structure, match_texts. rewrite map_map. simpl.
  induction (finditer s) as [|m l IH]; [reflexivity|].
  rewrite filter_cons. simpl map at 2. rewrite filter_cons.
  assert (Hb : bool_decide (strip m.1 = []) = blank m.1).
  { apply eq_true_iff_eq. rewrite bool_decide_eq_true. apply strip_nil. }
  rewrite Hb. destruct (blank m.1); simpl; [exact IH | now f_equal].
Qed.

Lemma tag_not_blank (s tag rest : str) : match_tag s = Some (tag, rest) -> blank tag = false.
Proof.
  intros Hm. destruct (match_tag_app _ _ _ Hm) as (_ & b & -> & _). reflexivity.
Qed.

Lemma well_tagged_app (a b : str) : well_tagged (a ++ b) = true -> well_tagged b = true.
Proof.
  induction a as [|c a IH]; simpl; [auto|].
  rewrite andb_true_iff. intros [_ H]. auto.
Qed.

(** Every match is a piece of the input; on a well-tagged input the
    matches partition it. *)
Lemma match_texts_partition (s : str) : well_tagged s = true -> concat (match_texts s) = s.
Proof.
  pattern s, (match_texts s). apply match_texts_ind; clear s.
  - reflexivity.
  - intros r tag rest Hm IH Hw. simpl. f_equal. apply IH. eapply well_tagged_app, Hw.
  - intros r Hm IH Hw. simpl in Hw. change (N.eqb LT LT) with true in Hw.
    apply andb_true_iff in Hw as [Ho _]. now apply match_tag_opens in Ho.
  - intros c r Hc t rest IH Hw. simpl. f_equal. apply IH. eapply well_tagged_app, Hw.
Qed.

Lemma filter_blank (keep : N -> bool) (t : str) :
  (forall c, isspace c = true -> keep c = false) ->
  blank t = true -> filter keep t = [].
Proof.
  intros Hk. induction t as [|c t IH]; simpl; [reflexivity|].
  rewrite andb_true_iff. intros [Hc Ht]. rewrite filter_cons, (Hk c Hc). simpl. auto.
Qed.

(** Characters of a class that contains no whitespace survive
    tokenization, provided the class excludes ['<'] or the input is
    well tagged. *)
Lemma extract_keeps (keep : N -> bool) (s : str) :
  (forall c, isspace c = true -> keep c = false) ->
  keep LT = false \/ well_tagged s = true ->
  filter keep (concat (map element (extract_html_structure s))) = filter keep s.
Proof.
  intros Hk. rewrite extract_elements.
  pattern s, (match_texts s). apply match_texts_ind; clear s.
  - reflexivity.
  - intros r tag rest Hm IH Hw. rewrite filter_cons, (tag_not_blank _ _ _ Hm).
    simpl. rewrite !filter_app. f_equal. apply IH.
    destruct Hw as [Hw|Hw]; [now left | right; eapply well_tagged_app, Hw].
  - intros r Hm IH [Hw|Hw].
    + rewrite filter_cons, Hw. simpl. apply IH. now left.
    + simpl in Hw. change (N.eqb LT LT) with true in Hw.
      apply andb_true_iff in Hw as [Ho _]. now apply match_tag_opens in Ho.
  - intros c r Hc t rest IH Hw. rewrite filter_cons.
    assert (Hrest : filter keep (concat (filter (fun m => negb (blank m)) (match_texts rest)))
                    = filter keep rest).
    { apply IH. destruct Hw as [Hw|Hw]; [now left | right; eapply well_tagged_app, Hw]. }
    destruct (blank t) eqn:Hb; simpl.
    + rewrite filter_app, (filter_blank keep t Hk Hb). exact Hrest.
    + rewrite !filter_app. now f_equal.
Qed.

Lemma extract_sublist (s : str) :
  concat (map element (extract_html_structure s)) `sublist_of` s.
Proof.
  rewrite extract_elements.
  pattern s, (match_texts s). apply match_texts_ind; clear s.
  - constructor.
  - intros r tag rest Hm IH. rewrite filter_cons, (tag_not_blank _ _ _ Hm). simpl.
    now apply sublist_app.
  - intros r Hm IH. now apply sublist_cons.
  - intros c r Hc t rest IH. rewrite filter_cons.
    destruct (blank t); simpl.
    + now apply sublist_inserts_l.
    + now apply sublist_app.
Qed.

(** C7, as the code has it: on an input in which every ['<'] opens a tag,
    the regex matches partition the input, the tokens are exactly the
    matches that are not whitespace only, and so the concatenated token
    texts are the input with whitespace-only matches removed: no
    non-whitespace character is lost. *)
Theorem tokenizer_roundtrip (s : str) :
  well_tagged s = true ->
  concat (match_texts s) = s
  /\ map element (extract_html_structure s)
     = filter (fun m => negb (blank m)) (match_texts s)
  /\ concat (map element (extract_html_structure s)) `sublist_of` s
  /\ filter non_space (concat (map element (extract_html_structure s)))
     = filter non_space s.
Proof.
  intros Hw. split; [now apply match_texts_partition|].
  split; [apply extract_elements|].
  split; [apply extract_sublist|].
  apply extract_keeps; [|now right].
  intros c Hc. unfold non_space. now rewrite Hc.
Qed.

Lemma tokenizer_roundtrip_witness :
  let s := py "<div> <b>Hello world</b>  <br> tail" in
  well_tagged s = true
  /\ filter non_space (concat (map element (extract_html_structure s)))
     = filter non_space s.
Proof.
  intros s. split; [reflexivity|].
  apply (tokenizer_roundtrip s). reflexivity.
Defined.

(** C7 as stated fails: a ['<'] that opens no tag is not whitespace, yet
    the tokenizer drops it. *)
Lemma tokenizer_roundtrip_counterexample :
  let s := py "a<b" in
  concat (map element (extract_html_structure s)) = py "ab"
  /\ filter non_space (concat (map element (extract_html_structure s)))
     <> filter non_space s.
Proof.
  split; [reflexivity|]. vm_compute. discriminate.
Qed.

End Tokenizer.

(** ** The leak detector *)

Section LeakDetector.
Variable ranges : list (N * N).

Lemma scan_ranges_spec (rs : list (N * N)) (i : nat) (c : N) :
  forall acc, length acc <= 15 ->
  match scan_ranges rs i c acc with
  | inl found =>
      found = take 16 (acc ++ repeat i (ranges_containing c rs))
      /\ 16 <= length (acc ++ repeat i (ranges_containing c rs))
  | inr acc' =>
      acc' = acc ++ repeat i (ranges_containing c rs) /\ length acc' <= 15
  end.
Proof.
  induction rs as [|[s e] rs IH]; intros acc Hacc; simpl.
  - rewrite app_nil_r. auto.
  - change ((s <=? c)%N && (c <=? e)%N) with (in_range c (s, e)).
    destruct (in_range c (s, e)); simpl.
    + rewrite length_app. simpl length.
      destruct (Nat.ltb_spec 15 (length acc + 1)) as [Hfull|Hroom].
      * split.
        -- rewrite take_app_ge by lia.
           replace (16 - length acc) with 1 by lia. reflexivity.
        -- rewrite length_app. simpl. lia.
      * specialize (IH (acc ++ [i])). rewrite length_app in IH. simpl in IH.
        specialize (IH ltac:(lia)).
        destruct (scan_ranges rs i c (acc ++ [i])) as [found|acc'];
          rewrite <- app_assoc in IH; exact IH.
    + apply IH, Hacc.
Qed.

Lemma scan_text_spec (text : str) : forall i acc,
  length acc <= 15 ->
  scan_text ranges i text acc = take 16 (acc ++ leak_hits ranges i text).
Proof.
  induction text as [|c text IH]; intros i acc Hacc; simpl.
  - rewrite app_nil_r, take_ge by lia. reflexivity.
  - pose proof (scan_ranges_spec ranges i c acc Hacc) as Hr.
    destruct (scan_ranges ranges i c acc) as [found|acc'].
    + destruct Hr as [-> Hlen]. rewrite app_assoc.
      symmetry. apply take_app_le. exact Hlen.
    + destruct Hr as [-> Hlen]. rewrite IH by exact Hlen. now rewrite app_assoc.
Qed.

Lemma leak_hits_sorted (text : str) : forall i,
  Forall (le i) (leak_hits ranges i text)
  /\ StronglySorted le (leak_hits ranges i text).
Proof.
  induction text as [|c text IH]; intros i; simpl.
  - split; constructor.
  - destruct (IH (S i)) as [Hge Hs].
    assert (Hge' : Forall (le i) (leak_hits ranges (S i) text)).
    { eapply Forall_impl; [exact Hge|]. intros; simpl in *; lia. }
    induction (ranges_containing c ranges) as [|n IHn]; simpl.
    + split; assumption.
    + destruct IHn as [Hall Hsorted]. split.
      * constructor; [lia | exact Hall].
      * constructor; [exact Hsorted | exact Hall].
Qed.

Lemma StronglySorted_take {A} (R : A -> A -> Prop) (l : list A) (n : nat) :
  StronglySorted R l -> StronglySorted R (take n l).
Proof.
  intros H. revert n. induction H as [|x l Hl IH Hx]; intros [|n]; simpl;
    try constructor; auto.
  apply Forall_take, Hx.
Qed.

(** C8, as the code has it: the detector returns the positions of the
    characters of the disallowed ranges (a position once for each
    configured range containing its character), in non-decreasing order,
    and stops as soon as it holds 16 of them: it returns the first 16
    entries of the full scan, never more. *)
Theorem contains_hebrew_capped (text : str) :
  contains_hebrew ranges text = take 16 (leak_hits ranges 0 text)
  /\ length (contains_hebrew ranges text) <= 16
  /\ StronglySorted le (contains_hebrew ranges text).
Proof.
  assert (H : contains_hebrew ranges text = take 16 (leak_hits ranges 0 text)).
  { unfold contains_hebrew. rewrite scan_text_spec by (simpl; lia). reflexivity. }
  rewrite H. split; [reflexivity|]. split.
  - rewrite length_take. lia.
  - apply StronglySorted_take, leak_hits_sorted.
Qed.

End LeakDetector.

(** C8 as stated fails: on sixteen characters of the Hebrew block the
    detector returns sixteen positions, not at most fifteen.  And a
    character that two configured ranges contain is reported twice. *)
Lemma contains_hebrew_cap_counterexample :
  contains_hebrew hebrew_block sixteen_alephs = seq 0 16
  /\ ~ length (contains_hebrew hebrew_block sixteen_alephs) <= 15
  /\ contains_hebrew [(1424, 1535)%N; (1488, 1514)%N] [1488%N] = [0; 0].
Proof.
  split; [reflexivity|]. split; [vm_compute; lia | reflexivity].
Qed.

(** ** The repetition detector *)

Section RepetitionDetector.
Import Py.
Variable isalnum : N -> bool.
Variable lower : str -> str.

Lemma str_eqb_spec (a b : str) : reflect (a = b) (str_eqb a b).
Proof. unfold str_eqb. apply bool_decide_reflect. Qed.

Lemma counter_get_add (w x : str) (cs : list (str * nat)) :
  counter_get w (counter_add x cs)
  = counter_get w cs + (if str_eqb w x then 1 else 0).
Proof.
  induction cs as [|[w' n] cs IH]; simpl.
  - destruct (str_eqb w x); reflexivity.
  - destruct (str_eqb_spec x w') as [->|Hx]; simpl.
    + destruct (str_eqb_spec w w'); lia.
    + destruct (str_eqb_spec w w') as [->|Hw].
      * destruct (str_eqb_spec w' x); [congruence | lia].
      * exact IH.
Qed.

Lemma counter_add_keys (x : str) (cs : list (str * nat)) :
  List.NoDup (map fst cs) ->
  List.NoDup (map fst (counter_add x cs))
  /\ forall k, In k (map fst (counter_add x cs)) -> k = x \/ In k (map fst cs).
Proof.
  induction cs as [|[w' n] cs IH]; simpl; intros Hnd.
  - split; [constructor; [simpl; tauto | constructor] | intros k [<-|[]]; auto].
  - apply List.NoDup_cons_iff in Hnd as [Hin Hnd].
    destruct (str_eqb_spec x w') as [->|Hx]; simpl.
    + split; [constructor; auto | intros k [->|Hk]; auto].
    + destruct (IH Hnd) as [Hnd' Hkeys]. split.
      * constructor; [|exact Hnd']. intros Hin'.
        destruct (Hkeys _ Hin') as [->|Hk]; [congruence | exact (Hin Hk)].
      * intros k [->|Hk]; [auto|]. destruct (Hkeys _ Hk); auto.
Qed.

Lemma counter_add_positive (x : str) (cs : list (str * nat)) :
  Forall (fun p => 0 < snd p) cs -> Forall (fun p => 0 < snd p) (counter_add x cs).
Proof.
  induction 1 as [|[w' n] cs Hn Hcs IH]; simpl.
  - repeat constructor.
  - destruct (str_eqb x w'); constructor; simpl in *; auto; lia.
Qed.

(** What [Counter] holds: one entry per distinct word, with its number
    of occurrences. *)
Lemma counter_fold (ws : list str) : forall cs,
  List.NoDup (map fst cs) -> Forall (fun p => 0 < snd p) cs ->
  let cs' := fold_left (fun cs w => counter_add w cs) ws cs in
  List.NoDup (map fst cs') /\ Forall (fun p => 0 < snd p) cs'
  /\ forall w, counter_get w cs' = counter_get w cs + occurrences w ws.
Proof.
  induction ws as [|x ws IH]; intros cs Hnd Hpos; simpl.
  - repeat split; auto.
  - destruct (IH (counter_add x cs)) as (Hnd' & Hpos' & Hget).
    + apply counter_add_keys, Hnd.
    + apply counter_add_positive, Hpos.
    + repeat split; auto. intros w. rewrite Hget, counter_get_add. lia.
Qed.

Lemma counter_get_in (w : str) (n : nat) (cs : list (str * nat)) :
  List.NoDup (map fst cs) -> In (w, n) cs -> counter_get w cs = n.
Proof.
  induction cs as [|[w' n'] cs IH]; simpl; [tauto|]. intros Hnd Hin.
  apply List.NoDup_cons_iff in Hnd as [Hnin Hnd].
  destruct (str_eqb_spec w w') as [->|Hw].
  - destruct Hin as [[= <-]|Hin]; [reflexivity|].
    exfalso. apply Hnin. change w' with (fst (w', n)). now apply in_map.
  - destruct Hin as [[= -> _]|Hin]; [congruence | auto].
Qed.

Lemma counter_in_get (w : str) (cs : list (str * nat)) :
  0 < counter_get w cs -> In (w, counter_get w cs) cs.
Proof.
  induction cs as [|[w' n'] cs IH]; simpl; [lia|].
  destruct (str_eqb_spec w w') as [->|Hw]; auto.
Qed.

Lemma in_filter_keys (thr : nat) (cs : list (str * nat)) (w : str) :
  In w (map fst (filter (fun wc => thr <=? snd wc) cs))
  <-> exists n, In (w, n) cs /\ thr <= n.
Proof.
  rewrite <- list_elem_of_In. change (map fst) with (fmap (M:=list) (@fst str nat)).
  rewrite list_elem_of_fmap. split.
  - intros ([w' n] & -> & Hin). apply list_elem_of_filter in Hin as [Hn Hin].
    exists n. split; [now apply list_elem_of_In|].
    simpl in Hn. apply Is_true_true, Nat.leb_le in Hn. exact Hn.
  - intros (n & Hin & Hn). exists (w, n). split; [reflexivity|].
    apply list_elem_of_filter. split; [|now apply list_elem_of_In].
    simpl. now apply Is_true_true, Nat.leb_le.
Qed.

Lemma nodup_filter_keys (thr : nat) (cs : list (str * nat)) :
  List.NoDup (map fst cs) ->
  List.NoDup (map fst (filter (fun wc => thr <=? snd wc) cs)).
Proof.
  induction cs as [|[w n] cs IH]; simpl; intros Hnd; [constructor|].
  apply List.NoDup_cons_iff in Hnd as [Hnin Hnd]. rewrite filter_cons.
  destruct (decide _); [|auto]. simpl. constructor; [|auto].
  intros Hin. apply in_filter_keys in Hin as (n' & Hin & _).
  apply Hnin. change w with (fst (w, n')). now apply in_map.
Qed.

(** The words [repeated_words] lists are exactly those that reach the
    threshold, each once. *)
Lemma repeated_words_spec (ws : list str) (asian : bool) :
  List.NoDup (repeated_words ws asian)
  /\ forall w, In w (repeated_words ws asian)
               <-> (if asian then 35 else 20) <= occurrences w ws.
Proof.
  unfold repeated_words, Counter.
  destruct (counter_fold ws [] (List.NoDup_nil _) (Forall_nil_2 _)) as (Hnd & Hpos & Hget).
  simpl in Hget.
  set (cs := fold_left (fun cs w => counter_add w cs) ws []) in *.
  set (thr := if asian then 35 else 20).
  assert (Hthr : 0 < thr) by (subst thr; destruct asian; lia).
  split; [now apply nodup_filter_keys|].
  intros w. rewrite in_filter_keys, <- Hget. split.
  - intros (n & Hin & Hn). now rewrite (counter_get_in _ _ _ Hnd Hin).
  - intros Hle. exists (counter_get w cs). split; [|exact Hle].
    apply counter_in_get. lia.
Qed.

Lemma three_distinct {A} (l : list A) :
  List.NoDup l ->
  2 < length l <->
  exists a b c, a <> b /\ a <> c /\ b <> c /\ In a l /\ In b l /\ In c l.
Proof.
  intros Hnd. split.
  - destruct l as [|a [|b [|c l]]]; simpl; try lia. intros _.
    apply List.NoDup_cons_iff in Hnd as [Ha Hnd].
    apply List.NoDup_cons_iff in Hnd as [Hb _]. simpl in *.
    exists a, b, c. repeat split; auto; intros ->; tauto.
  - intros (a & b & c & Hab & Hac & Hbc & Ha & Hb & Hc).
    destruct l as [|x [|y [|z l]]]; simpl in *; try lia; intuition congruence.
Qed.

Lemma repeated_words_looping (ws : list str) (asian : bool) :
  2 < length (repeated_words ws asian) <-> looping (if asian then 35 else 20) ws.
Proof.
  destruct (repeated_words_spec ws asian) as [Hnd Hin].
  rewrite (three_distinct _ Hnd). unfold looping.
  split; intros (a & b & c & H); exists a, b, c; rewrite ?Hin in *; tauto.
Qed.

Lemma scan_windows_spec (starts : list nat) (words : list str) (asian : bool) (size : nat) :
  scan_windows starts words asian size <> []
  <-> exists i, In i starts
                /\ 2 < length (repeated_words (take size (drop i words)) asian).
Proof.
  induction starts as [|i starts IH]; simpl.
  - split; [congruence | intros (i & [] & _)].
  - destruct (Nat.ltb_spec 2 (length (repeated_words (take size (drop i words)) asian)))
      as [Hlt|Hge].
    + split.
      * intros _. exists i. auto.
      * intros _ Hnil. rewrite Hnil in Hlt. simpl in Hlt. lia.
    + rewrite IH. split.
      * intros (j & Hj & Hlen). exists j. auto.
      * intros (j & [<-|Hj] & Hlen); [lia | exists j; auto].
Qed.

Lemma range_100 (stop i : nat) :
  In i (range stop 100) <-> exists k, i = 100 * k /\ 100 * k < stop.
Proof.
  unfold range. rewrite in_map_iff. split.
  - intros (k & <- & Hk). apply in_seq in Hk. exists k. split; [lia|].
    assert (k < (stop + 100 - 1) / 100) by lia.
    pose proof (Nat.div_mod (stop + 100 - 1) 100 ltac:(lia)).
    pose proof (Nat.mod_upper_bound (stop + 100 - 1) 100 ltac:(lia)). nia.
  - intros (k & -> & Hk). exists k. split; [lia|]. apply in_seq. split; [lia|].
    rewrite Nat.add_0_l. unfold lt. apply Nat.div_le_lower_bound; lia.
Qed.

(** C5, as the code has it: the detector flags a text exactly when one of
    the windows it examines (200 consecutive words starting at a multiple
    of 100) holds more than two distinct words that each occur at least
    20 times (35 for a script without word boundaries).  One word
    repeated 25 times, alone above the threshold, is not flagged. *)
Theorem abnormal_repetitions_flags (text : str) (asian : bool) :
  abnormal_repetitions isalnum lower text asian <> []
  <-> exists k,
        100 * k + 200 <= length (words_of isalnum lower text asian)
        /\ looping (if asian then 35 else 20)
                   (window k (words_of isalnum lower text asian)).
Proof.
  unfold abnormal_repetitions. rewrite scan_windows_spec.
  change (200 / 2) with 100. unfold window. split.
  - intros (i & Hi & Hlen). apply range_100 in Hi as (k & -> & Hk).
    exists k. split; [lia|]. now apply repeated_words_looping.
  - intros (k & Hk & Hloop). exists (100 * k). split.
    + apply range_100. exists k. split; [reflexivity | lia].
    + now apply repeated_words_looping.
Qed.

End RepetitionDetector.

(** C5 as stated fails: in this text of 200 words one word occurs 25
    times, and the detector returns the empty list. *)
Lemma abnormal_repetitions_counterexample :
  let words := words_of ascii_isalnum ascii_lower (one_word_repeated 25) false in
  length words = 200
  /\ occurrences (py "spam") words = 25
  /\ abnormal_repetitions ascii_isalnum ascii_lower (one_word_repeated 25) false = []
  /\ abnormal_repetitions ascii_isalnum ascii_lower (one_word_repeated 10) false = [].
Proof.
  vm_compute. repeat split; reflexivity.
Qed.

(** ** The validator *)

Section Validator.
Import Py Re.

Lemma validate_loop_cons (os ts : list token) (content : str) (start : nat)
    (o t : token) (pairs : list (token * token)) (i : nat) (leftover : str) :
  validate_loop os ts content start ((o, t) :: pairs) i leftover =
  let at_last := (i =? length ts - 1) && negb (is_html_tag t) in
  let leftover' := leftover_at ts content leftover i t in
  if at_last && negb (length ts =? 1) && startswith (lstrip leftover') [LT]
  then validate_loop os ts content start pairs (S i) leftover'
  else if tokens_differ o t
  then inl (structure_mismatch os ts content start i leftover' o t)
  else validate_loop os ts content start pairs (S i) leftover'.
Proof. reflexivity. Qed.

(** A raise of the loop is the mismatch raise at some index [j], on the
    [j]-th pair, with the variable [leftover] as it stands there. *)
Lemma validate_loop_raises (os ts : list token) (content : str) (start : nat) :
  forall pairs i leftover e,
  i + length pairs <= length ts ->
  validate_loop os ts content start pairs i leftover = inl e ->
  exists j o t,
    pairs !! (j - i) = Some (o, t) /\ i <= j /\ tokens_differ o t = true
    /\ e = structure_mismatch os ts content start j
             (leftover_at ts content leftover j t) o t.
Proof.
  induction pairs as [|[o t] pairs IH]; intros i leftover e Hlen Hrun.
  - discriminate.
  - rewrite validate_loop_cons in Hrun. cbv zeta in Hrun. simpl in Hlen.
    assert (Hrec : forall lo',
      lo' = leftover_at ts content leftover i t ->
      validate_loop os ts content start pairs (S i) lo' = inl e ->
      exists j o0 t0,
        ((o, t) :: pairs) !! (j - i) = Some (o0, t0) /\ i <= j
        /\ tokens_differ o0 t0 = true
        /\ e = structure_mismatch os ts content start j
                 (leftover_at ts content leftover j t0) o0 t0).
    { intros lo' Hlo Hrun'. unfold leftover_at in Hlo.
      destruct ((i =? length ts - 1) && negb (is_html_tag t)) eqn:Hlast.
      - apply andb_true_iff in Hlast as [Hi _]. apply Nat.eqb_eq in Hi.
        destruct pairs; [discriminate | simpl in Hlen; lia].
      - subst lo'. destruct (IH (S i) leftover e ltac:(lia) Hrun')
          as (j & o0 & t0 & Hj & Hij & Hd & He).
        exists j, o0, t0. repeat split; auto; [|lia].
        replace (j - i) with (S (j - S i)) by lia. exact Hj. }
    destruct ((i =? length ts - 1) && negb (is_html_tag t) && negb (length ts =? 1)
              && startswith (lstrip (leftover_at ts content leftover i t)) [LT]).
    + now apply (Hrec _ eq_refl).
    + destruct (tokens_differ o t) eqn:Hd.
      * injection Hrun as <-. exists i, o, t. rewrite Nat.sub_diag.
        repeat split; auto.
      * now apply (Hrec _ eq_refl).
Qed.

Lemma zip_lookup_some {A B} (l : list A) (k : list B) (j : nat) (a : A) (b : B) :
  zip l k !! j = Some (a, b) -> l !! j = Some a /\ k !! j = Some b.
Proof.
  revert k j. induction l as [|x l IH]; intros [|y k] [|j]; simpl; try discriminate.
  - intros [= -> ->]. auto.
  - apply IH.
Qed.

Lemma zip_length_le {A B} (l : list A) (k : list B) : length (zip l k) <= length k.
Proof.
  revert k. induction l as [|x l IH]; intros [|y k]; simpl; try lia.
  specialize (IH k). lia.
Qed.

(** Every mismatch [validate_html_structure] raises comes from one index
    [j] of the comparison. *)
Lemma validate_raises (os : list token) (content : str) (start : nat)
    (leftover : str) (e : exn) :
  validate_html_structure os content start leftover = inl e ->
  e = IndexError \/ e = UnboundLocalError
  \/ exists j o t,
       let ts := extract_html_structure (leftover ++ content) in
       os !! (start + j) = Some o /\ ts !! j = Some t
       /\ tokens_differ o t = true
       /\ e = structure_mismatch os ts content start j
                (leftover_at ts content leftover j t) o t.
Proof.
  unfold validate_html_structure.
  set (ts := extract_html_structure (leftover ++ content)).
  set (pairs := zip (drop start os) ts).
  destruct (validate_loop os ts content start pairs 0 leftover) as [e'|lo] eqn:Hloop.
  - intros [= <-]. right. right.
    destruct (validate_loop_raises os ts content start pairs 0 leftover e')
      as (j & o & t & Hj & _ & Hd & He); [|exact Hloop|].
    + simpl. apply zip_length_le.
    + rewrite Nat.sub_0_r in Hj. apply zip_lookup_some in Hj as [Ho Ht].
      rewrite lookup_drop in Ho. exists j, o, t. auto.
  - destruct (last ts); [|intros [= <-]; auto].
    destruct pairs; [intros [= <-]; auto | discriminate].
Qed.

Lemma structure_mismatch_info (os ts : list token) (content : str)
    (start j : nat) (lo : str) (o t : token) (msg : str) (info : mismatch_info) :
  structure_mismatch os ts content start j lo o t = ValueError msg (Some info) ->
  content <> [] /\ msg = py "Structure Mismatch"
  /\ ratio info = capped_ratio (consumed_upto ts j) (length lo) (length content)
  /\ orig info = o /\ trans info = t
  /\ original_context info
     = concat (map contribution
         (take (start + j + 1 - max start (start + j - 4))
            (drop (max start (start + j - 4)) os)))
  /\ translated_context info
     = concat (map contribution (take (j + 1 - (j - 4)) (drop (j - 4) ts))).
Proof.
  unfold structure_mismatch. destruct (length content) eqn:Hlen; [discriminate|].
  intros [= <- <-]. simpl. repeat split; try reflexivity.
  intros ->. discriminate.
Qed.

Lemma qmin1_le (x : Q) : (qmin1 x <= 1)%Q.
Proof.
  unfold qmin1. destruct (Qle_bool 1 x) eqn:Hx; [apply Qle_refl|].
  apply Qlt_le_weak, Qnot_le_lt. intros H. apply Qle_bool_iff in H. congruence.
Qed.

(** The scenario of the design document: the increment
    [<div>Bonjour<span>Monde</div>] against the skeleton of
    [<div>Hello<br>World</div>] mismatches at the third token, after 18
    of its 29 characters. *)
Example mismatch_scenario :
  exists info,
    validate_html_structure small_skeleton (py "<div>Bonjour<span>Monde</div>") 0 []
      = inl (ValueError (py "Structure Mismatch") (Some info))
    /\ element (orig info) = py "<br>" /\ element (trans info) = py "<span>"
    /\ (ratio info == (18 # 29) + (5 # 100))%Q.
Proof.
  eexists. split; [vm_compute; reflexivity|]. repeat split.
Qed.

(** C4, as the code has it: the ratio of a raised mismatch is the consumed
    fraction plus 0.05, capped at 1 after the addition, so it never
    exceeds 1.  The leftover subtracted is the variable [leftover] at the
    raise: the carried leftover whenever the mismatching token is a tag
    or is not the final token. *)
Theorem mismatch_ratio_capped (os : list token) (content : str) (start : nat)
    (leftover msg : str) (info : mismatch_info) :
  validate_html_structure os content start leftover
    = inl (ValueError msg (Some info)) ->
  let ts := extract_html_structure (leftover ++ content) in
  exists j,
    ts !! j = Some (trans info) /\ os !! (start + j) = Some (orig info)
    /\ ratio info
       = capped_ratio (consumed_upto ts j)
           (length (leftover_at ts content leftover j (trans info)))
           (length content)
    /\ (ratio info <= 1)%Q
    /\ (is_html_tag (trans info) = true \/ j + 1 < length ts ->
        leftover_at ts content leftover j (trans info) = leftover).
Proof.
  intros Hv ts. apply validate_raises in Hv as [Hv|[Hv|(j & o & t & Ho & Ht & _ & He)]];
    try discriminate.
  symmetry in He. apply structure_mismatch_info in He as (_ & _ & Hr & <- & <- & _).
  exists j. fold ts in Ht, Hr. repeat split; auto.
  - rewrite Hr. apply qmin1_le.
  - intros H. unfold leftover_at.
    destruct (Nat.eqb_spec j (length ts - 1)) as [Hj|]; [|reflexivity].
    destruct H as [->|H]; [reflexivity | lia].
Qed.

Lemma mismatch_ratio_capped_witness :
  exists info,
    validate_html_structure small_skeleton (py "<div>Bonjour<span>Monde</div>") 0 []
      = inl (ValueError (py "Structure Mismatch") (Some info))
    /\ (ratio info <= 1)%Q.
Proof.
  eexists. split; [vm_compute; reflexivity|].
  match goal with
  | |- (ratio ?i <= 1)%Q =>
      destruct (mismatch_ratio_capped small_skeleton
                  (py "<div>Bonjour<span>Monde</div>") 0 []
                  (py "Structure Mismatch") i)
        as (j & _ & _ & _ & Hle & _); [vm_compute; reflexivity | exact Hle]
  end.
Defined.

(** C4 as stated fails: on a mismatch at the only token of the increment
    the code's ratio is 1, where adding 0.05 after the cap gives 1.05.
    And when the mismatching token is the final one and not a tag, the
    leftover subtracted is the reassigned one: for the bare text
    [Bonjour] the ratio is 0.05, not the value the carried (empty)
    leftover would give. *)
Lemma mismatch_ratio_counterexample :
  (exists info,
     validate_html_structure small_skeleton (py "<b>") 0 []
       = inl (ValueError (py "Structure Mismatch") (Some info))
     /\ ratio info = 1%Q
     /\ ~ (ratio info == claimed_ratio 3 0 3)%Q)
  /\ (exists info,
        validate_html_structure small_skeleton (py "Bonjour") 0 []
          = inl (ValueError (py "Structure Mismatch") (Some info))
        /\ (ratio info == 5 # 100)%Q
        /\ ~ (ratio info == claimed_ratio 7 0 7)%Q
        /\ ~ (ratio info == capped_ratio 7 0 7)%Q).
Proof.
  split.
  - eexists. split; [vm_compute; reflexivity|]. split; [reflexivity|].
    vm_compute. discriminate.
  - eexists. split; [vm_compute; reflexivity|]. split; [reflexivity|].
    split; vm_compute; discriminate.
Qed.

Lemma window_before_last (l : list token) (pos before : nat) (x : token) :
  l !! pos = Some x -> before <= pos ->
  length (window_before l pos before) = before + 1
  /\ last (window_before l pos before) = Some x.
Proof.
  intros Hx Hb. unfold window_before.
  pose proof (lookup_lt_Some _ _ _ Hx) as Hlt.
  assert (Hlen : length (take (before + 1) (drop (pos - before) l)) = before + 1).
  { rewrite length_take, length_drop. lia. }
  split; [exact Hlen|].
  rewrite last_lookup, Hlen.
  replace (Nat.pred (before + 1)) with before by lia.
  rewrite lookup_take_lt by lia. rewrite lookup_drop.
  replace (pos - before + before) with pos by lia. exact Hx.
Qed.

Lemma contribution_length (t : token) :
  length (contribution t) <= 103
  /\ (length (element t) <= 100 -> contribution t = element t).
Proof.
  unfold contribution, truncate_str.
  destruct (Nat.ltb_spec (50 * 2) (length (element t))) as [Hlong|Hshort].
  - split; [|lia]. rewrite !length_app. unfold last_chars.
    rewrite length_take, length_drop. change (length (py "...")) with 3. lia.
  - split; [lia | reflexivity].
Qed.

(** C9, as the code has it: each context window of a raised mismatch is
    the mismatching token with the (at most four) tokens before it, from
    the start position on; a token enters the window whole when it has at
    most 100 characters, and otherwise as its first 50 and last 50
    characters around an ellipsis, so it contributes up to 103
    characters. *)
Theorem mismatch_context_windows (os : list token) (content : str) (start : nat)
    (leftover msg : str) (info : mismatch_info) :
  validate_html_structure os content start leftover
    = inl (ValueError msg (Some info)) ->
  let ts := extract_html_structure (leftover ++ content) in
  exists j,
    original_context info
      = concat (map contribution (window_before os (start + j) (min j 4)))
    /\ translated_context info
      = concat (map contribution (window_before ts j (min j 4)))
    /\ length (window_before os (start + j) (min j 4)) <= 5
    /\ length (window_before ts j (min j 4)) <= 5
    /\ last (window_before os (start + j) (min j 4)) = Some (orig info)
    /\ last (window_before ts j (min j 4)) = Some (trans info)
    /\ forall t, length (contribution t) <= 103
                 /\ (length (element t) <= 100 -> contribution t = element t).
Proof.
  intros Hv ts. apply validate_raises in Hv as [Hv|[Hv|(j & o & t & Ho & Ht & _ & He)]];
    try discriminate.
  symmetry in He.
  apply structure_mismatch_info in He as (_ & _ & _ & <- & <- & Hoc & Htc).
  fold ts in Ht, Htc.
  destruct (window_before_last os (start + j) (min j 4) _ Ho ltac:(lia)) as [Hlo Hxo].
  destruct (window_before_last ts j (min j 4) _ Ht ltac:(lia)) as [Hlt Hxt].
  exists j. repeat split; try assumption; try lia; try apply contribution_length.
  - rewrite Hoc. unfold window_before.
    replace (max start (start + j - 4)) with (start + j - min j 4) by lia.
    replace (start + j + 1 - (start + j - min j 4)) with (min j 4 + 1) by lia.
    reflexivity.
  - rewrite Htc. unfold window_before.
    replace (j - 4) with (j - min j 4) by lia.
    replace (j + 1 - (j - min j 4)) with (min j 4 + 1) by lia.
    reflexivity.
Qed.

Lemma mismatch_context_windows_witness :
  exists info,
    validate_html_structure small_skeleton (py "<div>Bonjour<span>Monde</div>") 0 []
      = inl (ValueError (py "Structure Mismatch") (Some info))
    /\ exists j,
         original_context info
         = concat (map contribution (window_before small_skeleton (0 + j) (min j 4))).
Proof.
  eexists. split; [vm_compute; reflexivity|].
  match goal with
  | |- exists j, original_context ?i = _ =>
      destruct (mismatch_context_windows small_skeleton
                  (py "<div>Bonjour<span>Monde</div>") 0 []
                  (py "Structure Mismatch") i)
        as (j & Hj & _); [vm_compute; reflexivity | exists j; exact Hj]
  end.
Defined.

(** C9 as stated fails: a single token of 120 characters contributes 103
    characters to the window, not at most 50. *)
Lemma mismatch_context_counterexample :
  exists info,
    validate_html_structure long_text_skeleton (py "<b>") 0 []
      = inl (ValueError (py "Structure Mismatch") (Some info))
    /\ length (window_before long_text_skeleton 0 0) = 1
    /\ length (original_context info) = 103
    /\ ~ length (original_context info) <= 50.
Proof.
  eexists. split; [vm_compute; reflexivity|].
  split; [reflexivity|]. split; [reflexivity|]. vm_compute. lia.
Qed.

Lemma blank_no_lt (s : str) : blank s = true -> text_run s = s.
Proof.
  induction s as [|c s IH]; simpl; [reflexivity|].
  rewrite andb_true_iff. intros [Hc Hs].
  destruct (N.eqb_spec c LT) as [->|]; [discriminate|]. now rewrite IH.
Qed.

(** An empty or whitespace-only text has no token. *)
Lemma blank_extract (s : str) : blank s = true -> extract_html_structure s = [].
Proof.
  intros Hb. apply (map_eq_nil element). rewrite extract_elements.
  destruct s as [|c r]; [reflexivity|].
  assert (Hc : N.eqb c LT = false).
  { simpl in Hb. apply andb_true_iff in Hb as [Hc _].
    destruct (N.eqb_spec c LT) as [->|]; [discriminate | reflexivity]. }
  rewrite (match_texts_text _ _ Hc), (blank_no_lt _ Hb), drop_all.
  rewrite filter_cons, Hb. reflexivity.
Qed.

(** C10, as the code has it: when leftover plus increment has a token, the
    start position is inside the skeleton and the increment is not empty,
    the call returns a pair or raises the structure mismatch; an empty or
    whitespace-only concatenation fails with [IndexError]; a start
    position at or past the end of the skeleton, with a token in the
    concatenation, fails with [UnboundLocalError]. *)
Theorem validate_html_structure_outcomes (os : list token) (content : str)
    (start : nat) (leftover : str) :
  (extract_html_structure (leftover ++ content) <> [] ->
   start < length os -> content <> [] ->
   (exists p l, validate_html_structure os content start leftover = inr (p, l))
   \/ (exists info, validate_html_structure os content start leftover
                     = inl (ValueError (py "Structure Mismatch") (Some info))))
  /\ (blank (leftover ++ content) = true ->
      validate_html_structure os content start leftover = inl IndexError)
  /\ (length os <= start -> extract_html_structure (leftover ++ content) <> [] ->
      validate_html_structure os content start leftover = inl UnboundLocalError).
Proof.
  split; [|split].
  - intros Hts Hstart Hcontent.
    destruct (validate_html_structure os content start leftover) as [e|[p l]] eqn:Hv;
      [|left; eauto]. right.
    pose proof Hv as Hv'.
    apply validate_raises in Hv' as [->|[->|(j & o & t & _ & _ & _ & He)]].
    + exfalso. revert Hv. unfold validate_html_structure.
      destruct (validate_loop _ _ _ _ _ _ _) as [e|lo] eqn:Hloop.
      * intros [= ->].
        apply validate_loop_raises in Hloop as (j & o & t & _ & _ & _ & He);
          [|simpl; apply zip_length_le].
        unfold structure_mismatch in He. destruct (length content); discriminate.
      * destruct (last (extract_html_structure (leftover ++ content))) eqn:Hlast.
        -- destruct (zip _ _); discriminate.
        -- apply last_None in Hlast. contradiction.
    + exfalso. revert Hv. unfold validate_html_structure.
      destruct (validate_loop _ _ _ _ _ _ _) as [e|lo] eqn:Hloop.
      * intros [= ->].
        apply validate_loop_raises in Hloop as (j & o & t & _ & _ & _ & He);
          [|simpl; apply zip_length_le].
        unfold structure_mismatch in He. destruct (length content); discriminate.
      * destruct (last (extract_html_structure (leftover ++ content))); [|discriminate].
        destruct (zip (drop start os) (extract_html_structure (leftover ++ content)))
          eqn:Hzip; [|discriminate].
        destruct (drop start os) eqn:Hdrop.
        -- apply (f_equal length) in Hdrop. rewrite length_drop in Hdrop.
           simpl in Hdrop. lia.
        -- destruct (extract_html_structure (leftover ++ content));
             [contradiction | discriminate].
    + unfold structure_mismatch in He.
      destruct (length content) eqn:Hlen.
      * destruct content; [contradiction | discriminate].
      * rewrite He. eauto.
  - intros Hb. unfold validate_html_structure.
    rewrite (blank_extract _ Hb), zip_with_nil_r. reflexivity.
  - intros Hstart Hts. unfold validate_html_structure.
    rewrite drop_ge by exact Hstart. simpl.
    destruct (last (extract_html_structure (leftover ++ content))) eqn:Hlast;
      [reflexivity|].
    apply last_None in Hlast. contradiction.
Qed.

Lemma validate_html_structure_outcomes_witness :
  (exists p l,
      validate_html_structure small_skeleton (py "<div>Bonjour<br>Mon") 0 []
      = inr (p, l))
  /\ validate_html_structure small_skeleton (py "  ") 0 [] = inl IndexError
  /\ validate_html_structure small_skeleton (py "x") 5 [] = inl UnboundLocalError.
Proof.
  split; [|split].
  - assert (H1 : extract_html_structure ([] ++ py "<div>Bonjour<br>Mon") <> [])
      by (vm_compute; discriminate).
    assert (H2 : 0 < length small_skeleton) by (vm_compute; lia).
    assert (H3 : py "<div>Bonjour<br>Mon" <> []) by discriminate.
    destruct (proj1 (validate_html_structure_outcomes small_skeleton
                       (py "<div>Bonjour<br>Mon") 0 []) H1 H2 H3) as [H|[info H]];
      [exact H | vm_compute in H; discriminate].
  - apply (proj1 (proj2 (validate_html_structure_outcomes small_skeleton (py "  ") 0 []))).
    reflexivity.
  - apply (proj2 (proj2 (validate_html_structure_outcomes small_skeleton (py "x") 5 [])));
      [vm_compute; lia | vm_compute; discriminate].
Defined.

(** C10 as stated fails: with a token in the concatenation and the start
    position inside the skeleton, an empty increment whose leftover
    mismatches makes the ratio divide by zero.  And past the end of the
    skeleton a non-empty increment of whitespace fails with the index
    error, not with the unbound variable. *)
Lemma validate_html_structure_counterexample :
  (extract_html_structure (py "<b>" ++ []) <> []
   /\ 0 < length small_skeleton
   /\ validate_html_structure small_skeleton [] 0 (py "<b>") = inl ZeroDivisionError)
  /\ (length small_skeleton <= 5 /\ py " " <> []
      /\ validate_html_structure small_skeleton (py " ") 5 [] = inl IndexError).
Proof.
  split.
  - split; [vm_compute; discriminate|]. split; [vm_compute; lia | reflexivity].
  - split; [vm_compute; lia|]. split; [discriminate | reflexivity].
Qed.

End Validator.

(** ** The chunk adjuster *)

Section ChunkAdjuster.
Import Py Re.
Variable separators : list str.

Lemma slice_to_from {A} (s : list A) (k : Z) : slice_to s k ++ slice_from s k = s.
Proof. unfold slice_to, slice_from. apply take_drop. Qed.

Lemma conserved_refl (c : list chunk) : conserved c c.
Proof. split; reflexivity. Qed.

Lemma conserved_trans (a b c : list chunk) : conserved a b -> conserved b c -> conserved a c.
Proof. intros [H1 H2] [H3 H4]. split; congruence. Qed.

Lemma conserved_length (a b : list chunk) : conserved a b -> length b = length a.
Proof. intros [H _]. apply (f_equal length) in H. now rewrite !length_map in H. Qed.

Lemma text_at_set_ne (chunks : list chunk) (p q : nat) (v : str) :
  p <> q -> text_at (set_text chunks p v) q = text_at chunks q.
Proof. intros H. unfold text_at, set_text. now rewrite list_lookup_alter_ne. Qed.

(** Rewriting two neighbouring cells so that their concatenation is kept
    conserves the list, in whichever order the cells are assigned. *)
Lemma set_two (chunks : list chunk) : forall p (a' b' : str),
  S p < length chunks ->
  a' ++ b' = text_at chunks p ++ text_at chunks (S p) ->
  conserved chunks (set_text (set_text chunks p a') (S p) b')
  /\ conserved chunks (set_text (set_text chunks (S p) b') p a').
Proof.
  induction chunks as [|x chunks IH]; intros p a' b' Hp Heq; [simpl in Hp; lia|].
  destruct p as [|p].
  - destruct chunks as [|y chunks]; [simpl in Hp; lia|].
    unfold text_at in Heq. simpl in Heq.
    split; (split; [reflexivity|]); unfold chunk_texts; simpl;
      rewrite !app_assoc, Heq; reflexivity.
  - assert (Hrest : a' ++ b' = text_at chunks p ++ text_at chunks (S p)) by exact Heq.
    simpl in Hp. destruct (IH p a' b' ltac:(lia) Hrest) as [[F1 C1] [F2 C2]].
    unfold conserved, chunk_texts, set_text in *. simpl.
    split; (split; [f_equal; assumption | f_equal; assumption]).
Qed.

Lemma move_forward (chunks : list chunk) (p : nat) (k : Z) :
  S p < length chunks ->
  conserved chunks
    (set_text (set_text chunks p (text_at chunks p ++ slice_to (text_at chunks (S p)) k))
       (S p)
       (slice_from
          (text_at (set_text chunks p
                      (text_at chunks p ++ slice_to (text_at chunks (S p)) k)) (S p)) k)).
Proof.
  intros Hp. rewrite text_at_set_ne by lia. apply set_two; [exact Hp|].
  now rewrite <- app_assoc, slice_to_from.
Qed.

Lemma move_backward (chunks : list chunk) (p : nat) (k : Z) :
  S p < length chunks ->
  conserved chunks
    (set_text (set_text chunks (S p) (slice_from (text_at chunks p) k ++ text_at chunks (S p)))
       p
       (slice_to
          (text_at (set_text chunks (S p)
                      (slice_from (text_at chunks p) k ++ text_at chunks (S p))) p) k)).
Proof.
  intros Hp. rewrite text_at_set_ne by lia. apply set_two; [exact Hp|].
  now rewrite app_assoc, slice_to_from.
Qed.

Lemma try_separators_conserved (seps : list str) (chunks : list chunk) (p : nat) :
  S p < length chunks -> conserved chunks (try_separators seps p (S p) chunks).
Proof.
  intros Hp. induction seps as [|separator seps IH]; simpl.
  - apply conserved_refl.
  - destruct (_ && _)%bool; [apply move_forward, Hp|].
    destruct (negb _); [apply move_backward, Hp | exact IH].
Qed.

Lemma pull_tags_conserved (items : list token) (p : nat) : forall chunks,
  S p < length chunks -> conserved chunks (pull_tags items p (S p) chunks).
Proof.
  induction items as [|item items IH]; intros chunks Hp; simpl.
  - apply conserved_refl.
  - destruct (is_html_tag item); [|apply conserved_refl].
    eapply conserved_trans; [apply (move_forward chunks p), Hp|].
    apply IH. erewrite conserved_length; [exact Hp | apply move_forward, Hp].
Qed.

Lemma adjust_loop_conserved (positions : list nat) : forall chunks,
  map fst chunks = seq 0 (length chunks) ->
  Forall (fun p => S p < length chunks) positions ->
  exists adjusted,
    adjust_loop separators positions chunks = inr adjusted
    /\ conserved chunks adjusted.
Proof.
  induction positions as [|p positions IH]; intros chunks Hidx Hpos; simpl.
  - eexists. split; [reflexivity | apply conserved_refl].
  - apply Forall_cons in Hpos as [Hp Hpos].
    destruct (chunks !! p) as [c|] eqn:Hc;
      [|apply lookup_ge_None in Hc; lia].
    assert (Hfst : fst c = p).
    { apply (f_equal (fmap fst)) in Hc. simpl in Hc.
      rewrite <- list_lookup_fmap in Hc. change (fmap fst chunks) with (map fst chunks) in Hc.
      rewrite Hidx, lookup_seq_lt in Hc by lia. now injection Hc. }
    rewrite Hfst. replace (p + 1) with (S p) by lia.
    destruct (Nat.ltb_spec (S p) (length chunks)) as [_|]; [|lia].
    set (c1 := try_separators separators p (S p) chunks).
    assert (H1 : conserved chunks c1) by (apply try_separators_conserved, Hp).
    set (c2 := pull_tags (extract_html_structure (text_at c1 (S p))) p (S p) c1).
    assert (H2 : conserved c1 c2).
    { apply pull_tags_conserved. now rewrite (conserved_length _ _ H1). }
    pose proof (conserved_trans _ _ _ H1 H2) as H12.
    pose proof (conserved_length _ _ H12) as Hlen.
    destruct (IH c2) as (adjusted & Hrun & Hcons).
    + destruct H12 as [-> _]. now rewrite Hlen.
    + now rewrite Hlen.
    + exists adjusted. split; [exact Hrun | eapply conserved_trans; eassumption].
Qed.

Lemma even_split_concat (size : nat) : forall n (s : str),
  length s <= n * size ->
  concat (map (fun i => take size (drop (i * size) s)) (seq 0 n)) = s.
Proof.
  induction n as [|n IH]; intros s Hlen.
  - destruct s; [reflexivity | simpl in Hlen; lia].
  - rewrite <- cons_seq, <- seq_shift, map_cons, map_map, concat_cons.
    change (drop (0 * size) s) with s.
    transitivity (take size s ++ drop size s); [|apply take_drop]. f_equal.
    rewrite <- (IH (drop size s)) at 1 by (rewrite length_drop; lia).
    f_equal. apply map_ext. intros i. now rewrite drop_drop.
Qed.

(** C3: for every body and every positive chunk size, the even split
    covers the body exactly, [adjust_chunks] returns on it, and the
    adjusted chunks, still indexed in order, concatenate to the same
    body: moving a prefix of the next chunk back or a suffix of the
    current chunk forward, and pulling leading tags back, conserve the
    text. *)
Theorem chunk_conservation (chunk_max_size : nat) (body : str) :
  0 < chunk_max_size ->
  exists initial adjusted,
    split_chunks chunk_max_size body = inr initial
    /\ concat (chunk_texts initial) = body
    /\ adjust_chunks separators initial = inr adjusted
    /\ concat (chunk_texts adjusted) = body
    /\ map fst adjusted = seq 0 (length initial).
Proof.
  intros Hsize. unfold split_chunks.
  destruct chunk_max_size as [|m]; [lia|].
  set (n := length body / S m + 1).
  set (size := length body / n + 1).
  set (initial := map (fun i => (i, take size (drop (i * size) body))) (seq 0 n)).
  assert (Hidx : map fst initial = seq 0 (length initial)).
  { unfold initial. rewrite map_map, length_map, length_seq. simpl. apply map_id. }
  assert (Hconcat : concat (chunk_texts initial) = body).
  { unfold chunk_texts, initial. rewrite map_map. simpl.
    apply even_split_concat. unfold size.
    pose proof (Nat.div_mod (length body) n ltac:(unfold n; lia)).
    pose proof (Nat.mod_upper_bound (length body) n ltac:(unfold n; lia)). nia. }
  destruct (adjust_loop_conserved (seq 0 (length initial - 1)) initial Hidx)
    as (adjusted & Hrun & Hfst & Hcons).
  - apply Forall_forall. intros p Hp. apply list_elem_of_In, in_seq in Hp. lia.
  - exists initial, adjusted. repeat split; auto; congruence.
Qed.

End ChunkAdjuster.

Lemma chunk_conservation_witness :
  0 < 40
  /\ exists initial adjusted,
       split_chunks 40 example_body = inr initial
       /\ concat (chunk_texts initial) = example_body
       /\ adjust_chunks example_separators initial = inr adjusted
       /\ concat (chunk_texts adjusted) = example_body
       /\ map fst adjusted = seq 0 (length initial).
Proof.
  split; [lia|]. apply (chunk_conservation example_separators 40 example_body). lia.
Defined.

(** ** The chunk state machine *)

Section Machine.
Import Py Re.

Variable cfg : translation_config.
Variable hebrew_ranges : list (N * N).
Variable isalnum : N -> bool.
Variable lower : str -> str.
Variable json_dump : saved_data -> str.
Variable json_load : str -> exn + saved_data.
Variable system_text : str -> lang_config -> bool -> str -> str -> str.
Variable api_log_entry : option (str * str) -> message -> str.

Lemma create_translation_message_consumes (rq : request) (script script' : list api_result)
    (w w' : world) (o : outcome message) :
  create_translation_message rq script w = (o, script', w') ->
  fs w' = fs w
  /\ (o = OutOfScript \/ exists r, script = r :: script').
Proof.
  unfold create_translation_message.
  destruct script as [|[e|m] script0]; [| destruct e |]; intros [= <- <- <-];
    (split; [reflexivity | eauto]).
Qed.

Lemma accept_increment_files (c : chunk) (destination_path : str) (m : message)
    (answer : str) (position : nat) (lo : str) (l : locals) (w w' : world)
    (r : attempt_result) :
  accept_increment cfg json_dump c destination_path m answer position lo l w = (r, w') ->
  requests w' = requests w /\ r <> NoResponse.
Proof.
  unfold accept_increment.
  destruct (update_saved _ _ _ _ _ _) as [[e|] sd].
  - intros [= <- <-]. split; [reflexivity | discriminate].
  - destruct (chunk_complete _ _ _ _).
    + destruct (snd c); intros [= <- <-]; (split; [reflexivity | discriminate]).
    + intros [= <- <-]. split; [reflexivity | discriminate].
Qed.

(** An attempt that ends without a response pending has either hit the
    anti-stall guard before any request, or consumed one response. *)
Lemma attempt_body_consumes (c : chunk) (language : str) (lc : lang_config)
    (hebrew_context destination_path : str) (html_structure : list token)
    (problematic new_model : bool) (attempt : nat) (l : locals)
    (script script' : list api_result) (w w' : world) (r : attempt_result) :
  attempt_body cfg hebrew_ranges isalnum lower json_dump system_text api_log_entry
    c language lc hebrew_context destination_path html_structure
    problematic new_model attempt l script w = (r, script', w') ->
  r = NoResponse
  \/ (r = Failed (RuntimeError (py "Stuck in a loop with LLM")) None l
      /\ script' = script)
  \/ exists x, script = x :: script'.
Proof.
  unfold attempt_body. destruct (bool_decide _).
  - intros [= <- <- <-]. auto.
  - destruct (create_translation_message _ _ _) as [[o s1] w1] eqn:Hcall.
    apply create_translation_message_consumes in Hcall as [_ [->|[x ->]]].
    + intros [= <- <- <-]. auto.
    + destruct o as [m|e|]; [| intros [= <- <- <-]; eauto | intros [= <- <- <-]; auto].
      destruct (check_answer _ _ _ _ _ _ _ _ _) as [[wm e]|answer];
        [intros [= <- <- <-]; eauto|].
      destruct (validate_answer _ _ _) as [e|[[a p] lo]];
        [intros [= <- <- <-]; eauto|].
      destruct (accept_increment _ _ _ _ _ _ _ _ _ _) as [r1 w2].
      intros [= <- <- <-]. eauto.
Qed.

Lemma handle_stuck (language : str) (lc : lang_config) (destination_path : str)
    (attempt : nat) (m : option message) (l l' : locals) (w : world) :
  handle_exception cfg language lc destination_path attempt
    (RuntimeError (py "Stuck in a loop with LLM")) m l w <> Retry l'.
Proof.
  unfold handle_exception.
  replace (is_runtime_error _ _) with true by reflexivity.
  rewrite orb_true_r. destruct (_ && _)%bool; discriminate.
Qed.

(** The fuel of [attempts] never runs out before the script does: any
    fuel that covers the script gives the same result. *)
Lemma attempts_fuel (c : chunk) (language : str) (lc : lang_config)
    (hebrew_context destination_path : str) (html_structure : list token)
    (problematic new_model : bool) :
  forall fuel1 fuel2 attempt l script w,
  length script <= fuel1 -> length script <= fuel2 ->
  attempts cfg hebrew_ranges isalnum lower json_dump system_text api_log_entry
    c language lc hebrew_context destination_path html_structure
    problematic new_model fuel1 attempt l script w
  = attempts cfg hebrew_ranges isalnum lower json_dump system_text api_log_entry
      c language lc hebrew_context destination_path html_structure
      problematic new_model fuel2 attempt l script w.
Proof.
  induction fuel1 as [|fuel1 IH]; intros fuel2 attempt l script w H1 H2.
  - destruct script; [|simpl in H1; lia]. destruct fuel2; simpl.
    + reflexivity.
    + destruct (attempt_body _ _ _ _ _ _ _ _ _ _ _ _ _ _ _ _ _ _ _)
        as [[r s'] w'] eqn:Hbody.
      pose proof (attempt_body_consumes _ _ _ _ _ _ _ _ _ _ _ _ _ _ _ Hbody)
        as [->|[[-> ->]|[x Hx]]]; [reflexivity | | discriminate].
      destruct (handle_exception _ _ _ _ _ _ _ _ _) eqn:Hh; try reflexivity.
      now apply handle_stuck in Hh.
  - destruct fuel2 as [|fuel2].
    + destruct script; [|simpl in H2; lia]. simpl.
      destruct (attempt_body _ _ _ _ _ _ _ _ _ _ _ _ _ _ _ _ _ _ _)
        as [[r s'] w'] eqn:Hbody.
      pose proof (attempt_body_consumes _ _ _ _ _ _ _ _ _ _ _ _ _ _ _ Hbody)
        as [->|[[-> ->]|[x Hx]]]; [reflexivity | | discriminate].
      destruct (handle_exception _ _ _ _ _ _ _ _ _) eqn:Hh; try reflexivity.
      now apply handle_stuck in Hh.
    + simpl.
      destruct (attempt_body _ _ _ _ _ _ _ _ _ _ _ _ _ _ _ _ _ _ _)
        as [[r s'] w'] eqn:Hbody.
      pose proof (attempt_body_consumes _ _ _ _ _ _ _ _ _ _ _ _ _ _ _ Hbody)
        as [->|[[-> ->]|[x ->]]].
      * reflexivity.
      * destruct (handle_exception _ _ _ _ _ _ _ _ _) eqn:Hh; try reflexivity.
        now apply handle_stuck in Hh.
      * simpl in H1, H2. destruct r as [t|l'|e m l'|]; try reflexivity.
        -- destruct (start_part _ _ _ _); [reflexivity|]. apply IH; lia.
        -- destruct (handle_exception _ _ _ _ _ _ _ _ _); try reflexivity.
           destruct (_ <? _); [|reflexivity]. apply IH; lia.
Qed.

End Machine.

(** ** Checkpoint files *)

Section Checkpoint.
Import Py Re.

Variable cfg : translation_config.
Variable json_dump : saved_data -> str.

Lemma app_ne_self (s t : str) : t <> [] -> s ++ t <> s.
Proof.
  intros Ht H. apply (f_equal length) in H. rewrite length_app in H.
  destruct t; [congruence | simpl in H; lia].
Qed.

Lemma rename_old (json_file old : str) (files : gmap str str) :
  files !! json_file = Some old ->
  rename json_file (json_file ++ py ".old") files
  = <[json_file ++ py ".old" := old]> (delete json_file files).
Proof. intros H. unfold rename. now rewrite H. Qed.

(** [save_final_state] touches the checkpoint path and its [.old]
    neighbour only. *)
Lemma save_final_state_other (json_file path : str) (s : saved_data)
    (files : gmap str str) :
  path <> json_file -> path <> json_file ++ py ".old" ->
  save_final_state json_dump json_file s files !! path = files !! path.
Proof.
  intros H1 H2. unfold save_final_state.
  rewrite !lookup_insert_ne by congruence.
  destruct (files !! json_file) as [old|] eqn:Hold; [|reflexivity].
  rewrite (rename_old _ _ _ Hold), lookup_insert_ne, lookup_delete_ne by congruence.
  reflexivity.
Qed.

Lemma save_final_state_written (json_file : str) (s : saved_data) (files : gmap str str) :
  save_final_state json_dump json_file s files !! json_file
  = Some (json_dump (with_chunk_end s)).
Proof. unfold save_final_state. apply lookup_insert_eq. Qed.

(** C1, as the code has it: when the checkpoint file is replaced, the
    previous checkpoint is first renamed to the [.old] path and kept
    there, and the new dictionary is then written straight into the
    checkpoint path, with no side file and no final rename.  At every
    instant of the write the last good checkpoint is intact under the
    [.old] path, so a crash cannot destroy it; the checkpoint path itself
    is meanwhile absent or holds a prefix of the new dump; no other path
    changes. *)
Theorem checkpoint_supersession (json_file : str) (s : saved_data)
    (files : gmap str str) (old : str) :
  files !! json_file = Some old ->
  let new := json_dump (with_chunk_end s) in
  let trace := save_final_state_trace json_dump json_file s files in
  last trace = Some (save_final_state json_dump json_file s files)
  /\ save_final_state json_dump json_file s files !! json_file = Some new
  /\ forall st, st ∈ trace ->
       st !! (json_file ++ py ".old") = Some old
       /\ (st !! json_file = None \/ exists k, st !! json_file = Some (take k new))
       /\ forall path, path <> json_file -> path <> json_file ++ py ".old" ->
                       st !! path = files !! path.
Proof.
  intros Hold new trace.
  assert (Hne : json_file ++ py ".old" <> json_file) by (apply app_ne_self; discriminate).
  subst trace. unfold save_final_state_trace, save_final_state.
  rewrite Hold, (rename_old _ _ _ Hold). fold new.
  set (renamed := <[json_file ++ py ".old" := old]> (delete json_file files)).
  split; [|split].
  - rewrite seq_S, !map_app. simpl map. rewrite app_comm_cons, last_snoc.
    rewrite take_ge by reflexivity. now rewrite insert_insert_eq.
  - apply lookup_insert_eq.
  - intros st Hst. apply elem_of_cons in Hst as [->|Hst].
    + split; [apply lookup_insert_eq|]. split.
      * left. subst renamed. rewrite lookup_insert_ne by exact Hne.
        apply lookup_delete_eq.
      * intros path H1 H2. subst renamed.
        rewrite lookup_insert_ne, lookup_delete_ne by congruence. reflexivity.
    + change (map ?f ?l) with (fmap (M:=list) f l) in Hst.
      apply list_elem_of_fmap in Hst as (written & -> & Hw).
      apply list_elem_of_fmap in Hw as (k & -> & _).
      split; [|split].
      * rewrite lookup_insert_ne by congruence. apply lookup_insert_eq.
      * right. exists k. apply lookup_insert_eq.
      * intros path H1 H2. subst renamed.
        rewrite !lookup_insert_ne, lookup_delete_ne by congruence. reflexivity.
Qed.

Lemma partial_path_ne (destination_path : str) :
  destination_path ++ py ".partial.html" <> json_path destination_path
  /\ destination_path ++ py ".partial.html" <> json_path destination_path ++ py ".old".
Proof.
  unfold json_path. rewrite <- app_assoc.
  split; intros H; apply app_inv_head in H; discriminate.
Qed.

Lemma update_saved_fields (c : chunk) (t : str) (position : nat) (lo : str)
    (chunk_end : nat) (s sd : saved_data) :
  update_saved c t position lo chunk_end s = (None, sd) ->
  sd_current_position sd = position /\ sd_leftover sd = lo
  /\ sd_chunk_end_position sd = chunk_end /\ t ∈ sd_translations sd.
Proof.
  unfold update_saved. destruct (chunk_in c (sd_chunks s)).
  - destruct (Nat.ltb_spec (fst c) (length (sd_translations s))) as [Hlt|];
      [|discriminate].
    intros [= <-]. simpl. repeat split.
    eapply list_elem_of_lookup_2. apply list_lookup_insert_eq. exact Hlt.
  - intros [= <-]. simpl. repeat split.
    apply elem_of_app. right. constructor.
Qed.

(** C6, as the code has it: an accepted increment is appended to the
    partial-output file and recorded in the checkpoint dictionary in
    memory (position, leftover, chunk target end, translation); the
    checkpoint file is written only when the increment completes the
    chunk.  After an increment that leaves the chunk unfinished the
    checkpoint file is as it was. *)
Theorem checkpoint_written_on_completion (c : chunk) (destination_path : str)
    (m : message) (answer : str) (position : nat) (lo : str)
    (l : locals) (w w' : world) (r : attempt_result) :
  accept_increment cfg json_dump c destination_path m answer position lo l w = (r, w') ->
  fs w' !! (destination_path ++ py ".partial.html")
    = Some (default [] (fs w !! (destination_path ++ py ".partial.html")) ++ answer)
  /\ match r with
     | NextPart l' =>
         chunk_complete m position lo (chunk_end_position l) = false
         /\ fs w' !! json_path destination_path = fs w !! json_path destination_path
         /\ chunk_translation l' = chunk_translation l ++ remove_formatting answer
         /\ sd_current_position (saved l') = position
         /\ sd_leftover (saved l') = lo
         /\ sd_chunk_end_position (saved l') = chunk_end_position l
         /\ chunk_translation l' ∈ sd_translations (saved l')
     | Completed t =>
         chunk_complete m position lo (chunk_end_position l) = true
         /\ t = chunk_translation l ++ remove_formatting answer
         /\ exists sd,
              fs w' !! json_path destination_path = Some (json_dump (with_chunk_end sd))
              /\ sd_current_position sd = position
              /\ sd_leftover sd = lo
              /\ sd_chunk_end_position sd = chunk_end_position l
              /\ t ∈ sd_translations sd
     | Failed _ _ _ =>
         fs w' !! json_path destination_path = fs w !! json_path destination_path
     | NoResponse => False
     end.
Proof.
  destruct (partial_path_ne destination_path) as [Hp1 Hp2].
  assert (Happ : forall files : gmap str str,
            append_file (destination_path ++ py ".partial.html") answer files
              !! json_path destination_path = files !! json_path destination_path).
  { intros files. unfold append_file. now rewrite lookup_insert_ne. }
  unfold accept_increment.
  destruct (update_saved _ _ _ _ _ _) as [[e|] sd] eqn:Hup.
  - intros [= <- <-]. simpl. split; [apply lookup_insert_eq | apply Happ].
  - apply update_saved_fields in Hup as (H1 & H2 & H3 & H4).
    destruct (chunk_complete _ _ _ _) eqn:Hc.
    + destruct (snd c) eqn:Htext; intros [= <- <-]; simpl.
      * split; [apply lookup_insert_eq | apply Happ].
      * split.
        -- rewrite save_final_state_other by assumption. apply lookup_insert_eq.
        -- repeat split. exists sd. rewrite save_final_state_written. auto.
    + intros [= <- <-]. simpl. split; [apply lookup_insert_eq|].
      repeat split; auto.
Qed.

End Checkpoint.

(** What [json.load] reads back is what [json.dump] wrote. *)
Example checkpoint_roundtrip :
  json_loads (json_dumps example_old) = inr example_old
  /\ json_loads (json_dumps (with_chunk_end example_new))
     = inr (with_chunk_end example_new).
Proof. split; vm_compute; reflexivity. Qed.

Lemma checkpoint_supersession_witness :
  example_files !! example_json_file = Some (json_dumps example_old)
  /\ save_final_state json_dumps example_json_file example_new example_files
       !! example_json_file
     = Some (json_dumps (with_chunk_end example_new)).
Proof.
  assert (H : example_files !! example_json_file = Some (json_dumps example_old))
    by apply lookup_singleton_eq.
  split; [exact H|].
  apply (checkpoint_supersession json_dumps example_json_file example_new
           example_files (json_dumps example_old) H).
Defined.

(** C1 as stated fails: while the new checkpoint is written, the
    checkpoint path is first absent and then an empty file, which a
    reader cannot decode; it holds neither the previous checkpoint nor
    the new one. *)
Lemma checkpoint_supersession_counterexample :
  let trace :=
    save_final_state_trace json_dumps example_json_file example_new example_files in
  exists absent truncated,
    trace !! 0 = Some absent /\ absent !! example_json_file = None
    /\ trace !! 1 = Some truncated /\ truncated !! example_json_file = Some []
    /\ json_loads [] = inl (ValueError (py "JSONDecodeError") None)
    /\ [] <> json_dumps example_old
    /\ [] <> json_dumps (with_chunk_end example_new).
Proof.
  do 2 eexists.
  split; [reflexivity|]. split; [vm_compute; reflexivity|].
  split; [reflexivity|]. split; [vm_compute; reflexivity|].
  split; [vm_compute; reflexivity|].
  split; vm_compute; discriminate.
Qed.

Lemma checkpoint_written_on_completion_witness :
  let l :=
    Locals [] [] [] None 0 1 0 1000 false [] (py "<body><div><a>Title</a></div><")
      (SavedData [] [] 0 [] 0) 12 [] (py "<body><div><a>Title</a></div><") in
  let answer := py "<body><div><a>Title</a></div><div>Bonjour<br>Mon" in
  exists r w',
    accept_increment (example_config false) json_dumps example_body_chunk
      (py "site/fr/a") (Message (Some (py "div>Bonjour<br>Mon")) max_tokens_stop 50)
      answer 9 (py "Mon") l empty_world = (r, w')
    /\ fs w' !! (py "site/fr/a" ++ py ".partial.html") = Some ([] ++ answer).
Proof.
  intros l answer. do 2 eexists. split; [vm_compute; reflexivity|].
  refine (proj1 (checkpoint_written_on_completion (example_config false) json_dumps
            example_body_chunk (py "site/fr/a")
            (Message (Some (py "div>Bonjour<br>Mon")) max_tokens_stop 50)
            answer 9 (py "Mon") l empty_world _ _ _)).
  vm_compute. reflexivity.
Defined.

(** C6 as stated fails: after a validated increment that leaves the chunk
    unfinished, the next increment is requested (the second request of
    the log) while the checkpoint file does not exist; only the
    partial-output file has been written. *)
Lemma checkpoint_per_increment_counterexample :
  let run :=
    example_translate_chunk false example_body_chunk (py "French") french [] []
      (py "site/fr/a") example_skeleton false true
      [reply "div>Bonjour<br>Mon" max_tokens_stop] empty_world in
  run.1.1 = OutOfScript
  /\ length (requests run.2) = 2
  /\ fs run.2 !! py "site/fr/a.json" = None
  /\ fs run.2 !! py "site/fr/a.partial.html"
     = Some (py "<body><div><a>Title</a></div><div>Bonjour<br>Mon").
Proof.
  vm_compute. repeat split; reflexivity.
Qed.

(** ** Fatal Generator errors *)

(** What the client hands to [translate_chunk] for a rate-limit error is a
    [RuntimeError], which the "critical errors" test of the [except]
    block does not recognise: before the last attempt the handler goes
    on to the next attempt. *)
Lemma fatal_error_reaches_retry (cfg : translation_config) (rq : request)
    (script : list api_result) (w : world) (language : str) (lc : lang_config)
    (destination_path msg : str) (attempt : nat) (l : locals) :
  S attempt < max_retries cfg ->
  create_translation_message rq (ApiRaise (RateLimitError msg) :: script) w
    = (Raise (RuntimeError (py "!Stop!")), script,
       World (fs w) (requests w ++ [rq]))
  /\ exists l',
       handle_exception cfg language lc destination_path attempt
         (RuntimeError (py "!Stop!")) None l
         (World (fs w) (requests w ++ [rq])) = Retry l'.
Proof.
  intros Hattempt. split; [reflexivity|]. unfold handle_exception.
  destruct (Nat.leb_spec (max_retries cfg - 1) attempt) as [|_]; [lia|].
  simpl. destruct (warning_message l); [eauto|].
  destruct (Py.contains _ _); eauto.
Qed.

(** Before the last attempt, a rate-limit error on a request never ends
    the chunk with ["!Stop!"]: the next attempt builds the same
    conversation, the anti-stall guard fires without a further request,
    and the chunk ends with the degraded fragment or with the stall
    error. *)
Lemma fatal_error_before_last_attempt (cfg : translation_config)
    (hebrew_ranges : list (N * N)) (isalnum : N -> bool) (lower : str -> str)
    (json_dump : saved_data -> str)
    (system_text : str -> lang_config -> bool -> str -> str -> str)
    (api_log_entry : option (str * str) -> message -> str)
    (c : chunk) (language : str) (lc : lang_config)
    (hebrew_context destination_path : str) (html_structure : list token)
    (problematic new_model : bool) (fuel attempt : nat) (l : locals)
    (msg : str) (script : list api_result) (w : world) :
  S attempt < max_retries cfg ->
  conversation l
    <> Some (prompt l ++ constant_instruction new_model ++ warning_message l,
             assistant_answer l) ->
  warning_message l = [] \/ Py.contains (warning_message l) (py "<warning>") = true ->
  let run :=
    attempts cfg hebrew_ranges isalnum lower json_dump system_text api_log_entry
      c language lc hebrew_context destination_path html_structure
      problematic new_model (S fuel) attempt l
      (ApiRaise (RateLimitError msg) :: script) w in
  (run.1.1 = Raise (RuntimeError (py "Stuck in a loop with LLM"))
   \/ exists fragment, run.1.1 = Return (fragment, true))
  /\ run.1.2 = script
  /\ length (requests run.2) = S (length (requests w)).
Proof.
  intros Hattempt Hconv Hwarn.
  set (text := prompt l ++ constant_instruction new_model ++ warning_message l).
  set (l1 := set_conversation (Some (text, assistant_answer l)) l).
  set (w1 := World (fs w)
               (requests w
                ++ [Request (system_text language lc new_model hebrew_context (snd c))
                      text (assistant_answer l) (max_tokens l)
                      (temperature cfg problematic attempt) (use_cache l) new_model])).
  assert (Hbody :
    attempt_body cfg hebrew_ranges isalnum lower json_dump system_text api_log_entry
      c language lc hebrew_context destination_path html_structure
      problematic new_model attempt l (ApiRaise (RateLimitError msg) :: script) w
    = (Failed (RuntimeError (py "!Stop!")) None l1, script, w1)).
  { unfold attempt_body. fold text. now rewrite bool_decide_eq_false_2. }
  assert (Hretry :
    handle_exception cfg language lc destination_path attempt
      (RuntimeError (py "!Stop!")) None l1 w1 = Retry l1).
  { unfold handle_exception.
    destruct (Nat.leb_spec (max_retries cfg - 1) attempt) as [|_]; [lia|].
    simpl. destruct Hwarn as [->|Hw]; [reflexivity|].
    destruct (warning_message l); [reflexivity | now rewrite Hw]. }
  assert (Hstuck :
    attempt_body cfg hebrew_ranges isalnum lower json_dump system_text api_log_entry
      c language lc hebrew_context destination_path html_structure
      problematic new_model (S attempt) l1 script w1
    = (Failed (RuntimeError (py "Stuck in a loop with LLM")) None l1, script, w1)).
  { unfold attempt_body. now rewrite bool_decide_eq_true_2. }
  assert (Hnext : forall fuel1,
    exists o,
      attempts cfg hebrew_ranges isalnum lower json_dump system_text api_log_entry
        c language lc hebrew_context destination_path html_structure
        problematic new_model fuel1 (S attempt) l1 script w1 = (o, script, w1)
      /\ (o = Raise (RuntimeError (py "Stuck in a loop with LLM"))
          \/ exists fragment, o = Return (fragment, true))).
  { intros fuel1.
    destruct fuel1; cbn [attempts]; rewrite Hstuck;
      (destruct (handle_exception _ _ _ _ (S attempt) _ _ _ _) as [e|t|l2] eqn:Hh;
       [ unfold handle_exception in Hh;
         replace (is_runtime_error _ _) with true in Hh by reflexivity;
         rewrite orb_true_r in Hh; destruct (_ && _)%bool in Hh;
         [discriminate | injection Hh as <-; eauto]
       | eauto
       | now apply handle_stuck in Hh ]). }
  cbn [attempts]. rewrite Hbody, Hretry.
  destruct (Nat.ltb_spec (S attempt) (max_retries cfg)) as [_|]; [|lia].
  destruct (Hnext fuel) as (o & -> & Ho). simpl.
  split; [exact Ho|]. split; [reflexivity|].
  rewrite length_app. simpl. lia.
Qed.

(** C2 fails on the code.  A rate-limit error on the first request of the
    first of two pages does not stop the run: the run returns normally,
    a second request has been sent, and the second page is translated.
    With recovery enabled, a rate-limit error after an accepted increment
    ends the chunk with the degraded fragment. *)
Theorem fatal_error_does_not_stop_the_run :
  let run :=
    example_translate_website false (py "French") french
      [py "a.html"; py "b.html"]
      [ApiRaise (RateLimitError (py "429"));
       reply "div>Bonjour<br>Monde</div>" stop_sequence] two_pages in
  let chunk_run :=
    example_translate_chunk true example_body_chunk (py "French") french [] []
      (py "site/fr/a") example_skeleton false true
      [reply "div>Bonjour<br>Mon" max_tokens_stop;
       ApiRaise (RateLimitError (py "429"))] empty_world in
  (run.1.1 = Return tt
   /\ length (requests run.2) = 2
   /\ fs run.2 !! py "site/fr/a.html" = None
   /\ is_Some (fs run.2 !! py "site/fr/b.html"))
  /\ exists fragment,
       chunk_run.1.1 = Return (fragment, true)
       /\ Py.contains fragment incomplete_marker = true.
Proof.
  split.
  - vm_compute. repeat split; eauto.
  - eexists. split; vm_compute; reflexivity.
Qed.

(** * Further properties of the code *)

(** ** Searching and replacing in strings *)

Section SearchFacts.
Import Py.

Lemma startswith_length (s p : str) : startswith s p = true -> length p <= length s.
Proof.
  intros H. apply startswith_spec in H as [r ->]. rewrite length_app. lia.
Qed.

Lemma startswith_app (p r : str) : startswith (p ++ r) p = true.
Proof. apply startswith_spec. now exists r. Qed.

Lemma find_from_some (sub : str) : forall n i s k,
  find_from i n s sub = Some k ->
  i <= k /\ k < i + n /\ startswith (drop (k - i) s) sub = true
  /\ forall j, j < k - i -> startswith (drop j s) sub = false.
Proof.
  induction n as [|n IH]; intros i s k; simpl; [discriminate|].
  destruct (startswith s sub) eqn:Hs.
  - intros [= <-]. rewrite Nat.sub_diag. repeat split; try lia. exact Hs.
  - destruct s as [|c s]; [discriminate|]. intros H.
    apply IH in H as (H1 & H2 & H3 & H4).
    repeat split; try lia.
    + replace (k - i) with (S (k - S i)) by lia. exact H3.
    + intros [|j] Hj; [exact Hs|]. apply H4. lia.
Qed.

Lemma find_from_none (sub : str) : forall n i s,
  find_from i n s sub = None ->
  forall j, j < n -> startswith (drop j s) sub = false.
Proof.
  induction n as [|n IH]; intros i s; simpl; [intros _ j Hj; lia|].
  destruct (startswith s sub) eqn:Hs; [discriminate|].
  destruct s as [|c s].
  - intros _ j _. now rewrite drop_nil.
  - intros H [|j] Hj; [exact Hs|]. apply (IH _ _ H). lia.
Qed.

(** [s.find(sub, start)]: the first occurrence at or after [start]. *)
Lemma find_in_some (s sub : str) (start k : nat) :
  find_in s sub start (length s) = Some k ->
  start <= k /\ startswith (drop k s) sub = true
  /\ forall j, start <= j -> j < k -> startswith (drop j s) sub = false.
Proof.
  unfold find_in. rewrite Nat.min_id.
  destruct (Nat.leb_spec (start + length sub) (length s)) as [Hle|]; [|discriminate].
  intros H. apply find_from_some in H as (H1 & H2 & H3 & H4).
  rewrite drop_drop in H3. replace (start + (k - start)) with k in H3 by lia.
  repeat split; auto.
  intros j Hj1 Hj2. specialize (H4 (j - start) ltac:(lia)).
  rewrite drop_drop in H4. now replace (start + (j - start)) with j in H4 by lia.
Qed.

Lemma find_in_none (s sub : str) (start : nat) :
  sub <> [] ->
  find_in s sub start (length s) = None ->
  forall j, start <= j -> startswith (drop j s) sub = false.
Proof.
  intros Hsub. unfold find_in. rewrite Nat.min_id.
  assert (Hshort : forall j, length s < j + length sub -> startswith (drop j s) sub = false).
  { intros j Hj. destruct (startswith (drop j s) sub) eqn:Hs; [|reflexivity].
    apply startswith_length in Hs. rewrite length_drop in Hs.
    destruct sub; [congruence | simpl in *; lia]. }
  destruct (Nat.leb_spec (start + length sub) (length s)) as [Hle|Hgt].
  - intros H j Hj.
    destruct (Nat.lt_ge_cases (j - start) (length s - length sub - start + 1)) as [Hin|Hout].
    + pose proof (find_from_none _ _ _ _ H (j - start) Hin) as Hf.
      rewrite drop_drop in Hf. now replace (start + (j - start)) with j in Hf by lia.
    + apply Hshort. lia.
  - intros _ j Hj. apply Hshort. lia.
Qed.

Lemma find_in_intro (s sub : str) (start k : nat) :
  sub <> [] -> start <= k ->
  startswith (drop k s) sub = true ->
  (forall j, start <= j -> j < k -> startswith (drop j s) sub = false) ->
  find_in s sub start (length s) = Some k.
Proof.
  intros Hsub Hk Hat Hbefore.
  destruct (find_in s sub start (length s)) as [k'|] eqn:Hf.
  - apply find_in_some in Hf as (H1 & H2 & H3). f_equal.
    destruct (Nat.lt_trichotomy k' k) as [Hlt|[->|Hgt]]; [|reflexivity|].
    + rewrite Hbefore in H2 by lia. discriminate.
    + rewrite H3 in Hat by lia. discriminate.
  - rewrite (find_in_none _ _ _ Hsub Hf k Hk) in Hat. discriminate.
Qed.

Lemma find_some (s sub : str) (k : nat) :
  find s sub = Some k ->
  startswith (drop k s) sub = true
  /\ forall j, j < k -> startswith (drop j s) sub = false.
Proof.
  intros H. apply find_in_some in H as (_ & H2 & H3).
  split; [exact H2|]. intros j Hj. apply H3; lia.
Qed.

Lemma find_none (s sub : str) :
  sub <> [] -> find s sub = None -> forall j, startswith (drop j s) sub = false.
Proof.
  intros Hsub H j. apply (find_in_none s sub 0 Hsub H). lia.
Qed.

(** An occurrence found lies inside the string. *)
Lemma find_some_bound (s sub : str) (k : nat) :
  find s sub = Some k -> k + length sub <= length s.
Proof.
  unfold find, find_in. rewrite Nat.min_id.
  destruct (Nat.leb_spec (0 + length sub) (length s)) as [Hle|]; [|discriminate].
  intros H. apply find_from_some in H as (_ & H & _). lia.
Qed.

End SearchFacts.

(** ** The tokenizer: where the tokens lie and what they are *)

Section TokenLayout.
Import Py Re.

Lemma finditer_aux_tag (r tag rest : str) (pos : nat) :
  match_tag (LT :: r) = Some (tag, rest) ->
  finditer_aux 0 pos (LT :: r)
  = (tag, pos + length tag) :: finditer_aux 0 (pos + length tag) rest.
Proof.
  intros Hm. simpl finditer_aux. change (N.eqb LT LT) with true. cbv iota.
  rewrite Hm. f_equal.
  destruct (match_tag_app _ _ _ Hm) as (Hs & b & -> & Hb & _).
  simpl in Hs. injection Hs as ->. simpl length.
  rewrite finditer_aux_skip by (rewrite length_app; lia).
  replace (S (length b) - 1) with (length b) by lia.
  rewrite drop_app_length. f_equal. lia.
Qed.

Lemma finditer_aux_no_tag (r : str) (pos : nat) :
  match_tag (LT :: r) = None ->
  finditer_aux 0 pos (LT :: r) = finditer_aux 0 (S pos) r.
Proof.
  intros Hm. simpl finditer_aux. change (N.eqb LT LT) with true. cbv iota.
  now rewrite Hm.
Qed.

Lemma finditer_aux_text (c : N) (r : str) (pos : nat) :
  N.eqb c LT = false ->
  let t := text_run (c :: r) in
  finditer_aux 0 pos (c :: r)
  = (t, pos + length t) :: finditer_aux 0 (pos + length t) (drop (length t) (c :: r)).
Proof.
  intros Hc. simpl finditer_aux. rewrite Hc. simpl text_run. rewrite Hc.
  cbv zeta. f_equal.
  replace (length (c :: text_run r) - 1) with (length (text_run r)) by (simpl; lia).
  rewrite finditer_aux_skip.
  - f_equal. simpl. lia.
  - rewrite (text_run_app r) at 2. rewrite length_app. lia.
Qed.

Lemma tokens_laid_out_weaken (s : str) (ts : list token) (start start' : nat) :
  start <= start' -> tokens_laid_out start' s ts -> tokens_laid_out start s ts.
Proof.
  intros Hle. destruct ts as [|t ts]; simpl; [auto|].
  intros (H1 & H2 & H3 & H4). repeat split; auto. lia.
Qed.

Lemma piece_at (pre t rest : str) :
  take (length t) (drop (length pre + length t - length t) (pre ++ t ++ rest)) = t.
Proof.
  replace (length pre + length t - length t) with (length pre) by lia.
  rewrite drop_app_length. apply take_app_length.
Qed.

Lemma finditer_laid_out : forall n pre s,
  length s = n ->
  tokens_laid_out (length pre) (pre ++ s)
    (map (fun m => Token (fst m) (is_tag_text (fst m)) (snd m))
       (filter (fun m => negb (bool_decide (strip (fst m) = [])))
          (finditer_aux 0 (length pre) s))).
Proof.
  induction n as [n IH] using lt_wf_ind. intros pre [|c r] Hn; [exact I|].
  destruct (N.eqb_spec c LT) as [->|Hc].
  - destruct (match_tag (LT :: r)) as [[tag rest]|] eqn:Hm.
    + rewrite (finditer_aux_tag _ _ _ _ Hm).
      destruct (match_tag_app _ _ _ Hm) as (Hs & b & Hb & _). rewrite Hs.
      rewrite filter_cons. cbn [fst].
      assert (Hnb : bool_decide (strip tag = []) = false).
      { apply bool_decide_eq_false. rewrite strip_nil.
        rewrite (tag_not_blank _ _ _ Hm : forallb isspace tag = false). discriminate. }
      rewrite Hnb. simpl. split; [lia|]. split; [rewrite !length_app; lia|].
      split; [apply piece_at|].
      specialize (IH (length rest)).
      rewrite <- length_app, app_assoc. apply (IH ltac:(subst n tag; rewrite Hs; simpl; rewrite length_app; lia)).
      reflexivity.
    + rewrite (finditer_aux_no_tag _ _ Hm).
      apply (tokens_laid_out_weaken _ _ _ (length (pre ++ [LT])));
        [rewrite length_app; simpl; lia|].
      replace (S (length pre)) with (length (pre ++ [LT]))
        by (rewrite length_app; simpl; lia).
      replace (pre ++ LT :: r) with ((pre ++ [LT]) ++ r) by now rewrite <- app_assoc.
      apply (IH (length r)); [subst n; simpl; lia | reflexivity].
  - apply N.eqb_neq in Hc. rewrite (finditer_aux_text _ _ _ Hc). cbv zeta.
    set (t := text_run (c :: r)). set (rest := drop (length t) (c :: r)).
    assert (Hs : c :: r = t ++ rest) by apply text_run_app.
    assert (Ht : 0 < length t) by (subst t; simpl; rewrite Hc; simpl; lia).
    assert (Hrest : tokens_laid_out (length (pre ++ t)) ((pre ++ t) ++ rest)
              (map (fun m => Token (fst m) (is_tag_text (fst m)) (snd m))
                 (filter (fun m => negb (bool_decide (strip (fst m) = [])))
                    (finditer_aux 0 (length (pre ++ t)) rest)))).
    { apply (IH (length rest)); [|reflexivity].
      subst n. rewrite Hs, length_app. lia. }
    rewrite length_app, <- app_assoc, <- Hs in Hrest.
    rewrite filter_cons. cbn [fst].
    destruct (bool_decide (strip t = [])); simpl.
    + eapply tokens_laid_out_weaken; [|exact Hrest]. lia.
    + split; [lia|]. split; [rewrite Hs, !length_app; lia|].
      split; [rewrite Hs; apply piece_at | exact Hrest].
Qed.

(** X1: the position of a token is the offset in the content at which its
    element ends: the element is the piece of the content just before
    its position, and the tokens follow one another without overlap. *)
Theorem extract_html_structure_positions (s : str) :
  tokens_laid_out 0 s (extract_html_structure s).
Proof. apply (finditer_laid_out (length s) [] s). reflexivity. Qed.

Lemma until_gt_shape (s b r : str) :
  until_gt s = Some (b, r) ->
  exists b', b = b' ++ [GT] /\ forallb (fun c => negb (N.eqb c GT)) b' = true.
Proof.
  revert b r; induction s as [|c s IH]; intros b r; simpl; [discriminate|].
  destruct (N.eqb_spec c GT) as [->|Hc].
  - intros [= <- <-]. now exists [].
  - destruct (until_gt s) as [[b0 r0]|]; [|discriminate].
    intros [= <- <-]. destruct (IH _ _ eq_refl) as (b' & -> & Hb').
    exists (c :: b'). split; [reflexivity|]. simpl. rewrite Hb'.
    apply N.eqb_neq in Hc. now rewrite Hc.
Qed.

Lemma match_tag_shape (s tag rest : str) :
  match_tag s = Some (tag, rest) ->
  exists b, tag = LT :: b ++ [GT] /\ b <> []
            /\ forallb (fun c => negb (N.eqb c GT)) b = true.
Proof.
  unfold match_tag. destruct s as [|c0 [|c1 r]]; simpl; try discriminate.
  destruct (N.eqb_spec c0 LT) as [->|]; simpl; [|discriminate].
  destruct (N.eqb c1 GT) eqn:Hc1; simpl; [discriminate|].
  destruct (until_gt r) as [[b r']|] eqn:Hu; [|discriminate].
  intros [= <- <-]. destruct (until_gt_shape _ _ _ Hu) as (b' & -> & Hb').
  exists (c1 :: b'). split; [reflexivity|]. split; [discriminate|].
  simpl. now rewrite Hc1.
Qed.

Lemma is_tag_text_tag (b : str) : is_tag_text (LT :: b ++ [GT]) = true.
Proof.
  unfold is_tag_text, endswith. apply andb_true_iff. split; apply startswith_spec.
  - now exists (b ++ [GT]).
  - exists (rev b ++ [LT]). simpl. now rewrite rev_app_distr.
Qed.

Lemma is_tag_text_text (c : N) (r : str) : N.eqb c LT = false -> is_tag_text (c :: r) = false.
Proof.
  intros Hc. unfold is_tag_text.
  destruct (startswith (c :: r) [LT]) eqn:Hs; [|reflexivity].
  apply startswith_spec in Hs as [r' Hs]. injection Hs as -> _.
  now rewrite N.eqb_refl in Hc.
Qed.

(** What a match of the tokenizer's pattern is: a tag, from a ['<'] to
    the first ['>'] after it with something in between, or a run of
    characters other than ['<']. *)
Lemma match_texts_kinds (s : str) :
  Forall (fun m =>
            if is_tag_text m
            then exists b, m = LT :: b ++ [GT] /\ b <> []
                           /\ forallb (fun c => negb (N.eqb c GT)) b = true
            else no_lt m = true)
         (match_texts s).
Proof.
  pattern s, (match_texts s). apply match_texts_ind; clear s.
  - constructor.
  - intros r tag rest Hm IH. constructor; [|exact IH].
    destruct (match_tag_shape _ _ _ Hm) as (b & -> & Hb & Hgt).
    rewrite is_tag_text_tag. eauto.
  - intros r Hm IH. exact IH.
  - intros c r Hc t rest IH. constructor; [|exact IH].
    subst t. simpl text_run. rewrite Hc. rewrite (is_tag_text_text _ _ Hc).
    unfold no_lt. simpl. rewrite Hc. simpl. apply text_run_no_lt.
Qed.

(** X2: no token is whitespace only; a token marked as a tag runs from a
    ['<'] to the first ['>'] after it, with at least one character in
    between; a token not marked as a tag holds no ['<']. *)
Theorem extract_html_structure_kinds (s : str) :
  Forall (fun t =>
            blank (element t) = false
            /\ if is_html_tag t
               then exists b, element t = LT :: b ++ [GT] /\ b <> []
                              /\ forallb (fun c => negb (N.eqb c GT)) b = true
               else no_lt (element t) = true)
         (extract_html_structure s).
Proof.
  pose proof (match_texts_kinds s) as Hk.
  unfold extract_html_structure, match_texts in *.
  induction (finditer s) as [|m l IH]; [constructor|].
  apply Forall_cons in Hk as [Hm Hl]. rewrite filter_cons.
  assert (Hb : bool_decide (strip m.1 = []) = blank m.1).
  { apply eq_true_iff_eq. rewrite bool_decide_eq_true. apply strip_nil. }
  rewrite Hb. destruct (blank m.1) eqn:Hblank; simpl; [auto|].
  constructor; [|auto]. simpl. split; [exact Hblank | exact Hm].
Qed.

End TokenLayout.

(** ** The validator: what an accepted increment guarantees *)

Section ValidatorAccepts.
Import Py Re.




End ValidatorAccepts.

(** ** Reconstruction *)

Section ReconstructFacts.
Import Py Re.

Lemma find_from_first (sub' tail : str) : forall mid i k,
  no_lt mid = true ->
  startswith tail sub' = true ->
  find_from i (length mid + S k) (mid ++ LT :: tail) (LT :: sub')
  = Some (i + length mid).
Proof.
  induction mid as [|c mid IH]; intros i k Hmid Htail.
  - simpl length. rewrite Nat.add_0_l, Nat.add_0_r. cbn [find_from app].
    assert (Hs : startswith (LT :: tail) (LT :: sub') = true).
    { apply startswith_spec in Htail as [r ->]. apply startswith_spec. now exists r. }
    now rewrite Hs.
  - unfold no_lt in Hmid. simpl in Hmid. apply andb_true_iff in Hmid as [Hc Hmid].
    apply negb_true_iff in Hc.
    change (length (c :: mid) + S k) with (S (length mid + S k)).
    cbn [find_from app].
    assert (Hs : startswith (c :: mid ++ LT :: tail) (LT :: sub') = false).
    { destruct (startswith (c :: mid ++ LT :: tail) (LT :: sub')) eqn:Hs; [|reflexivity].
      apply startswith_spec in Hs as [r Hs]. injection Hs as -> _.
      now rewrite N.eqb_refl in Hc. }
    rewrite Hs, (IH (S i) k Hmid Htail). f_equal. simpl. lia.
Qed.

(** The first ['<'] after [pre] and a text without ['<'] is found right
    after that text, and so is anything that begins there with ['<']. *)
Lemma find_in_first (pre mid sub' post : str) :
  no_lt mid = true ->
  find_in (pre ++ mid ++ (LT :: sub') ++ post) (LT :: sub') (length pre)
    (length (pre ++ mid ++ (LT :: sub') ++ post))
  = Some (length pre + length mid).
Proof.
  intros Hmid. unfold find_in. rewrite Nat.min_id, drop_app_length.
  rewrite !length_app.
  destruct (Nat.leb_spec (length pre + length (LT :: sub'))
              (length pre + (length mid + (length (LT :: sub') + length post)))) as [_|];
    [|lia].
  replace (length pre + (length mid + (length (LT :: sub') + length post))
           - length (LT :: sub') - length pre + 1)
    with (length mid + S (length post)) by lia.
  change ((LT :: sub') ++ post) with (LT :: (sub' ++ post)).
  apply find_from_first; [exact Hmid | apply startswith_app].
Qed.

Lemma split_head_lt (r : str) : split_head (LT :: r) = LT :: split_head r.
Proof. reflexivity. Qed.

Lemma simplified_tag_lt (item : token) :
  startswith (element item) [LT] = true ->
  exists tl, simplified_tag item = LT :: tl.
Proof.
  intros H. apply startswith_spec in H as [r Hr]. unfold simplified_tag.
  rewrite Hr. change ([LT] ++ r) with (LT :: r). rewrite split_head_lt.
  exists (split_head r ++ [GT]). reflexivity.
Qed.

Lemma interleave_rest (texts tags : list str) (rest : str) :
  interleave texts tags rest = interleave texts tags [] ++ rest.
Proof.
  revert tags. induction texts as [|t texts IH]; intros [|tag tags]; simpl; auto.
  now rewrite IH, <- !app_assoc.
Qed.

(** The loop over a first part [os1] of the skeleton, on a translation
    that gives, for each tag of [os1] in turn, a text without ['<'] and
    then the simplified tag: each simplified tag is replaced by the
    skeleton's tag, and the search goes on after the last one. *)
Lemma reconstruct_loop_app (os2 : list token) (rest : str) :
  forall os1 done texts,
  length texts = length (tag_items os1) ->
  forallb no_lt texts = true ->
  tags_open os1 = true ->
  reconstruct_loop (os1 ++ os2)
    (done ++ interleave texts (map simplified_tag (tag_items os1)) rest)
    (length done)
  = reconstruct_loop os2
      ((done ++ interleave texts (map element (tag_items os1)) []) ++ rest)
      (length (done ++ interleave texts (map element (tag_items os1)) [])).
Proof.
  induction os1 as [|item os1 IH]; intros done texts Hlen Htexts Hopen.
  - destruct texts; [|discriminate]. simpl. now rewrite !app_nil_r.
  - cbn [app reconstruct_loop tag_items].
    unfold tags_open in Hopen. cbn [tag_items] in Hopen.
    cbn [tag_items] in Hlen.
    destruct (is_html_tag item) eqn:Htag; [|now apply IH].
    destruct texts as [|t texts]; [discriminate|].
    simpl in Hlen. injection Hlen as Hlen.
    simpl in Htexts. apply andb_true_iff in Htexts as [Ht Htexts].
    simpl in Hopen. apply andb_true_iff in Hopen as [Hitem Hopen].
    destruct (simplified_tag_lt item Hitem) as [tl Htl].
    cbn [map interleave].
    fold (simplified_tag item). rewrite Htl.
    set (X := interleave texts (map simplified_tag (tag_items os1)) rest).
    assert (Htp : find_in (done ++ t ++ (LT :: tl) ++ X) (LT :: tl) (length done)
                    (length (done ++ t ++ (LT :: tl) ++ X))
                  = Some (length done + length t))
      by now apply find_in_first.
    assert (Hnp : find_in (done ++ t ++ (LT :: tl) ++ X) [LT] (length done)
                    (length (done ++ t ++ (LT :: tl) ++ X))
                  = Some (length done + length t)).
    { change ((LT :: tl) ++ X) with ([LT] ++ (tl ++ X)). now apply find_in_first. }
    rewrite Htp, Hnp. cbn [to_index].
    rewrite Z.eqb_refl.
    replace (Z.of_nat (length done + length t) =? -1)%Z with false
      by (symmetry; apply Z.eqb_neq; lia).
    cbn [negb andb]. rewrite Nat2Z.id.
    replace (take (length done + length t) (done ++ t ++ (LT :: tl) ++ X))
      with (done ++ t)
      by (rewrite app_assoc, <- length_app; symmetry; apply take_app_length).
    replace (drop (length done + length t + length (LT :: tl))
               (done ++ t ++ (LT :: tl) ++ X)) with X
      by (rewrite !app_assoc, <- !length_app; symmetry; apply drop_app_length).
    specialize (IH (done ++ t ++ element item) texts Hlen Htexts Hopen).
    rewrite <- !app_assoc in IH.
    replace (length done + length t + length (element item))
      with (length (done ++ t ++ element item)) by (rewrite !length_app; lia).
    rewrite <- ?app_assoc. subst X. rewrite IH.
    rewrite <- ?app_assoc. reflexivity.
Qed.

(** X4: when the translation gives, for each tag of the skeleton in turn, a
    text without ['<'] followed by the simplified tag (the tag name
    without its attributes), reconstruction puts the skeleton's tags
    back, attributes included, and keeps every text and all that
    follows the last tag. *)
Theorem reconstruct_restores_tags (os : list token) (texts : list str) (rest : str) :
  length texts = length (tag_items os) ->
  forallb no_lt texts = true ->
  tags_open os = true ->
  reconstruct_html_from_structure os
    (interleave texts (map simplified_tag (tag_items os)) rest)
  = inr (interleave texts (map element (tag_items os)) rest).
Proof.
  intros Hlen Htexts Hopen. unfold reconstruct_html_from_structure.
  pose proof (reconstruct_loop_app [] rest os [] texts Hlen Htexts Hopen) as H.
  rewrite app_nil_r in H. cbn [app length] in H. rewrite H.
  cbn [reconstruct_loop]. now rewrite <- interleave_rest.
Qed.

Lemma first_gt_unique (a b x y : str) :
  forallb (fun c => negb (N.eqb c GT)) a = true ->
  forallb (fun c => negb (N.eqb c GT)) b = true ->
  a ++ GT :: x = b ++ GT :: y -> a = b.
Proof.
  revert b. induction a as [|c a IH]; intros [|d b]; simpl; intros Ha Hb Heq.
  - reflexivity.
  - injection Heq as <- _. rewrite N.eqb_refl in Hb. discriminate.
  - injection Heq as -> _. rewrite N.eqb_refl in Ha. discriminate.
  - injection Heq as -> Heq. apply andb_true_iff in Ha as [_ Ha].
    apply andb_true_iff in Hb as [_ Hb]. f_equal. now apply IH.
Qed.

Lemma split_head_no_gt (s : str) :
  forallb (fun c => negb (N.eqb c GT)) (split_head s) = true.
Proof.
  induction s as [|c s IH]; simpl; [reflexivity|].
  destruct (isspace c); simpl; [reflexivity|].
  destruct (N.eqb c GT) eqn:Hc; simpl; [reflexivity|]. now rewrite Hc.
Qed.

(** A simplified tag that begins the marker and what follows it is the
    marker. *)
Lemma simplified_tag_marker (item : token) (rest : str) :
  startswith (incomplete_marker ++ rest) (simplified_tag item) = true ->
  simplified_tag item = incomplete_marker.
Proof.
  intros H. apply startswith_spec in H as [r Hr]. unfold simplified_tag in *.
  change incomplete_marker with (py "<incomplete-translation" ++ [GT]) in *.
  rewrite <- !app_assoc in Hr. simpl app in Hr at 2 4.
  f_equal. symmetry. eapply first_gt_unique; [| |exact Hr].
  - reflexivity.
  - apply split_head_no_gt.
Qed.

(** X5: when the translation breaks off at the incomplete-translation marker,
    reconstruction restores the tags before it and returns the text from
    there on as it is, whatever the skeleton still holds: it does not
    raise. *)
Theorem reconstruct_stops_at_marker (os1 os2 : list token) (item : token)
    (texts : list str) (t rest : str) :
  length texts = length (tag_items os1) ->
  forallb no_lt texts = true ->
  tags_open os1 = true ->
  is_html_tag item = true ->
  no_lt t = true ->
  simplified_tag item <> incomplete_marker ->
  reconstruct_html_from_structure (os1 ++ item :: os2)
    (interleave texts (map simplified_tag (tag_items os1))
       (t ++ incomplete_marker ++ rest))
  = inr (interleave texts (map element (tag_items os1))
           (t ++ incomplete_marker ++ rest)).
Proof.
  intros Hlen Htexts Hopen Htag Ht Hne. unfold reconstruct_html_from_structure.
  pose proof (reconstruct_loop_app (item :: os2) (t ++ incomplete_marker ++ rest)
                os1 [] texts Hlen Htexts Hopen) as H.
  cbn [app length] in H. rewrite H. clear H.
  set (D := interleave texts (map element (tag_items os1)) []).
  rewrite (interleave_rest _ _ (t ++ _)). fold D.
  cbn [reconstruct_loop]. rewrite Htag.
  set (result := D ++ t ++ incomplete_marker ++ rest).
  assert (Hnp : find_in result [LT] (length D) (length result)
                = Some (length D + length t)).
  { subst result.
    change incomplete_marker with ([LT] ++ py "incomplete-translation>").
    rewrite <- (app_assoc [LT]). now apply find_in_first. }
  assert (Hat : startswith (drop (length D + length t) result)
                  (split_head (element item) ++ [GT]) = false).
  { subst result. rewrite app_assoc, <- length_app, drop_app_length.
    destruct (startswith _ _) eqn:Hs; [|reflexivity].
    now apply simplified_tag_marker in Hs. }
  rewrite Hnp. cbn [to_index].
  assert (Hcond : (negb (to_index (find_in result (split_head (element item) ++ [GT])
                                     (length D) (length result)) =? -1)
                   && (to_index (find_in result (split_head (element item) ++ [GT])
                                   (length D) (length result))
                       =? Z.of_nat (length D + length t)))%Z = false).
  { destruct (find_in result (split_head (element item) ++ [GT])
                (length D) (length result)) as [k|] eqn:Hf; [|reflexivity].
    cbn [to_index]. apply andb_false_iff. right. apply Z.eqb_neq. intros Hk.
    apply Nat2Z.inj in Hk. subst k.
    apply find_in_some in Hf as (_ & Hf & _). congruence. }
  rewrite Hcond.
  assert (Hslice : slice result (Z.of_nat (length D + length t))
                     (Z.of_nat (length D + length t) + 24) = incomplete_marker).
  { unfold slice, norm_index.
    replace (Z.of_nat (length D + length t) <? 0)%Z with false
      by (symmetry; apply Z.ltb_ge; lia).
    replace (Z.of_nat (length D + length t) + 24 <? 0)%Z with false
      by (symmetry; apply Z.ltb_ge; lia).
    rewrite Nat2Z.id.
    assert (Hl : length result
                 = length D + length t + 24 + length rest).
    { subst result. rewrite !length_app.
      change (length incomplete_marker) with 24. lia. }
    rewrite Nat.min_l by lia.
    replace (Z.to_nat (Z.of_nat (length D + length t) + 24))
      with (length D + length t + 24) by lia.
    rewrite Nat.min_l by lia.
    replace (length D + length t + 24 - (length D + length t)) with 24 by lia.
    subst result. rewrite app_assoc, <- length_app, drop_app_length.
    change 24 with (length incomplete_marker). apply take_app_length. }
  rewrite Hslice. unfold str_eqb. rewrite bool_decide_eq_true_2 by reflexivity.
  reflexivity.
Qed.

End ReconstructFacts.

(** ** Stripping and replacing *)

Section StripFacts.
Import Py.

Lemma forallb_rev {A} (f : A -> bool) (l : list A) : forallb f (rev l) = forallb f l.
Proof.
  induction l as [|x l IH]; simpl; [reflexivity|].
  rewrite forallb_app, IH. simpl. rewrite andb_true_r. apply andb_comm.
Qed.

Lemma lstrip_by_suffix (p : N -> bool) (s : str) :
  exists pre, s = pre ++ lstrip_by p s /\ forallb p pre = true.
Proof.
  induction s as [|c s (pre & IH & Hpre)]; [now exists []|]. simpl.
  destruct (p c) eqn:Hc.
  - exists (c :: pre). simpl. rewrite Hc, Hpre. split; [now f_equal | reflexivity].
  - now exists [].
Qed.

Lemma lstrip_by_head (p : N -> bool) (s : str) (c : N) (r : str) :
  lstrip_by p s = c :: r -> p c = false.
Proof.
  induction s as [|d s IH]; simpl; [discriminate|].
  destruct (p d) eqn:Hd; [exact IH | now intros [= <- _]].
Qed.

Lemma lstrip_by_idem (p : N -> bool) (s : str) :
  lstrip_by p (lstrip_by p s) = lstrip_by p s.
Proof.
  destruct (lstrip_by p s) as [|c r] eqn:H; [reflexivity|].
  apply lstrip_by_head in H. simpl. now rewrite H.
Qed.

Lemma lstrip_by_length (p : N -> bool) (s : str) : length (lstrip_by p s) <= length s.
Proof.
  induction s as [|c s IH]; simpl; [lia|]. destruct (p c); simpl; lia.
Qed.

Lemma lstrip_by_fix_prefix (p : N -> bool) (a b : str) :
  lstrip_by p (a ++ b) = a ++ b -> lstrip_by p a = a.
Proof.
  destruct a as [|c a]; [reflexivity|]. simpl.
  destruct (p c); [|reflexivity].
  intros H. apply (f_equal length) in H.
  pose proof (lstrip_by_length p (a ++ b)) as Hle.
  change (length (c :: a ++ b)) with (S (length (a ++ b))) in H. lia.
Qed.

Lemma rstrip_prefix (s : str) :
  exists ws, s = rstrip s ++ ws /\ forallb isspace ws = true.
Proof.
  unfold rstrip, rstrip_by.
  destruct (lstrip_by_suffix isspace (rev s)) as (pre & H & Hpre).
  exists (rev pre). split; [|now rewrite forallb_rev].
  rewrite <- rev_app_distr, <- H. symmetry. apply rev_involutive.
Qed.

Lemma rstrip_fix (s : str) : rstrip s = s <-> lstrip_by isspace (rev s) = rev s.
Proof.
  unfold rstrip, rstrip_by. split; intros H.
  - apply (f_equal (@rev N)) in H. now rewrite rev_involutive in H.
  - rewrite H. apply rev_involutive.
Qed.

Lemma rstrip_idem (s : str) : rstrip (rstrip s) = rstrip s.
Proof.
  apply rstrip_fix. unfold rstrip, rstrip_by. rewrite rev_involutive.
  apply lstrip_by_idem.
Qed.

(** What follows a cut in a string that ends without whitespace ends
    without whitespace. *)
Lemma rstrip_fix_suffix (pre t : str) : rstrip (pre ++ t) = pre ++ t -> rstrip t = t.
Proof.
  rewrite !rstrip_fix, rev_app_distr. apply lstrip_by_fix_prefix.
Qed.

Lemma lstrip_rstrip_fix (p : N -> bool) (s : str) :
  rstrip s = s -> rstrip (lstrip_by p s) = lstrip_by p s.
Proof.
  intros H. destruct (lstrip_by_suffix p s) as (pre & Hs & _).
  rewrite Hs in H at 1 2. now apply rstrip_fix_suffix in H.
Qed.

Lemma strip_idem (s : str) : strip (strip s) = strip s.
Proof.
  unfold strip, lstrip.
  rewrite (lstrip_rstrip_fix isspace (rstrip s)) by apply rstrip_idem.
  apply lstrip_by_idem.
Qed.

Lemma rstrip_blank (s : str) : forallb isspace s = true -> rstrip s = [].
Proof.
  intros H. unfold rstrip, rstrip_by.
  replace (lstrip_by isspace (rev s)) with (@nil N); [reflexivity|].
  symmetry. apply lstrip_by_nil. rewrite existsb_rev.
  induction s as [|c s IH]; simpl in *; [reflexivity|].
  apply andb_true_iff in H as [-> H]. simpl. auto.
Qed.

Lemma replace_aux_skip (old new : str) : forall s skip,
  skip <= length s ->
  replace_aux skip s old new = replace_aux 0 (drop skip s) old new.
Proof.
  induction s as [|c s IH]; intros [|k] Hk; try reflexivity.
  simpl in Hk. simpl. apply IH. lia.
Qed.

Lemma replace_aux_match (s old new : str) :
  old <> [] -> startswith s old = true ->
  replace_aux 0 s old new = new ++ replace_aux 0 (drop (length old) s) old new.
Proof.
  intros Hold Hs. pose proof (startswith_length _ _ Hs) as Hlen.
  destruct s as [|c r]; [destruct old; [congruence | discriminate]|].
  cbn [replace_aux]. rewrite Hs. f_equal.
  rewrite replace_aux_skip by (simpl in Hlen; lia).
  destruct old as [|o old]; [congruence|]. simpl. now rewrite Nat.sub_0_r.
Qed.

Lemma replace_aux_step (c : N) (r old new : str) :
  startswith (c :: r) old = false ->
  replace_aux 0 (c :: r) old new = c :: replace_aux 0 r old new.
Proof. intros Hs. cbn [replace_aux]. now rewrite Hs. Qed.

(** Induction along the replacement of a non-empty [old]. *)
Lemma replace_ind (old new : str) (P : str -> str -> Prop) :
  old <> [] ->
  P [] [] ->
  (forall rest,
      P rest (replace_aux 0 rest old new) ->
      P (old ++ rest) (new ++ replace_aux 0 rest old new)) ->
  (forall c r,
      startswith (c :: r) old = false ->
      P r (replace_aux 0 r old new) ->
      P (c :: r) (c :: replace_aux 0 r old new)) ->
  forall s, P s (replace_aux 0 s old new).
Proof.
  intros Hold Hnil Hmatch Hstep s.
  remember (length s) as n eqn:Hn. revert s Hn.
  induction n as [n IH] using lt_wf_ind. intros [|c r] Hn; [exact Hnil|].
  destruct (startswith (c :: r) old) eqn:Hs.
  - rewrite (replace_aux_match _ _ _ Hold Hs).
    pose proof Hs as Hs'. apply startswith_spec in Hs' as [rest Hrest].
    rewrite Hrest, drop_app_length. apply Hmatch.
    apply (IH (length rest)); [|reflexivity].
    subst n. rewrite Hrest, length_app. destruct old; [congruence | simpl; lia].
  - rewrite (replace_aux_step _ _ _ _ Hs). apply Hstep; [exact Hs|].
    apply (IH (length r)); [subst n; simpl; lia | reflexivity].
Qed.

Lemma replace_nonempty (s old new : str) :
  old <> [] -> replace s old new = replace_aux 0 s old new.
Proof. destruct old; [congruence | reflexivity]. Qed.

Lemma replace_length (s old new : str) :
  old <> [] -> length new <= length old -> length (replace s old new) <= length s.
Proof.
  intros Hold Hlen. rewrite (replace_nonempty _ _ _ Hold).
  pattern s, (replace_aux 0 s old new). apply replace_ind; [exact Hold| | |].
  - reflexivity.
  - intros rest IH. rewrite !length_app. lia.
  - intros c r _ IH. simpl. lia.
Qed.

(** Replacing keeps the characters of a class of which [old] and [new]
    hold the same ones. *)
Lemma replace_filter (keep : N -> bool) (s old new : str) :
  old <> [] -> filter keep new = filter keep old ->
  filter keep (replace s old new) = filter keep s.
Proof.
  intros Hold Hk. rewrite (replace_nonempty _ _ _ Hold).
  pattern s, (replace_aux 0 s old new). apply replace_ind; [exact Hold| | |].
  - reflexivity.
  - intros rest IH. now rewrite !filter_app, IH, Hk.
  - intros c r _ IH. rewrite !filter_cons, IH. reflexivity.
Qed.

Lemma replace_forallb (f : N -> bool) (s old new : str) :
  old <> [] -> forallb f new = true -> forallb f s = true ->
  forallb f (replace s old new) = true.
Proof.
  intros Hold Hnew. rewrite (replace_nonempty _ _ _ Hold).
  pattern s, (replace_aux 0 s old new). apply replace_ind; [exact Hold| | |].
  - reflexivity.
  - intros rest IH. rewrite !forallb_app. intros [_ H]%andb_true_iff.
    now rewrite Hnew, IH.
  - intros c r _ IH. simpl. intros [-> H]%andb_true_iff. auto.
Qed.

Lemma single_spaced_weaken (b : bool) (s : str) :
  single_spaced b s = true -> single_spaced false s = true.
Proof.
  destruct s as [|c s]; simpl; [reflexivity|].
  intros [_ H]%andb_true_iff. exact H.
Qed.

Lemma single_spaced_app (b : bool) (a s : str) :
  single_spaced b (a ++ s) = true -> single_spaced false s = true.
Proof.
  revert b. induction a as [|c a IH]; intros b; simpl.
  - apply single_spaced_weaken.
  - intros [_ H]%andb_true_iff. eapply IH, H.
Qed.

Lemma single_spaced_solid (b : bool) (a s : str) :
  a <> [] -> forallb (fun c => negb (isspace c)) a = true ->
  single_spaced false s = true -> single_spaced b (a ++ s) = true.
Proof.
  intros Ha Hsolid Hs. revert b. induction a as [|c a IH]; intros b; [congruence|].
  simpl in Hsolid. apply andb_true_iff in Hsolid as [Hc Hsolid].
  apply negb_true_iff in Hc. simpl. rewrite Hc, andb_false_r. simpl.
  destruct a as [|d a]; [exact Hs|]. apply IH; [discriminate | exact Hsolid].
Qed.

(** Replacing by a text without whitespace brings no two whitespace
    characters together. *)
Lemma replace_single_spaced (s old new : str) :
  old <> [] -> new <> [] -> forallb (fun c => negb (isspace c)) new = true ->
  forall b, single_spaced b s = true -> single_spaced b (replace s old new) = true.
Proof.
  intros Hold Hnew Hsolid. rewrite (replace_nonempty _ _ _ Hold).
  pattern s, (replace_aux 0 s old new). apply replace_ind; [exact Hold| | |].
  - reflexivity.
  - intros rest IH b H. apply single_spaced_solid; [exact Hnew | exact Hsolid|].
    apply IH. eapply single_spaced_app, H.
  - intros c r _ IH b. simpl. intros [-> H]%andb_true_iff. simpl. auto.
Qed.

End StripFacts.

(** ** [remove_formatting] *)

Section RemoveFormatting.
Import Py Re.

Lemma sub_spaces_length (s : str) : forall b, length (sub_spaces b s) <= length s.
Proof.
  induction s as [|c s IH]; intros b; simpl; [lia|].
  pose proof (IH true). pose proof (IH false).
  destruct (isspace c); [destruct b|]; simpl; lia.
Qed.

Lemma sub_spaces_filter (keep : N -> bool) (s : str) :
  (forall c, isspace c = true -> keep c = false) ->
  forall b, filter keep (sub_spaces b s) = filter keep s.
Proof.
  intros Hk. induction s as [|c s IH]; intros b; simpl; [reflexivity|].
  destruct (isspace c) eqn:Hc.
  - rewrite (filter_cons _ c), (Hk c Hc). simpl.
    destruct b; [apply IH|].
    rewrite filter_cons, (Hk SP eq_refl). simpl. apply IH.
  - rewrite !filter_cons, IH. reflexivity.
Qed.

Lemma sub_spaces_plain (s : str) : forall b, plain_spaces (sub_spaces b s) = true.
Proof.
  unfold plain_spaces.
  induction s as [|c s IH]; intros b; simpl; [reflexivity|].
  destruct (isspace c) eqn:Hc; [destruct b|]; simpl; rewrite ?Hc; simpl; auto.
Qed.

Lemma sub_spaces_single (s : str) : forall b, single_spaced b (sub_spaces b s) = true.
Proof.
  induction s as [|c s IH]; intros b; simpl; [reflexivity|].
  destruct (isspace c) eqn:Hc; [destruct b|]; simpl; rewrite ?Hc, ?andb_false_r; simpl; auto.
Qed.

Lemma remove_formatting_keeps (s : str) :
  filter non_space (remove_formatting s) = filter non_space s.
Proof.
  unfold remove_formatting.
  assert (Hspace : forall c, isspace c = true -> non_space c = false)
    by (intros c Hc; unfold non_space; now rewrite Hc).
  rewrite !replace_filter by (discriminate || reflexivity).
  rewrite (sub_spaces_filter _ _ Hspace).
  rewrite !replace_filter by (discriminate || reflexivity). reflexivity.
Qed.

(** A text with a character that is not whitespace keeps one. *)
Lemma remove_formatting_solid (s : str) :
  existsb non_space s = true -> remove_formatting s <> [].
Proof.
  intros Hs Hnil. pose proof (remove_formatting_keeps s) as Hf.
  rewrite Hnil in Hf. apply existsb_exists in Hs as (c & Hin & Hc).
  assert (Hc' : c ∈ filter non_space s).
  { apply list_elem_of_filter. split; [now apply Is_true_true | now apply list_elem_of_In]. }
  rewrite <- Hf in Hc'. inversion Hc'.
Qed.

(** X6: [remove_formatting] changes whitespace only: the other characters
    come out as they went in, in order.  The result is never longer
    than the input, its only whitespace character is the plain space,
    and no two spaces stand together. *)
Theorem remove_formatting_normal_form (s : str) :
  filter non_space (remove_formatting s) = filter non_space s
  /\ length (remove_formatting s) <= length s
  /\ plain_spaces (remove_formatting s) = true
  /\ single_spaced false (remove_formatting s) = true.
Proof.
  unfold remove_formatting.
  set (s1 := replace (replace (replace s [10%N] (py " ")) [9%N] (py " "))
               [13%N] (py " ")).
  set (s2 := sub_spaces false s1).
  split; [apply remove_formatting_keeps|]. split; [|split].
  - assert (H1 : length s1 <= length s).
    { subst s1.
      etransitivity; [apply replace_length; [discriminate | simpl; lia]|].
      etransitivity; [apply replace_length; [discriminate | simpl; lia]|].
      apply replace_length; [discriminate | simpl; lia]. }
    assert (H2 : length s2 <= length s1) by apply sub_spaces_length.
    etransitivity; [apply replace_length; [discriminate | simpl; lia]|].
    etransitivity; [apply replace_length; [discriminate | simpl; lia]|].
    etransitivity; [apply replace_length; [discriminate | simpl; lia]|]. lia.
  - unfold plain_spaces.
    repeat (apply replace_forallb; [discriminate | reflexivity |]).
    apply sub_spaces_plain.
  - repeat (apply replace_single_spaced; [discriminate | discriminate | reflexivity |]).
    apply sub_spaces_single.
Qed.

End RemoveFormatting.

(** ** Test tags and trailing comments *)

Section AnswerCleaning.
Import Py Re.

Lemma contains_false (s sub : str) : contains s sub = false <-> find s sub = None.
Proof. unfold contains. destruct (find s sub); split; congruence. Qed.

(** Before the first occurrence there is none. *)
Lemma find_take (s sub : str) (i : nat) :
  sub <> [] -> find s sub = Some i -> find (take i s) sub = None.
Proof.
  intros Hsub Hf. destruct (find (take i s) sub) as [k|] eqn:Hk; [|reflexivity].
  exfalso. pose proof (find_some_bound _ _ _ Hk) as Hb.
  apply find_some in Hk as [Hk _]. apply find_some in Hf as [_ Hf].
  assert (Hlen : length (take i s) <= i) by (rewrite length_take; lia).
  assert (Hpos : 0 < length sub) by (destruct sub; [congruence | simpl; lia]).
  assert (Hk' : startswith (drop k s) sub = true).
  { apply startswith_spec in Hk as [r Hr]. apply startswith_spec.
    exists (r ++ drop i s). rewrite app_assoc, <- Hr.
    rewrite <- (take_drop i s) at 1. apply drop_app_le. lia. }
  rewrite Hf in Hk' by lia. discriminate.
Qed.

(** X7: the answer [extract_test] returns is the reply up to its first test
    tag, and holds no test tag; the test it returns has no whitespace at
    either end; a reply without a test tag is returned whole. *)
Theorem extract_test_answer (answer : str) :
  (exists tail, answer = snd (extract_test answer) ++ tail)
  /\ contains (snd (extract_test answer)) (py "<test") = false
  /\ strip (fst (extract_test answer)) = fst (extract_test answer)
  /\ (contains answer (py "<test") = false -> extract_test answer = ([], answer)).
Proof.
  unfold extract_test.
  destruct (find answer (py "<test")) as [i|] eqn:Hf; cbn [fst snd].
  - split; [exists (drop i answer); symmetry; apply take_drop|].
    split; [apply contains_false, find_take; [discriminate | exact Hf]|].
    split; [apply strip_idem|].
    intros Hc. apply contains_false in Hc. congruence.
  - split; [exists []; now rewrite app_nil_r|].
    split; [now apply contains_false|]. split; reflexivity.
Qed.

Lemma comment_tail_ws (ws b : str) (st : nat) :
  st = 0 \/ st = 3 -> forallb isspace ws = true ->
  comment_tail st (ws ++ b) = comment_tail st b.
Proof.
  intros Hst. induction ws as [|c ws IH]; [reflexivity|]. simpl.
  intros [Hc Hws]%andb_true_iff. destruct Hst as [-> | ->]; rewrite Hc; auto.
Qed.

Lemma comment_tail_0_3 (b : str) : comment_tail 0 b = true -> comment_tail 3 b = true.
Proof.
  induction b as [|c b IH]; simpl; [discriminate|].
  destruct (isspace c); [exact IH | auto].
Qed.

Lemma comment_tail_app (a : str) : forall st b,
  comment_tail st a = true -> comment_tail 3 b = true ->
  comment_tail st (a ++ b) = true.
Proof.
  induction a as [|c a IH]; intros st b Ha Hb.
  - simpl in Ha. apply Nat.eqb_eq in Ha. now subst st.
  - destruct st as [|[|[|[|st]]]]; simpl in *.
    + destruct (isspace c); [auto|]. destruct (N.eqb c 91); [auto | discriminate].
    + destruct (N.eqb c 93); [discriminate | auto].
    + destruct (N.eqb c 93); auto.
    + destruct (isspace c); [auto|]. destruct (N.eqb c 91); [auto | discriminate].
    + destruct (N.eqb c 93); auto.
Qed.

Lemma search_comment_some (s : str) : forall p k,
  search_comment p s = Some k ->
  p <= k /\ comment_tail 0 (drop (k - p) s) = true
  /\ forall j, j < k - p -> comment_tail 0 (drop j s) = false.
Proof.
  induction s as [|c s IH]; intros p k.
  - simpl. discriminate.
  - cbn [search_comment]. destruct (comment_tail 0 (c :: s)) eqn:Hc.
    + intros [= <-]. rewrite Nat.sub_diag. repeat split; [lia | exact Hc|].
      intros j Hj. lia.
    + intros H. apply IH in H as (H1 & H2 & H3). repeat split; [lia| |].
      * replace (k - p) with (S (k - S p)) by lia. exact H2.
      * intros [|j] Hj; [exact Hc|]. apply H3. lia.
Qed.

Lemma search_comment_none (s : str) : forall p,
  search_comment p s = None -> forall j, comment_tail 0 (drop j s) = false.
Proof.
  induction s as [|c s IH]; intros p.
  - intros _ j. now rewrite drop_nil.
  - cbn [search_comment]. destruct (comment_tail 0 (c :: s)) eqn:Hc; [discriminate|].
    intros H [|j]; [exact Hc|]. apply (IH _ H).
Qed.

(** What is left once a trailing comment has been cut off ends with no
    comment. *)
Lemma cut_comment_none (answer : str) (start : nat) :
  search_comment 0 answer = Some start ->
  search_comment 0 (rstrip (take start answer)) = None.
Proof.
  intros Hs. apply search_comment_some in Hs as (_ & Hat & Hbefore).
  rewrite Nat.sub_0_r in *.
  destruct (search_comment 0 (rstrip (take start answer))) as [p|] eqn:Hp;
    [|reflexivity].
  exfalso. apply search_comment_some in Hp as (_ & Hp & _).
  rewrite Nat.sub_0_r in Hp.
  destruct (rstrip_prefix (take start answer)) as (ws & Hws & Hblank).
  set (R := rstrip (take start answer)) in *.
  assert (HpR : p < length R).
  { destruct (Nat.lt_ge_cases p (length R)) as [|Hge]; [assumption|].
    rewrite drop_ge in Hp by exact Hge. discriminate. }
  assert (Hstart : length R <= start).
  { apply (f_equal length) in Hws. rewrite length_app, length_take in Hws. lia. }
  assert (Hp' : comment_tail 0 (drop p answer) = true).
  { rewrite <- (take_drop start answer), Hws, <- app_assoc.
    rewrite drop_app_le by lia. apply comment_tail_app; [exact Hp|].
    rewrite comment_tail_ws by auto. now apply comment_tail_0_3. }
  rewrite Hbefore in Hp' by lia. discriminate.
Qed.

(** The tidying step that the state machine and the response processor
    share: strip the end, strip leading newlines, cut a trailing
    bracketed comment and strip the end again.  The result is a
    contiguous piece of the text, ends without whitespace, starts with
    no newline and ends with no bracketed comment. *)
Lemma tidy_facts (x : str) :
  let answer := lstrip_by (N.eqb 10) (rstrip x) in
  let r := match search_comment 0 answer with
           | Some start => rstrip (take start answer)
           | None => answer
           end in
  (exists a b, x = a ++ r ++ b)
  /\ rstrip r = r
  /\ head r <> Some 10%N
  /\ search_comment 0 r = None.
Proof.
  intros answer r.
  destruct (rstrip_prefix x) as (ws & Hx & _).
  destruct (lstrip_by_suffix (N.eqb 10) (rstrip x)) as (nl & Hnl & _).
  fold answer in Hnl.
  assert (Hanswer : rstrip answer = answer)
    by (apply lstrip_rstrip_fix, rstrip_idem).
  assert (Hhead : head answer <> Some 10%N).
  { destruct answer as [|c t] eqn:Ha; [discriminate|].
    apply lstrip_by_head in Ha. simpl. intros [= ->]. discriminate. }
  subst r. destruct (search_comment 0 answer) as [start|] eqn:Hs.
  - destruct (rstrip_prefix (take start answer)) as (ws' & Hcut & _).
    split; [|split; [|split]].
    + exists nl, (ws' ++ drop start answer ++ ws).
      rewrite Hx at 1. rewrite Hnl at 1.
      rewrite <- (take_drop start answer) at 1. rewrite Hcut at 1.
      now rewrite <- !app_assoc.
    + apply rstrip_idem.
    + destruct (rstrip (take start answer)) as [|c t] eqn:Hr; [discriminate|].
      simpl. intros [= ->]. apply Hhead.
      destruct answer as [|d u]; [destruct start; discriminate|].
      destruct start; [discriminate|]. simpl in Hcut. now injection Hcut as ->.
    + now apply cut_comment_none.
  - split; [|split; [|split]]; auto.
    exists nl, ws. rewrite Hx at 1. rewrite Hnl at 1. now rewrite <- app_assoc.
Qed.

(** X8: the answer the state machine takes from a reply is a contiguous
    piece of the reply; it ends without whitespace, starts with no
    newline, and no longer ends with a bracketed comment. *)
Theorem clean_answer_tidy (text : str) :
  (exists a b, text = a ++ clean_answer text ++ b)
  /\ rstrip (clean_answer text) = clean_answer text
  /\ head (clean_answer text) <> Some 10%N
  /\ search_comment 0 (clean_answer text) = None.
Proof.
  unfold clean_answer.
  destruct (tidy_facts (snd (extract_test text))) as ((a & b & Hpiece) & H2 & H3 & H4).
  split; [|auto].
  assert (Hpre : exists tail, text = snd (extract_test text) ++ tail).
  { unfold extract_test. destruct (find text (py "<test")) as [i|]; cbn [snd].
    - exists (drop i text). symmetry. apply take_drop.
    - exists []. now rewrite app_nil_r. }
  destruct Hpre as [tail Htail].
  exists a, (b ++ tail). rewrite Htail at 1. rewrite Hpiece at 1.
  now rewrite <- !app_assoc.
Qed.

(** X9: [process_response] reports failure exactly for a message without
    content or with an empty text, and then returns the empty string.
    Otherwise it reports success, and the answer is the previous
    context followed by a contiguous piece of the text that ends without
    whitespace, starts with no newline and ends with no bracketed
    comment; for a text of whitespace only that piece is empty. *)
Theorem process_response_outcome (m : message) (previous_context : str) :
  match msg_content m with
  | None | Some [] => process_response m previous_context = ([], false)
  | Some text =>
      exists cleaned,
        process_response m previous_context = (previous_context ++ cleaned, true)
        /\ (exists a b, text = a ++ cleaned ++ b)
        /\ rstrip cleaned = cleaned
        /\ head cleaned <> Some 10%N
        /\ search_comment 0 cleaned = None
        /\ (blank text = true -> cleaned = [])
  end.
Proof.
  unfold process_response. destruct (msg_content m) as [[|c text]|]; try reflexivity.
  pose proof (tidy_facts (c :: text)) as H. cbv zeta in H.
  destruct H as (H1 & H2 & H3 & H4).
  eexists. split; [|split; [exact H1 | split; [exact H2 | split; [exact H3 | split; [exact H4|]]]]].
  - destruct previous_context; reflexivity.
  - intros Hb. unfold blank in Hb. rewrite (rstrip_blank _ Hb). reflexivity.
Qed.

End AnswerCleaning.

(** ** The chunk state machine *)

Section MachineFacts.
Import Py Re.

Variable cfg : translation_config.
Variable hebrew_ranges : list (N * N).
Variable isalnum : N -> bool.
Variable lower : str -> str.
Variable json_dump : saved_data -> str.
Variable json_load : str -> exn + saved_data.
Variable system_text : str -> lang_config -> bool -> str -> str -> str.
Variable api_log_entry : option (str * str) -> message -> str.

(** X10: the temperature of every request lies between 0 and 1, whatever the
    attempt, when the configured default is not negative. *)
Theorem temperature_in_range (problematic : bool) (attempt : nat) :
  (0 <= default_temperature cfg)%Q ->
  (0 <= temperature cfg problematic attempt)%Q
  /\ (temperature cfg problematic attempt <= 1)%Q.
Proof.
  intros Hd. unfold temperature. destruct problematic.
  - destruct attempt; split; discriminate.
  - set (t := Qplus (default_temperature cfg)
                (Qmult (3 # 10) (inject_Z (Z.of_nat attempt)))).
    assert (Ht : (0 <= t)%Q).
    { subst t. rewrite <- (Qplus_0_l 0). apply Qplus_le_compat; [exact Hd|].
      apply Qmult_le_0_compat; [discriminate|].
      change 0%Q with (inject_Z 0). rewrite <- Zle_Qle. lia. }
    destruct (Qle_bool t 1) eqn:Hle.
    + split; [exact Ht | now apply Qle_bool_iff].
    + split; discriminate.
Qed.

Lemma contains_app (a sub b : str) : sub <> [] -> contains (a ++ sub ++ b) sub = true.
Proof.
  intros Hsub. unfold contains.
  destruct (find (a ++ sub ++ b) sub) eqn:Hf; [reflexivity|].
  pose proof (find_none _ _ Hsub Hf (length a)) as H.
  rewrite drop_app_length, startswith_app in H. discriminate.
Qed.

Lemma endswith_app (a suffix : str) : endswith (a ++ suffix) suffix = true.
Proof. unfold endswith. rewrite rev_app_distr. apply startswith_app. Qed.

Lemma recovery_fragment_shape (kept future name : str) :
  contains (recovery_fragment kept future name) incomplete_marker = true
  /\ endswith (recovery_fragment kept future name) (py "</body>") = true
  /\ recovery_fragment kept future name <> [].
Proof.
  split; [|split].
  - unfold recovery_fragment.
    change (py "<incomplete-translation></incomplete-translation>")
      with (incomplete_marker ++ py "</incomplete-translation>").
    rewrite <- (app_assoc incomplete_marker).
    rewrite (app_assoc kept), (app_assoc (kept ++ _)), (app_assoc ((kept ++ _) ++ _)).
    apply contains_app. discriminate.
  - unfold recovery_fragment.
    change (py "Our Site in Multiple Languages</a></div></body>")
      with (py "Our Site in Multiple Languages</a></div>" ++ py "</body>").
    rewrite !app_assoc. apply endswith_app.
  - unfold recovery_fragment. intros H. apply (f_equal length) in H.
    rewrite !length_app in H. simpl in H. lia.
Qed.

(** X11: whenever the exception handler gives up with the degraded fragment,
    recovery is on, the chunk has a checkpoint file or some accepted
    translation, and the fragment carries the incomplete-translation
    marker that the callers test for, and ends with the closing body
    tag. *)
Theorem recovery_fragment_marked (language : str) (lc : lang_config)
    (destination_path : str) (attempt : nat) (e : exn) (m : option message)
    (l : locals) (w : world) (t : str) :
  handle_exception cfg language lc destination_path attempt e m l w = Fragment t ->
  recovery_mode cfg = true
  /\ (exists_path w (json_path destination_path) = true \/ chunk_translation l <> [])
  /\ contains t incomplete_marker = true
  /\ endswith t (py "</body>") = true.
Proof.
  unfold handle_exception.
  destruct e; try discriminate;
    (destruct (_ || _ || _)%bool;
     [ destruct (recovery_mode cfg) eqn:Hr; [|discriminate];
       destruct (exists_path w (json_path destination_path)) eqn:Hj; simpl;
       [ intros [= <-]; repeat split; auto; apply recovery_fragment_shape
       | destruct (bool_decide (chunk_translation l = [])) eqn:Hc; simpl;
         [ discriminate
         | intros [= <-]; apply bool_decide_eq_false in Hc;
           repeat split; auto; apply recovery_fragment_shape ] ]
     | repeat match goal with
              | |- context [match ?x with _ => _ end] => destruct x
              end; discriminate ]).
Qed.

Lemma chunk_in_app (c : chunk) (es es' : list chunk_entry) :
  chunk_in c (es ++ es') = chunk_in c es || chunk_in c es'.
Proof. unfold chunk_in. apply existsb_app. Qed.

Lemma update_saved_holds (c : chunk) (t : str) (position : nat) (lo : str)
    (chunk_end : nat) (s sd : saved_data) :
  update_saved c t position lo chunk_end s = (None, sd) ->
  (chunk_in c (sd_chunks s) = false -> length (sd_translations s) = fst c) ->
  chunk_in c (sd_chunks sd) = true /\ sd_translations sd !! fst c = Some t.
Proof.
  unfold update_saved. destruct (chunk_in c (sd_chunks s)) eqn:Hin.
  - destruct (Nat.ltb_spec (fst c) (length (sd_translations s))) as [Hlt|];
      [|discriminate].
    intros [= <-] _. simpl. split; [exact Hin|].
    now apply list_lookup_insert_eq.
  - intros [= <-] Hlen. simpl. split.
    + rewrite chunk_in_app. apply orb_true_iff. right. simpl.
      now rewrite bool_decide_eq_true_2.
    + rewrite lookup_app_r by (rewrite Hlen; lia).
      rewrite Hlen by reflexivity. now rewrite Nat.sub_diag.
Qed.

(** X12: a chunk that has completed is not translated again: once
    [accept_increment] has written the checkpoint, a later call for the
    same chunk finds the chunk in the checkpoint file and returns the
    stored translation at once, the translation that was returned on
    completion.  (The chunk's index is the number of translations the
    checkpoint held when the chunk was first recorded, and the [json]
    library reads the dumped dictionary back.) *)
Theorem completed_chunk_is_resumed (c : chunk) (lc : lang_config)
    (context destination_path : str) (problematic : bool) (m : message)
    (answer : str) (position : nat) (lo : str) (l : locals) (w w' : world) (t : str) :
  accept_increment cfg json_dump c destination_path m answer position lo l w
    = (Completed t, w') ->
  (chunk_in c (sd_chunks (saved l)) = false ->
   length (sd_translations (saved l)) = fst c) ->
  (forall sd,
     update_saved c t position lo (chunk_end_position l) (saved l) = (None, sd) ->
     json_load (json_dump (with_chunk_end sd)) = inr (with_chunk_end sd)) ->
  resume cfg json_load c lc context destination_path problematic w'
    = inr (inl (t, problematic)).
Proof.
  unfold accept_increment.
  destruct (update_saved _ _ _ _ _ _) as [[e|] sd] eqn:Hup; [discriminate|].
  destruct (chunk_complete _ _ _ _); [|discriminate].
  destruct (snd c); [discriminate|].
  intros [= <- <-] Hidx Hjson. specialize (Hjson sd Hup).
  destruct (update_saved_holds _ _ _ _ _ _ _ Hup Hidx) as [Hin Hlook].
  unfold resume. cbn [fs]. rewrite save_final_state_written, Hjson.
  cbn [sd_chunks sd_translations with_chunk_end].
  rewrite chunk_in_app, Hin, Hlook, last_snoc. reflexivity.
Qed.


Lemma solid_of_rstrip (s : str) :
  s <> [] -> rstrip s = s -> existsb non_space s = true.
Proof.
  intros Hne Hfix. destruct (existsb non_space s) eqn:He; [reflexivity|].
  exfalso. apply Hne. rewrite <- Hfix. apply rstrip_blank.
  clear Hne Hfix. induction s as [|c s IH]; [reflexivity|]. simpl in *.
  apply orb_false_iff in He as [Hc He]. unfold non_space in Hc.
  apply negb_false_iff in Hc. rewrite Hc. auto.
Qed.

Lemma clean_answer_fix (text : str) : rstrip (clean_answer text) = clean_answer text.
Proof. apply (tidy_facts (snd (extract_test text))). Qed.

(** An answer that passes the checks holds a character that is not
    whitespace. *)
Lemma check_answer_solid (language : str) (lc : lang_config) (chunk_text : str)
    (html_structure : list token) (m : message) (l : locals) (answer : str) :
  check_answer hebrew_ranges isalnum lower language lc chunk_text html_structure m l
    = inr answer ->
  existsb non_space answer = true.
Proof.
  unfold check_answer.
  set (cleaned := match msg_content m with Some t => clean_answer t | None => [] end).
  assert (Hsolid : cleaned <> [] -> existsb non_space cleaned = true).
  { intros Hne. apply solid_of_rstrip; [exact Hne|]. subst cleaned.
    destruct (msg_content m); [apply clean_answer_fix | congruence]. }
  destruct cleaned as [|c a] eqn:Hc.
  - destruct (index html_structure _); discriminate.
  - specialize (Hsolid ltac:(discriminate)).
    set (answer0 := (match previous_context l with [] => answer_start l | _ => [] end)
                    ++ c :: a) in *.
    set (answer1 := match msg_stop_reason m with
                    | stop_sequence => answer0 ++ py "</body>"
                    | _ => answer0
                    end) in *.
    assert (H1 : existsb non_space answer1 = true).
    { assert (H0 : existsb non_space answer0 = true)
        by (subst answer0; rewrite existsb_app, Hsolid; apply orb_true_r).
      subst answer1. destruct (msg_stop_reason m); rewrite ?existsb_app, H0; reflexivity. }
    destruct (contains_hebrew hebrew_ranges answer1); [|discriminate].
    destruct (abnormal_repetitions isalnum lower answer1 _); [|discriminate].
    destruct (_ && _)%bool; [discriminate|]. now intros [= <-].
Qed.

Lemma validate_answer_extends (html_structure : list token) (answer : str)
    (l : locals) (answer' : str) (p : nat) (lo : str) :
  validate_answer html_structure answer l = inr (answer', p, lo) ->
  exists tail, answer' = answer ++ tail.
Proof.
  unfold validate_answer.
  destruct (validate_html_structure _ _ _ _) as [e|[p0 lo0]]; [discriminate|].
  destruct (take _ _); [|destruct lo0; [destruct (forallb _ _)|]];
    intros [= <- <- <-]; eauto; exists []; now rewrite app_nil_r.
Qed.

(** A translation returned on completion is never empty. *)
Lemma attempt_body_completed (c : chunk) (language : str) (lc : lang_config)
    (hebrew_context destination_path : str) (html_structure : list token)
    (problematic new_model : bool) (attempt : nat) (l : locals)
    (script script' : list api_result) (w w' : world) (t : str) :
  attempt_body cfg hebrew_ranges isalnum lower json_dump system_text api_log_entry
    c language lc hebrew_context destination_path html_structure
    problematic new_model attempt l script w = (Completed t, script', w') ->
  t <> [].
Proof.
  unfold attempt_body. destruct (bool_decide _); [discriminate|].
  destruct (create_translation_message _ _ _) as [[[m|e|] s1] w1]; try discriminate.
  destruct (check_answer _ _ _ _ _ _ _ _ _) as [[wm e]|answer] eqn:Hcheck;
    [discriminate|].
  apply check_answer_solid in Hcheck.
  destruct (validate_answer _ _ _) as [e|[[answer' p] lo]] eqn:Hval; [discriminate|].
  apply validate_answer_extends in Hval as [tail ->].
  unfold accept_increment.
  destruct (update_saved _ _ _ _ _ _) as [[e|] sd]; [discriminate|].
  destruct (chunk_complete _ _ _ _); [|discriminate].
  destruct (snd c); [discriminate|].
  intros [= <- _ _] Hnil. apply app_eq_nil in Hnil as [_ Hnil].
  revert Hnil. apply remove_formatting_solid.
  rewrite existsb_app, Hcheck. reflexivity.
Qed.

(** How the exception handler can end: the fragment is the recovery
    fragment, and a retry is granted before the last attempt only. *)
Lemma handle_exception_cases (language : str) (lc : lang_config)
    (destination_path : str) (attempt : nat) (e : exn) (m : option message)
    (l : locals) (w : world) :
  match handle_exception cfg language lc destination_path attempt e m l w with
  | Fragment t =>
      exists kept, t = recovery_fragment kept (lc_future lc) (basename destination_path)
  | Retry _ => S attempt < max_retries cfg
  | Reraise _ => True
  end.
Proof.
  unfold handle_exception.
  destruct e; try exact I;
    (destruct (Nat.leb_spec (max_retries cfg - 1) attempt) as [Hle|Hgt]; cbn [orb];
     [ destruct (_ && _)%bool; [eauto | exact I]
     | destruct (_ || _)%bool;
       [ destruct (_ && _)%bool; [eauto | exact I]
       | cbv zeta;
         match goal with
         | |- context [warning_message ?x] => generalize x
         end;
         intros l0; destruct (warning_message l0);
         [|destruct (contains _ _)]; lia ] ]).
Qed.

(** The loop of attempts never returns an empty response. *)
Lemma attempts_response (c : chunk) (language : str) (lc : lang_config)
    (hebrew_context destination_path : str) (html_structure : list token)
    (problematic new_model : bool) :
  forall fuel attempt l script w t p script' w',
  attempts cfg hebrew_ranges isalnum lower json_dump system_text api_log_entry
    c language lc hebrew_context destination_path html_structure
    problematic new_model fuel attempt l script w = (Return (t, p), script', w') ->
  t <> [].
Proof.
  assert (Hstep : forall attempt l script w t p script' w'
            (rec : nat -> locals -> list api_result -> world ->
                   outcome (str * bool) * list api_result * world)
            (fuel_left : bool),
    (forall a l0 s0 w0, rec a l0 s0 w0 = (Return (t, p), script', w') -> t <> []) ->
    match attempt_body cfg hebrew_ranges isalnum lower json_dump system_text
            api_log_entry c language lc hebrew_context destination_path
            html_structure problematic new_model attempt l script w with
    | (NoResponse, script, w) => (OutOfScript, script, w)
    | (Completed t, script, w) => (Return (t, false), script, w)
    | (NextPart l, script, w) =>
        if fuel_left then
          match start_part cfg lc hebrew_context l with
          | inl e => (Raise e, script, w)
          | inr l => rec 0 l script w
          end
        else (OutOfScript, script, w)
    | (Failed e m l, script, w) =>
        match handle_exception cfg language lc destination_path attempt e m l w with
        | Reraise e => (Raise e, script, w)
        | Fragment t => (Return (t, true), script, w)
        | Retry l =>
            if S attempt <? max_retries cfg then
              if fuel_left then rec (S attempt) l script w
              else (OutOfScript, script, w)
            else (Return ([], true), script, w)
        end
    end = (Return (t, p), script', w') ->
    t <> []).
  { intros attempt l script w t p script' w' rec fuel_left Hrec.
    destruct (attempt_body _ _ _ _ _ _ _ _ _ _ _ _ _ _ _ _ _ _ _)
      as [[r s1] w1] eqn:Hbody.
    destruct r as [t0|l0|e m l0|].
    - intros [= <- <- <- <-]. eapply attempt_body_completed, Hbody.
    - destruct fuel_left; [|discriminate].
      destruct (start_part _ _ _ _); [discriminate | apply Hrec].
    - pose proof (handle_exception_cases language lc destination_path attempt e m l0 w1)
        as Hcases.
      destruct (handle_exception _ _ _ _ _ _ _ _ _) as [e'|t0|l1]; [discriminate| |].
      + intros [= <- <- <- <-]. destruct Hcases as [kept ->].
        apply recovery_fragment_shape.
      + destruct (Nat.ltb_spec (S attempt) (max_retries cfg)) as [_|]; [|lia].
        destruct fuel_left; [apply Hrec | discriminate].
    - discriminate. }
  induction fuel as [|fuel IH]; intros attempt l script w t p script' w' Hrun.
  - apply (Hstep attempt l script w t p script' w'
             (fun _ _ s0 w0 => (OutOfScript, s0, w0)) false); [discriminate|].
    cbn [attempts] in Hrun. rewrite <- Hrun.
    destruct (attempt_body _ _ _ _ _ _ _ _ _ _ _ _ _ _ _ _ _ _ _) as [[[| | |] ?] ?];
      reflexivity.
  - apply (Hstep attempt l script w t p script' w'
             (fun a l0 s0 w0 =>
                attempts cfg hebrew_ranges isalnum lower json_dump system_text
                  api_log_entry c language lc hebrew_context destination_path
                  html_structure problematic new_model fuel a l0 s0 w0) true).
    + intros a l0 s0 w0. apply IH.
    + cbn [attempts] in Hrun. exact Hrun.
Qed.

(** X14: [translate_chunk] never comes back with an empty response, unless it
    is an empty translation read back from the checkpoint file: with at
    least one retry configured, a response is a completed translation or
    the degraded fragment, and neither is empty.  So the last
    statement of the function, which returns the empty string, is not
    reached, and the retry of
    a chunk in [translate_html_file] can only follow an empty
    translation found in the checkpoint. *)
Theorem translate_chunk_response (c : chunk) (language : str) (lc : lang_config)
    (context hebrew_context destination_path : str) (html_structure : list token)
    (problematic new_model : bool) (script script' : list api_result)
    (w w' : world) (t : str) (p : bool) :
  0 < max_retries cfg ->
  translate_chunk cfg hebrew_ranges isalnum lower json_dump json_load
    system_text api_log_entry c language lc context hebrew_context
    destination_path html_structure problematic new_model script w
    = (Return (t, p), script', w') ->
  t <> []
  \/ resume cfg json_load c lc context destination_path problematic w
     = inr (inl (t, p)).
Proof.
  intros Hretries. unfold translate_chunk.
  destruct (overlap_parting cfg); [discriminate|].
  destruct (resume _ _ _ _ _ _ _ _) as [e|[[t0 p0]|l]]; [discriminate| |].
  - intros [= <- <- <- <-]. now right.
  - destruct (max_retries cfg); [lia|].
    destruct (start_part _ _ _ _); [discriminate|].
    intros Hrun. left. eapply attempts_response, Hrun.
Qed.

End MachineFacts.

(** ** Chunks, files and the run *)

Section SplitFacts.

(** X15: before adjustment, the even split cuts the content into
    [len // chunk_max_size + 1] chunks, none longer than
    [chunk_max_size]. *)
Theorem split_chunks_sizes (chunk_max_size : nat) (content : str) :
  0 < chunk_max_size ->
  exists chunks,
    split_chunks chunk_max_size content = inr chunks
    /\ length chunks = length content / chunk_max_size + 1
    /\ Forall (fun c => length (snd c) <= chunk_max_size) chunks.
Proof.
  intros Hsize. unfold split_chunks. destruct chunk_max_size as [|m]; [lia|].
  set (n := length content / S m + 1).
  set (size := length content / n + 1).
  eexists. split; [reflexivity|]. split.
  - now rewrite length_map, length_seq.
  - apply Forall_forall. intros c Hc.
    apply list_elem_of_In, in_map_iff in Hc as (i & <- & _). cbn [snd].
    rewrite length_take.
    assert (Hlt : length content / n < S m).
    { apply Nat.Div0.div_lt_upper_bound.
      pose proof (Nat.div_mod (length content) (S m) ltac:(lia)).
      pose proof (Nat.mod_upper_bound (length content) (S m) ltac:(lia)).
      unfold n. nia. }
    unfold size. lia.
Qed.

End SplitFacts.

Section RunFacts.
Import Py Re.

Variable cfg : translation_config.
Variable hebrew_ranges : list (N * N).
Variable separators : list str.
Variable isalnum : N -> bool.
Variable lower : str -> str.
Variable isdigit : N -> bool.
Variable json_dump : saved_data -> str.
Variable json_load : str -> exn + saved_data.
Variable system_text : str -> lang_config -> bool -> str -> str -> str.
Variable api_log_entry : option (str * str) -> message -> str.
Variable post_process : lang_config -> str -> str.
Variable adjust_script : lang_config -> str -> str.
Variable source_paths : list (str * str).
Variable source_dir : str.
Variable html_code : str.
Variable test_mode : bool.
Variable test_file_count : nat.

Local Abbreviation run_files :=
  (translate_files cfg hebrew_ranges separators isalnum lower json_dump json_load
     system_text api_log_entry post_process adjust_script source_paths source_dir
     html_code test_mode test_file_count).
Local Abbreviation run_file :=
  (process_file cfg hebrew_ranges separators isalnum lower json_dump json_load
     system_text api_log_entry post_process adjust_script test_mode test_file_count).
Local Abbreviation run_website :=
  (translate_website cfg hebrew_ranges separators isalnum lower isdigit json_dump
     json_load system_text api_log_entry post_process adjust_script source_paths
     source_dir html_code test_mode test_file_count).
Local Abbreviation target_of file :=
  (join_path (join_path source_dir html_code) (map_paths source_paths file)).

Lemma filter_split (p : str -> bool) (l : list str) :
  filter (fun f => negb (p f)) l ++ filter p l ≡ₚ l.
Proof.
  induction l as [|x l IH]; [reflexivity|].
  rewrite !filter_cons. destruct (p x); simpl.
  - rewrite <- Permutation_middle. now constructor.
  - now constructor.
Qed.

Lemma filter_ext_in (p q : str -> bool) (l : list str) :
  (forall x, x ∈ l -> p x = q x) -> filter p l = filter q l.
Proof.
  induction l as [|x l IH]; intros H; [reflexivity|].
  rewrite !filter_cons, (H x) by constructor.
  rewrite IH by (intros y Hy; apply H; now constructor). reflexivity.
Qed.

(** X16: the reordering of the directory listing loses and repeats nothing:
    the files to translate are the listed names that end in [.html] or
    [add.js], those without a digit first and those with a digit after,
    each group in listing order. *)
Theorem files_to_translate_order (listing : list str) :
  let files :=
    filter (fun f => endswith f (py ".html") || endswith f (py "add.js")) listing in
  files_to_translate isdigit listing
  = filter (fun f => negb (existsb isdigit f)) files
    ++ filter (fun f => existsb isdigit f) files
  /\ files_to_translate isdigit listing ≡ₚ files.
Proof.
  intros files. unfold files_to_translate. fold files.
  set (plain := filter (fun f => negb (existsb isdigit f)) files).
  assert (Heq : filter (fun f => negb (bool_decide (f ∈ plain))) files
                = filter (fun f => existsb isdigit f) files).
  { apply filter_ext_in. intros f Hf.
    destruct (existsb isdigit f) eqn:Hd.
    - apply negb_true_iff, bool_decide_eq_false. intros Hin.
      apply list_elem_of_filter in Hin as [Hin _]. now rewrite Hd in Hin.
    - apply negb_false_iff, bool_decide_eq_true.
      apply list_elem_of_filter. split; [now rewrite Hd | exact Hf]. }
  rewrite Heq. split; [reflexivity|]. apply filter_split.
Qed.

(** X17: a run over files that are all translated already (a non-empty
    target and no partial file beside it) sends no request and changes
    no file. *)
Theorem finished_site_is_left_alone (language : str) (lc : lang_config)
    (files : list str) (files_processed error_count : nat)
    (last_written : option str) (script : list api_result) (w : world) :
  (forall file, file ∈ files ->
     (exists c r, fs w !! target_of file = Some (c :: r))
     /\ exists_path w (removesuffix (target_of file) (py ".html")
                       ++ py ".partial.html") = false) ->
  run_files files language lc files_processed error_count last_written script w
  = (Return tt, script, w).
Proof.
  induction files as [|file files IH]; intros Hdone; [reflexivity|].
  cbn [translate_files].
  destruct (Hdone file ltac:(constructor)) as [(c & r & Hc) Hp].
  rewrite Hc, Hp. cbn [negb]. apply IH.
  intros f Hf. apply Hdone. now constructor.
Qed.

Lemma endswith_removesuffix (t suffix : str) :
  endswith t suffix = true -> t = removesuffix t suffix ++ suffix.
Proof.
  intros H. unfold removesuffix. rewrite H. unfold endswith in H.
  apply startswith_spec in H as [r Hr].
  apply (f_equal (@rev N)) in Hr. rewrite rev_involutive, rev_app_distr in Hr.
  rewrite rev_involutive in Hr. subst t.
  rewrite length_app, Nat.add_sub, take_app_length. reflexivity.
Qed.

(** X18: when the translation of a page comes back complete (without the
    incomplete-translation marker), the target file holds it and the
    checkpoint, its backup and the partial output are gone; no other
    file is touched after the translation, and no request is sent. *)
Theorem finished_page_is_cleaned_up (language : str) (lc : lang_config)
    (source_file_path target_file : str) (files_processed error_count : nat)
    (last_written : option str) (script script' : list api_result) (w w' : world)
    (content translated : str) :
  fs w !! source_file_path = Some content ->
  endswith target_file (py ".html") = true ->
  translate_html_file cfg hebrew_ranges separators isalnum lower json_dump json_load
    system_text api_log_entry post_process content language lc
    (removesuffix target_file (py ".html")) script w
    = (Return translated, script', w') ->
  contains translated incomplete_marker = false ->
  let destination_path := removesuffix target_file (py ".html") in
  let result :=
    run_file language lc source_file_path target_file files_processed error_count
      last_written script w in
  (result.1.1.1 = Go error_count \/ result.1.1.1 = Stop)
  /\ result.1.2 = script'
  /\ requests result.2 = requests w'
  /\ fs result.2 !! target_file = Some translated
  /\ fs result.2 !! (destination_path ++ py ".json") = None
  /\ fs result.2 !! (destination_path ++ py ".json.old") = None
  /\ fs result.2 !! (destination_path ++ py ".partial.html") = None
  /\ forall path,
       path <> target_file -> path <> destination_path ++ py ".json" ->
       path <> destination_path ++ py ".json.old" ->
       path <> destination_path ++ py ".partial.html" ->
       fs result.2 !! path = fs w' !! path.
Proof.
  intros Hsrc Hhtml Hrun Hwhole destination_path result.
  pose proof (endswith_removesuffix _ _ Hhtml) as Htarget.
  fold destination_path in Htarget, Hrun.
  assert (Hne : forall suffix, suffix <> py ".html" ->
            destination_path ++ suffix <> target_file).
  { intros suffix Hs H. rewrite Htarget in H. now apply app_inv_head in H. }
  subst result. unfold process_file. rewrite Hsrc, Hhtml.
  fold destination_path. rewrite Hrun, Hwhole. rewrite orb_true_r.
  cbn [fst snd fs requests].
  split; [destruct (_ && _)%bool; auto|]. split; [reflexivity|].
  split; [reflexivity|]. split; [apply lookup_insert_eq|].
  split; [|split; [|split]].
  - rewrite lookup_insert_ne by (apply not_eq_sym, Hne; discriminate).
    rewrite lookup_delete_ne, lookup_delete_ne
      by (intros H; apply app_inv_head in H; discriminate).
    apply lookup_delete_eq.
  - rewrite lookup_insert_ne by (apply not_eq_sym, Hne; discriminate).
    rewrite lookup_delete_ne by (intros H; apply app_inv_head in H; discriminate).
    apply lookup_delete_eq.
  - rewrite lookup_insert_ne by (apply not_eq_sym, Hne; discriminate).
    apply lookup_delete_eq.
  - intros path H1 H2 H3 H4.
    rewrite lookup_insert_ne by congruence.
    rewrite !lookup_delete_ne by congruence. reflexivity.
Qed.

Lemma process_file_test_mode (language : str) (lc : lang_config)
    (source_file_path target_file : str) (files_processed error_count : nat)
    (last_written : option str) (script : list api_result) (w : world) :
  test_mode = true -> test_file_count <= S files_processed ->
  forall e,
    (run_file language lc source_file_path target_file files_processed
       error_count last_written script w).1.1.1 <> Propagate e.
Proof.
  intros Hmode Hcount e. unfold process_file. rewrite Hmode.
  replace (test_file_count <=? S files_processed) with true
    by (symmetry; apply Nat.leb_le; exact Hcount).
  cbn [andb].
  destruct (fs w !! source_file_path) as [content|];
    [|cbn [fst]; destruct (if contains _ _ then _ else _); discriminate].
  destruct (endswith target_file (py ".html")).
  - destruct (translate_html_file _ _ _ _ _ _ _ _ _ _ _ _ _ _ _ _)
      as [[[translated|e'|] s1] w1]; cbn [fst].
    + destruct (_ || _)%bool; discriminate.
    + destruct (if contains _ _ then _ else _); discriminate.
    + discriminate.
  - destruct (endswith target_file (py "add.js")); [discriminate|].
    destruct last_written; cbn [fst]; [discriminate|].
    destruct (if contains _ _ then _ else _); discriminate.
Qed.

(** X19: in test mode, once the file count is reached, the [break] in the
    [finally] block discards any exception in flight, the fatal
    ["!Stop!"] included: from the file that reaches the count on, the
    loop over the files never raises. *)
Theorem test_mode_discards_errors (language : str) (lc : lang_config)
    (files : list str) :
  test_mode = true ->
  forall files_processed error_count last_written script w e,
  test_file_count <= S files_processed ->
  (run_files files language lc files_processed error_count last_written script w).1.1
  <> Raise e.
Proof.
  intros Hmode. induction files as [|file files IH];
    intros files_processed error_count last_written script w e Hcount;
    [discriminate|].
  cbn [translate_files].
  destruct (match fs w !! target_of file with Some (_ :: _) => _ | _ => false end).
  - now apply IH.
  - pose proof (process_file_test_mode language lc (join_path source_dir file)
                  (target_of file) files_processed error_count last_written
                  script w Hmode Hcount) as Hno.
    destruct (process_file _ _ _ _ _ _ _ _ _ _ _ _ _ _ _ _ _ _ _ _ _ _)
      as [[[r lw] s1] w1].
    cbn [fst] in Hno. destruct r as [ec| |e'|].
    + apply IH. lia.
    + discriminate.
    + now destruct (Hno e').
    + discriminate.
Qed.

Lemma contains_app_r (a b sub : str) :
  sub <> [] -> contains b sub = true -> contains (a ++ b) sub = true.
Proof.
  intros Hsub. unfold contains.
  destruct (find b sub) as [k|] eqn:Hb; [intros _|discriminate].
  destruct (find (a ++ b) sub) eqn:Hf; [reflexivity|].
  pose proof (find_some_bound _ _ _ Hb) as Hk.
  apply find_some in Hb as [Hb _].
  pose proof (find_none _ _ Hsub Hf (length a + k)) as H.
  rewrite <- drop_drop, drop_app_length, Hb in H. discriminate.
Qed.

(** X20: in recovery mode the degraded fragment ends the document: when a
    chunk comes back with the incomplete-translation marker, the loop
    over the chunks stops there, whatever chunks remain, and no further
    request is sent. *)
Theorem degraded_fragment_ends_document (c : chunk) (chunks : list chunk)
    (language : str) (lc : lang_config) (destination_path : str)
    (html_structure : list token) (d : doc_state)
    (script script' : list api_result) (w w' : world)
    (fragment : str) (problematic : bool) :
  recovery_mode cfg = true ->
  Qeq_bool (lc_multiplier lc) 0 = false ->
  translate_chunk cfg hebrew_ranges isalnum lower json_dump json_load
    system_text api_log_entry c language lc
    (doc_previous_context d) (doc_hebrew_context d) destination_path
    html_structure (doc_problematic d) true script w
    = (Return (fragment, problematic), script', w') ->
  contains fragment incomplete_marker = true ->
  translate_chunks cfg hebrew_ranges isalnum lower json_dump json_load
    system_text api_log_entry (c :: chunks) language lc destination_path
    html_structure d script w
  = (Return (translated_content d ++ fragment), script', w').
Proof.
  intros Hrec Hmult Hrun Hmarked. cbn [translate_chunks]. rewrite Hrun.
  destruct fragment as [|c0 fragment]; [discriminate|].
  cbv beta iota zeta. rewrite Hmult, Hrec.
  assert (Hne : incomplete_marker <> []) by discriminate.
  rewrite (contains_app_r (translated_content d) _ _ Hne Hmarked). reflexivity.
Qed.

(** X21: a page without the headline marker is never translated: it costs no
    request and writes no file, and counts as one failure of the run
    (which, past the error threshold, ends the run). *)
Theorem page_without_headline_fails (language : str) (lc : lang_config)
    (source_file_path target_file : str) (files_processed error_count : nat)
    (last_written : option str) (script : list api_result) (w : world)
    (content : str) :
  fs w !! source_file_path = Some content ->
  endswith target_file (py ".html") = true ->
  contains content headline_marker = false ->
  run_file language lc source_file_path target_file files_processed error_count
    last_written script w
  = (if test_mode && (test_file_count <=? S files_processed) then Stop
     else if Nat.max (files_processed / 8) 4 <? S error_count
          then Propagate (RuntimeError (py "O-: Too many translation errors: "
                                        ++ str_of_Z (Z.of_nat (S error_count))))
          else Go (S error_count),
     last_written, script, w).
Proof.
  intros Hsrc Hhtml Hmarker. unfold process_file. rewrite Hsrc, Hhtml.
  unfold translate_html_file. unfold contains in Hmarker.
  destruct (find content headline_marker); [discriminate|].
  replace (contains (exn_str (ValueError (py "substring not found") None)) (py "!Stop!"))
    with false by reflexivity.
  destruct (_ && _)%bool; [|reflexivity].
  destruct (_ <? _); reflexivity.
Qed.

End RunFacts.

(** ** What the repetition detector reports *)

Section RepetitionOutput.
Import Py.

Variable isalnum : N -> bool.
Variable lower : str -> str.

(** A non-empty result of the scan is the list of repeated words of the
    first window that has more than two of them. *)
Lemma scan_windows_first (words : list str) (asian : bool) (size : nat) :
  forall starts,
  scan_windows starts words asian size <> [] ->
  exists k i,
    starts !! k = Some i
    /\ scan_windows starts words asian size
       = repeated_words (take size (drop i words)) asian
    /\ 2 < length (repeated_words (take size (drop i words)) asian)
    /\ forall j i', j < k -> starts !! j = Some i' ->
         ~ 2 < length (repeated_words (take size (drop i' words)) asian).
Proof.
  induction starts as [|i starts IH]; simpl; [congruence|].
  destruct (Nat.ltb_spec 2 (length (repeated_words (take size (drop i words)) asian)))
    as [Hlt|Hge].
  - intros _. exists 0, i. repeat split; auto. intros j i' Hj. lia.
  - intros Hne. destruct (IH Hne) as (k & i0 & Hk & Heq & Hlen & Hfirst).
    exists (S k), i0. repeat split; auto.
    intros [|j] i' Hj Hi'.
    + injection Hi' as <-. lia.
    + apply (Hfirst j i'); [lia | exact Hi'].
Qed.

Lemma range_lookup (stop k i : nat) :
  range stop 100 !! k = Some i -> i = 100 * k /\ 100 * k < stop.
Proof.
  intros H. assert (Hin : In i (range stop 100))
    by (apply list_elem_of_In; eapply list_elem_of_lookup_2, H).
  unfold range in H. rewrite list_lookup_fmap in H.
  destruct (seq 0 ((stop + 100 - 1) / 100) !! k) as [k'|] eqn:Hk; [|discriminate].
  apply lookup_seq in Hk as [-> _]. injection H as <-.
  apply range_100 in Hin as (k' & Hk' & Hlt). lia.
Qed.

Lemma range_lookup_before (stop k i j : nat) :
  range stop 100 !! k = Some i -> j < k -> range stop 100 !! j = Some (100 * j).
Proof.
  intros H Hj. apply lookup_lt_Some in H. unfold range in *.
  rewrite length_map, length_seq in H.
  rewrite list_lookup_fmap, lookup_seq_lt by lia. simpl. f_equal. lia.
Qed.

(** X22: what [abnormal_repetitions] returns when it flags a text: the words
    that reach the threshold (20 occurrences, 35 for a script without
    word boundaries) in the first examined window that holds more than
    two such words; each is listed once. *)
Theorem abnormal_repetitions_reports (text : str) (asian : bool) :
  let words := words_of isalnum lower text asian in
  let threshold := if asian then 35 else 20 in
  let reported := abnormal_repetitions isalnum lower text asian in
  reported <> [] ->
  exists k,
    100 * k + 200 <= length words
    /\ List.NoDup reported
    /\ 2 < length reported
    /\ (forall w, In w reported <-> threshold <= occurrences w (window k words))
    /\ forall j, j < k -> ~ looping threshold (window j words).
Proof.
  intros words threshold reported Hne. subst reported.
  unfold abnormal_repetitions in *. fold words in Hne |- *.
  change (200 / 2) with 100 in *.
  destruct (scan_windows_first words asian 200 _ Hne)
    as (k & i & Hk & -> & Hlen & Hfirst).
  pose proof (range_lookup _ _ _ Hk) as [-> Hbound].
  exists k. split; [lia|].
  destruct (repeated_words_spec lower (take 200 (drop (100 * k) words)) asian) as [Hnd Hin].
  repeat split; auto; try apply Hin.
  intros j Hj Hloop. apply (Hfirst j (100 * j) Hj).
  - eapply range_lookup_before; eassumption.
  - now apply (repeated_words_looping lower).
Qed.

End RepetitionOutput.

(** ** The checkpoint file: what is dumped is what is loaded *)

Section JsonRoundTrip.
Import Py.

Lemma expect_app (lit r : str) : expect lit (lit ++ r) = Some r.
Proof. unfold expect. now rewrite startswith_app, drop_app_length. Qed.

Lemma hex_value_digit (d : N) : (d < 16)%N -> hex_value (hex_digit d) = Some d.
Proof.
  intros Hd. unfold hex_value, hex_digit.
  destruct (N.ltb_spec d 10).
  - replace ((48 <=? 48 + d) && (48 + d <=? 57))%N with true
      by (symmetry; apply andb_true_iff; split; apply N.leb_le; lia).
    f_equal. lia.
  - replace ((48 <=? 87 + d) && (87 + d <=? 57))%N with false
      by (symmetry; apply andb_false_iff; right; apply N.leb_gt; lia).
    replace ((97 <=? 87 + d) && (87 + d <=? 102))%N with true
      by (symmetry; apply andb_true_iff; split; apply N.leb_le; lia).
    f_equal. lia.
Qed.

Lemma nibbles (n : N) :
  (n < 65536)%N ->
  ((n / 4096) mod 16 * 4096 + (n / 256) mod 16 * 256 + (n / 16) mod 16 * 16
   + n mod 16 = n)%N.
Proof.
  intros Hn.
  pose proof (N.div_mod n 16 ltac:(lia)).
  pose proof (N.div_mod (n / 16) 16 ltac:(lia)).
  pose proof (N.div_mod (n / 16 / 16) 16 ltac:(lia)).
  pose proof (N.mod_lt n 16 ltac:(lia)).
  pose proof (N.mod_lt (n / 16) 16 ltac:(lia)).
  pose proof (N.mod_lt (n / 16 / 16) 16 ltac:(lia)).
  assert (H256 : (n / 256 = n / 16 / 16)%N) by (now rewrite N.Div0.div_div).
  assert (H4096 : (n / 4096 = n / 16 / 16 / 16)%N) by (now rewrite !N.Div0.div_div).
  assert (Hsmall : (n / 16 / 16 / 16 < 16)%N).
  { rewrite <- H4096. apply N.Div0.div_lt_upper_bound. lia. }
  rewrite H256, H4096, (N.mod_small _ _ Hsmall). lia.
Qed.

Lemma parse_units_unicode (n : N) (rest : str) :
  (n < 65536)%N ->
  parse_units (unicode_escape n ++ rest)
  = match parse_units rest with
    | Some (us, r) => Some (n :: us, r)
    | None => None
    end.
Proof.
  intros Hn. unfold unicode_escape, hex4. cbn [app parse_units].
  change (N.eqb 92 34) with false. change (N.eqb 92 92) with true.
  change (N.eqb 117 117) with true. cbv iota.
  rewrite !hex_value_digit by (apply N.mod_lt; lia).
  destruct (parse_units rest) as [[us r]|]; [|reflexivity].
  now rewrite nibbles.
Qed.

Lemma parse_units_simple (e u : N) (rest : str) :
  simple_escape e = Some u -> N.eqb e 117 = false ->
  parse_units (92 :: e :: rest)%N
  = match parse_units rest with
    | Some (us, r) => Some (u :: us, r)
    | None => None
    end.
Proof.
  intros He Hu. cbn [parse_units].
  change (N.eqb 92 34) with false. change (N.eqb 92 92) with true. cbv iota.
  rewrite Hu, He. reflexivity.
Qed.

Lemma parse_units_plain (c : N) (rest : str) :
  (32 <= c)%N -> c <> 34%N -> c <> 92%N ->
  parse_units (c :: rest)
  = match parse_units rest with
    | Some (us, r) => Some (c :: us, r)
    | None => None
    end.
Proof.
  intros H32 H34 H92. cbn [parse_units].
  apply N.eqb_neq in H34, H92. rewrite H34, H92.
  replace (c <? 32)%N with false by (symmetry; apply N.ltb_ge; exact H32).
  reflexivity.
Qed.

(** One escaped character is read back as its code units. *)
Lemma parse_units_escape (c : N) (rest : str) :
  (c < 1114112)%N ->
  parse_units (escape_char c ++ rest)
  = match parse_units rest with
    | Some (us, r) => Some (code_units c ++ us, r)
    | None => None
    end.
Proof.
  intros Hc. unfold escape_char, code_units.
  destruct (N.eqb_spec c 34) as [->|H34];
    [exact (parse_units_simple 34 34 rest eq_refl eq_refl)|].
  destruct (N.eqb_spec c 92) as [->|H92];
    [exact (parse_units_simple 92 92 rest eq_refl eq_refl)|].
  destruct (N.eqb_spec c 10) as [->|H10];
    [exact (parse_units_simple 110 10 rest eq_refl eq_refl)|].
  destruct (N.eqb_spec c 13) as [->|H13];
    [exact (parse_units_simple 114 13 rest eq_refl eq_refl)|].
  destruct (N.eqb_spec c 9) as [->|H9];
    [exact (parse_units_simple 116 9 rest eq_refl eq_refl)|].
  destruct (N.eqb_spec c 8) as [->|H8];
    [exact (parse_units_simple 98 8 rest eq_refl eq_refl)|].
  destruct (N.eqb_spec c 12) as [->|H12];
    [exact (parse_units_simple 102 12 rest eq_refl eq_refl)|].
  destruct ((32 <=? c) && (c <=? 126))%N eqn:Hprintable.
  - apply andb_true_iff in Hprintable as [Hlo Hhi].
    apply N.leb_le in Hlo, Hhi.
    replace (c <? 65536)%N with true by (symmetry; apply N.ltb_lt; lia).
    now apply parse_units_plain.
  - destruct (N.ltb_spec c 65536) as [Hbmp|Hastral].
    + now apply parse_units_unicode.
    + rewrite <- app_assoc.
      pose proof (N.mod_lt (c - 65536) 1024 ltac:(lia)) as Hmod.
      assert (Hdiv : ((c - 65536) / 1024 < 1024)%N)
        by (apply N.Div0.div_lt_upper_bound; lia).
      rewrite parse_units_unicode by lia.
      rewrite parse_units_unicode by lia.
      destruct (parse_units rest) as [[us r]|]; reflexivity.
Qed.

Lemma parse_units_string (s : str) (r : str) :
  valid_str s = true ->
  parse_units (flat_map escape_char s ++ DQ ++ r) = Some (flat_map code_units s, r).
Proof.
  induction s as [|c s IH]; intros Hs.
  - reflexivity.
  - simpl in Hs. apply andb_true_iff in Hs as [Hc Hs].
    cbn [flat_map]. rewrite <- app_assoc, parse_units_escape, (IH Hs); [reflexivity|].
    unfold scalar in Hc. apply orb_true_iff in Hc as [Hc|Hc].
    + apply N.ltb_lt in Hc. lia.
    + apply andb_true_iff in Hc as [_ Hc]. now apply N.ltb_lt in Hc.
Qed.

Lemma join_surrogates_units (c : N) (us : list N) :
  scalar c = true ->
  join_surrogates None (code_units c ++ us) = c :: join_surrogates None us.
Proof.
  intros Hc. unfold code_units, scalar in *.
  destruct (N.ltb_spec c 65536) as [Hbmp|Hastral].
  - cbn [app join_surrogates].
    replace ((55296 <=? c) && (c <? 56320))%N with false; [reflexivity|].
    symmetry. apply andb_false_iff.
    apply orb_true_iff in Hc as [Hc|Hc].
    + left. apply N.leb_gt. now apply N.ltb_lt in Hc.
    + right. apply N.ltb_ge. apply andb_true_iff in Hc as [Hc _].
      apply N.leb_le in Hc. lia.
  - assert (Hc' : (c < 1114112)%N).
    { apply orb_true_iff in Hc as [Hc|Hc].
      - apply N.ltb_lt in Hc. lia.
      - apply andb_true_iff in Hc as [_ Hc]. now apply N.ltb_lt in Hc. }
    pose proof (N.mod_lt (c - 65536) 1024 ltac:(lia)) as Hmod.
    assert (Hdiv : ((c - 65536) / 1024 < 1024)%N)
      by (apply N.Div0.div_lt_upper_bound; lia).
    pose proof (N.div_mod (c - 65536) 1024 ltac:(lia)) as Hdm.
    set (q := ((c - 65536) / 1024)%N) in *.
    set (r := ((c - 65536) mod 1024)%N) in *.
    clearbody q r.
    cbn [app join_surrogates].
    replace ((55296 <=? 55296 + q) && (55296 + q <? 56320))%N with true
      by (symmetry; apply andb_true_iff; split;
          [apply N.leb_le | apply N.ltb_lt]; lia).
    replace ((56320 <=? 56320 + r) && (56320 + r <? 57344))%N with true
      by (symmetry; apply andb_true_iff; split;
          [apply N.leb_le | apply N.ltb_lt]; lia).
    f_equal. lia.
Qed.

Lemma join_surrogates_string (s : str) :
  valid_str s = true -> join_surrogates None (flat_map code_units s) = s.
Proof.
  induction s as [|c s IH]; [reflexivity|]. simpl.
  intros [Hc Hs]%andb_true_iff.
  now rewrite join_surrogates_units, IH.
Qed.

(** A string literal is read back as the string. *)
Lemma parse_string_dump (s r : str) :
  valid_str s = true -> parse_string (json_string s ++ r) = Some (s, r).
Proof.
  intros Hs. unfold parse_string, json_string.
  rewrite <- !app_assoc, expect_app, parse_units_string by exact Hs.
  now rewrite join_surrogates_string.
Qed.

Lemma digits_value_stop (acc : nat) (r : str) :
  no_digit_head r -> digits_value acc r = (acc, r).
Proof. destruct r as [|c r]; simpl; [reflexivity | now intros ->]. Qed.

Lemma digits_value_digit (acc k : nat) (s : str) :
  k < 10 ->
  digits_value acc (N.of_nat (48 + k) :: s) = digits_value (acc * 10 + k) s.
Proof.
  intros Hk. cbn [digits_value].
  replace ((48 <=? N.of_nat (48 + k)) && (N.of_nat (48 + k) <=? 57))%N with true
    by (symmetry; apply andb_true_iff; split; apply N.leb_le; lia).
  f_equal. lia.
Qed.

(** One digit of the numeral: the accumulator takes it in. *)
Ltac read_digit IH acc r Hr k p :=
  let v := fresh "v" in
  let Hv := fresh "Hv" in
  let Hval := fresh "Hval" in
  destruct (IH (acc * 10 + k) r Hr) as (v & Hv & Hval); exists v;
  split; [exact (eq_trans (digits_value_digit acc k _ ltac:(lia)) Hv)|];
  rewrite Hval; simpl; destruct acc as [|acc]; [reflexivity|];
  replace (N.of_nat (S acc * 10 + k)) with (N.pos (p (Pos.of_succ_nat acc))) by lia;
  reflexivity.

(** Reading the digits of a decimal numeral gives the number it
    denotes. *)
Lemma digits_value_uint (d : Decimal.uint) : forall acc r,
  no_digit_head r ->
  exists v,
    digits_value acc (uint_chars d ++ r) = (v, r)
    /\ N.of_nat v = match N.of_nat acc with
                    | 0%N => Pos.of_uint d
                    | N.pos a => N.pos (Pos.of_uint_acc d a)
                    end.
Proof.
  induction d as [|d IH|d IH|d IH|d IH|d IH|d IH|d IH|d IH|d IH|d IH];
    intros acc r Hr.
  - exists acc. split; [now apply digits_value_stop|].
    simpl. now destruct (N.of_nat acc).
  - read_digit IH acc r Hr 0 (fun a => 10 * a)%positive.
  - read_digit IH acc r Hr 1 (fun a => 1 + 10 * a)%positive.
  - read_digit IH acc r Hr 2 (fun a => 2 + 10 * a)%positive.
  - read_digit IH acc r Hr 3 (fun a => 3 + 10 * a)%positive.
  - read_digit IH acc r Hr 4 (fun a => 4 + 10 * a)%positive.
  - read_digit IH acc r Hr 5 (fun a => 5 + 10 * a)%positive.
  - read_digit IH acc r Hr 6 (fun a => 6 + 10 * a)%positive.
  - read_digit IH acc r Hr 7 (fun a => 7 + 10 * a)%positive.
  - read_digit IH acc r Hr 8 (fun a => 8 + 10 * a)%positive.
  - read_digit IH acc r Hr 9 (fun a => 9 + 10 * a)%positive.
Qed.

Lemma uint_chars_head (d : Decimal.uint) :
  d <> Decimal.Nil ->
  exists c s, uint_chars d = c :: s /\ ((48 <=? c) && (c <=? 57))%N = true.
Proof.
  destruct d; [congruence|..]; intros _; eexists _, _; split; reflexivity.
Qed.

(** A number is read back as itself, when what follows is not a digit. *)
Lemma parse_nat_dump (n : nat) (r : str) :
  no_digit_head r -> parse_nat (json_nat n ++ r) = Some (n, r).
Proof.
  intros Hr. unfold json_nat, str_of_Z. destruct n as [|m].
  - change (map _ _) with [48%N]. cbn [app parse_nat].
    change ((48 <=? 48) && (48 <=? 57))%N with true. cbv iota. f_equal.
    transitivity (digits_value (0 * 10 + 0) r);
      [exact (digits_value_digit 0 0 r ltac:(lia)) | now apply digits_value_stop].
  - change (Z.of_nat (S m)) with (Z.pos (Pos.of_succ_nat m)).
    cbn [Z.to_int DecimalString.NilZero.string_of_int].
    set (p := Pos.of_succ_nat m).
    pose proof (DecimalPos.Unsigned.to_uint_nonnil p) as Hnil.
    assert (Hchars : map N_of_ascii
                       (list_ascii_of_string
                          (DecimalString.NilZero.string_of_uint (Pos.to_uint p)))
                     = uint_chars (Pos.to_uint p)).
    { unfold uint_chars, DecimalString.NilZero.string_of_uint.
      destruct (Pos.to_uint p); [congruence|..]; reflexivity. }
    rewrite Hchars.
    destruct (uint_chars_head _ Hnil) as (c & s & Hs & Hc).
    destruct (digits_value_uint (Pos.to_uint p) 0 r Hr) as (v & Hv & Hval).
    unfold parse_nat. rewrite Hs in *. cbn [app]. rewrite Hc. cbn [app] in Hv.
    rewrite Hv. f_equal. f_equal.
    simpl in Hval. rewrite DecimalPos.Unsigned.of_to in Hval. subst p. lia.
Qed.

Lemma expect_mismatch (lit s : str) (a b : N) (lit' s' : str) :
  lit = a :: lit' -> s = b :: s' -> a <> b -> expect lit s = None.
Proof.
  intros -> -> Hab. unfold expect. simpl.
  apply N.eqb_neq in Hab. now rewrite Hab.
Qed.

Lemma json_string_head (s : str) : exists t, json_string s = 34%N :: t.
Proof. unfold json_string. simpl. eauto. Qed.

(** One entry of the chunk list is read back. *)
Lemma parse_entry_dump (e : chunk_entry) (r : str) :
  match e with Entry c => valid_str (snd c) | ChunkEnd => true end = true ->
  parse_entry (json_entry e ++ r) = Some (e, r).
Proof.
  destruct e as [[i t]|]; intros Hv; unfold parse_entry, json_entry, json_list.
  - cbn [fst snd join]. rewrite <- !app_assoc, expect_app.
    rewrite parse_nat_dump by reflexivity.
    rewrite expect_app, parse_string_dump by exact Hv.
    now rewrite expect_app.
  - destruct (json_string_head (py "Chunk End")) as [t Ht]. rewrite Ht.
    rewrite (expect_mismatch (py "[") ((34%N :: t) ++ r) 91 34 [] (t ++ r)
               eq_refl eq_refl) by discriminate.
    rewrite <- Ht.
    rewrite parse_string_dump by reflexivity. reflexivity.
Qed.

Lemma join_cons (sep x : str) (l : list str) :
  join sep (x :: l) = x ++ concat (map (fun y => sep ++ y) l).
Proof.
  revert x. induction l as [|y l IH]; intros x.
  - simpl. now rewrite app_nil_r.
  - change (join sep (x :: y :: l)) with (x ++ sep ++ join sep (y :: l)).
    rewrite IH. simpl. now rewrite <- app_assoc.
Qed.

Lemma expect_end_at_separator (t : str) : expect (py "]") (py ", " ++ t) = None.
Proof. reflexivity. Qed.

Section Lists.
Context {A : Type} (item : str -> option (A * str)) (dump : A -> str).

(** The items after the first, each behind its separator. *)
Lemma parse_more_dump (xs : list A) : forall fuel r,
  Forall (fun x => forall r', item (dump x ++ r') = Some (x, r')) xs ->
  length xs <= fuel ->
  parse_more item fuel (concat (map (fun x => py ", " ++ dump x) xs) ++ py "]" ++ r)
  = Some (xs, r).
Proof.
  induction xs as [|x xs IH]; intros fuel r Hitem Hfuel.
  - cbn [map concat app]. destruct fuel; cbn [parse_more];
      now rewrite (expect_app (py "]")).
  - apply Forall_cons in Hitem as [Hx Hxs].
    destruct fuel as [|fuel]; [simpl in Hfuel; lia|].
    cbn [map concat parse_more]. rewrite <- !app_assoc.
    rewrite expect_end_at_separator, expect_app, Hx, IH; [reflexivity | exact Hxs | simpl in Hfuel; lia].
Qed.

(** A list is read back, when no item begins like the end of a list. *)
Lemma parse_list_dump (xs : list A) (r : str) :
  Forall (fun x => forall r', item (dump x ++ r') = Some (x, r')) xs ->
  Forall (fun x => forall r', expect (py "]") (dump x ++ r') = None) xs ->
  parse_list item (json_list (map dump xs) ++ r) = Some (xs, r).
Proof.
  intros Hitem Hhead. unfold parse_list, json_list.
  rewrite <- !app_assoc, expect_app. destruct xs as [|x xs].
  - cbn [map join app]. now rewrite (expect_app (py "]")).
  - apply Forall_cons in Hitem as [Hx Hxs]. apply Forall_cons in Hhead as [Hh _].
    cbn [map]. rewrite join_cons, <- !app_assoc, Hh, Hx.
    rewrite map_map.
    rewrite (parse_more_dump xs _ r Hxs); [reflexivity|].
    rewrite length_app. clear. induction xs as [|y xs IH]; [simpl; lia|].
    cbn [map concat]. rewrite !length_app in *.
    change (length (py ", ")) with 2. cbn [length]. lia.
Qed.

End Lists.

(** X23: what [json.load] reads from a dumped checkpoint is the checkpoint,
    for every checkpoint whose strings hold Unicode scalar values only.
    (A surrogate code point is written as an escape of its own, and a
    high one followed by a low one would be read back as one
    character.) *)
Theorem checkpoint_json_roundtrip (s : saved_data) :
  valid_checkpoint s = true -> json_loads (json_dumps s) = inr s.
Proof.
  unfold valid_checkpoint. intros [[Hchunks Htrans]%andb_true_iff Hleft]%andb_true_iff.
  unfold json_loads, parse_checkpoint.
  change (json_dumps s)
    with ((py "{" ++ json_string (py "chunks") ++ py ": ")
          ++ json_list (map json_entry (sd_chunks s))
          ++ (py ", " ++ json_string (py "translations") ++ py ": ")
          ++ json_list (map json_string (sd_translations s))
          ++ (py ", " ++ json_string (py "current_position") ++ py ": ")
          ++ json_nat (sd_current_position s)
          ++ (py ", " ++ json_string (py "leftover") ++ py ": ")
          ++ json_string (sd_leftover s)
          ++ (py ", " ++ json_string (py "chunk_end_position") ++ py ": ")
          ++ json_nat (sd_chunk_end_position s) ++ py "}").
  rewrite expect_app.
  rewrite (parse_list_dump parse_entry json_entry).
  - rewrite expect_app.
    rewrite (parse_list_dump parse_string json_string).
    + rewrite expect_app, parse_nat_dump by reflexivity.
      rewrite expect_app, parse_string_dump by exact Hleft.
      rewrite expect_app, parse_nat_dump by reflexivity.
      destruct s; reflexivity.
    + apply Forall_forall. intros t Ht r'. apply parse_string_dump.
      rewrite forallb_forall in Htrans. apply Htrans. now apply list_elem_of_In.
    + apply Forall_forall. intros t _ r'.
      destruct (json_string_head t) as [u ->].
      now apply (expect_mismatch _ _ 93 34 [] (u ++ r')).
  - apply Forall_forall. intros e He r'. apply parse_entry_dump.
    rewrite forallb_forall in Hchunks. apply Hchunks. now apply list_elem_of_In.
  - apply Forall_forall. intros [c|] _ r'.
    + unfold json_entry, json_list. rewrite <- !app_assoc.
      now eapply (expect_mismatch _ _ 93 91 []).
    + destruct (json_string_head (py "Chunk End")) as [u Hu]. unfold json_entry.
      rewrite Hu. now apply (expect_mismatch _ _ 93 34 [] (u ++ r')).
Qed.

End JsonRoundTrip.

(** ** The leak detector: what an alarm and what silence mean *)

Section LeakSound.
Import Py.

Variable ranges : list (N * N).

Lemma ranges_containing_pos (c : N) (rs : list (N * N)) :
  0 < ranges_containing c rs <-> exists r, r ∈ rs /\ in_range c r = true.
Proof.
  induction rs as [|r rs IH]; simpl.
  - split; [lia | intros (r & Hr & _); inversion Hr].
  - destruct (in_range c r) eqn:Hr.
    + split; [intros _; exists r; split; [constructor | exact Hr] | lia].
    + rewrite Nat.add_0_l, IH. split.
      * intros (r' & Hin & Hr'). exists r'. split; [now constructor | exact Hr'].
      * intros (r' & Hin & Hr'). apply elem_of_cons in Hin as [->|Hin];
          [congruence | eauto].
Qed.

Lemma leak_hits_in (text : str) : forall i p,
  p ∈ leak_hits ranges i text ->
  i <= p /\ exists c, text !! (p - i) = Some c /\ 0 < ranges_containing c ranges.
Proof.
  induction text as [|c text IH]; intros i p; simpl; [intros H; inversion H|].
  rewrite elem_of_app. intros [Hin|Hin].
  - destruct (ranges_containing c ranges) as [|n] eqn:Hn; [inversion Hin|].
    apply list_elem_of_In, repeat_spec in Hin. subst p.
    split; [lia|]. rewrite Nat.sub_diag. exists c. split; [reflexivity | lia].
  - apply IH in Hin as (Hle & c' & Hc' & Hpos). split; [lia|].
    exists c'. split; [|exact Hpos].
    replace (p - i) with (S (p - S i)) by lia. exact Hc'.
Qed.

Lemma leak_hits_nil (text : str) : forall i,
  leak_hits ranges i text = [] <-> Forall (fun c => ranges_containing c ranges = 0) text.
Proof.
  induction text as [|c text IH]; intros i; simpl.
  - split; [constructor | reflexivity].
  - rewrite Forall_cons. split.
    + intros H. apply app_eq_nil in H as [Hc Ht]. split; [|now apply (IH (S i))].
      destruct (ranges_containing c ranges); [reflexivity | discriminate].
    + intros [-> Ht]. simpl. now apply IH.
Qed.

Lemma take_nil_iff {A} (l : list A) (n : nat) : 0 < n -> take n l = [] <-> l = [].
Proof.
  intros Hn. destruct l as [|x l]; destruct n; simpl; try lia; split; congruence.
Qed.

(** X24: the detector is silent exactly on a text without any character of
    the configured ranges; and every position it reports is the index
    of a character of the text that lies in a configured range. *)
Theorem contains_hebrew_sound (text : str) :
  (contains_hebrew ranges text = []
   <-> forall c r, c ∈ text -> r ∈ ranges -> in_range c r = false)
  /\ forall p, p ∈ contains_hebrew ranges text ->
       exists c r, text !! p = Some c /\ r ∈ ranges /\ in_range c r = true.
Proof.
  assert (H : contains_hebrew ranges text = take 16 (leak_hits ranges 0 text)).
  { unfold contains_hebrew. rewrite scan_text_spec by (simpl; lia). reflexivity. }
  rewrite H. split.
  - rewrite take_nil_iff by lia. rewrite leak_hits_nil, Forall_forall. split.
    + intros Hall c r Hc Hr. specialize (Hall c Hc).
      destruct (in_range c r) eqn:Hin; [|reflexivity].
      assert (0 < ranges_containing c ranges)
        by (apply ranges_containing_pos; eauto). lia.
    + intros Hall c Hc. destruct (ranges_containing c ranges) eqn:Hn; [reflexivity|].
      assert (Hpos : 0 < ranges_containing c ranges) by lia.
      apply ranges_containing_pos in Hpos as (r & Hr & Hin).
      rewrite (Hall c r Hc Hr) in Hin. discriminate.
  - intros p Hp. apply elem_of_take in Hp as (k & Hp & _).
    apply list_elem_of_lookup_2, leak_hits_in in Hp as (_ & c & Hc & Hpos).
    rewrite Nat.sub_0_r in Hc.
    apply ranges_containing_pos in Hpos as (r & Hr & Hin). eauto.
Qed.

End LeakSound.

Section HebrewExcerpt.
Import Py Re.

Variable hebrew_ranges : list (N * N).
Variable isalnum : N -> bool.
Variable lower : str -> str.

(** X25: the excerpt quoted when the source script leaks into an answer is
    cut around the first offending position [h0] as
    [answer[h0-20:h0+20]].  From position 20 on it is the forty
    characters around the offender; before position 20 the start index
    is negative and counts from the end of the answer, so for an answer
    of at least [h0 + 40] characters the excerpt is empty, and the
    warning and the error quote nothing. *)
Theorem hebrew_excerpt_wraps (language : str) (lc : lang_config) (chunk_text : str)
    (html_structure : list token) (m : message) (l : locals)
    (h0 : nat) (others : list nat) :
  let answer := assembled_answer m l in
  let hebrew := slice answer (Z.of_nat h0 - 20) (Z.of_nat h0 + 20) in
  match msg_content m with Some t => clean_answer t | None => [] end <> [] ->
  contains_hebrew hebrew_ranges answer = h0 :: others ->
  check_answer hebrew_ranges isalnum lower language lc chunk_text html_structure m l
    = inl (hebrew_warning language hebrew,
           ValueError (py "Hebrew in translation: ..." ++ hebrew) None)
  /\ (20 <= h0 -> hebrew = take 40 (drop (h0 - 20) answer))
  /\ (h0 < 20 -> h0 + 40 <= length answer -> hebrew = []).
Proof.
  intros answer hebrew Hclean Hleak. split; [|split].
  - unfold check_answer.
    destruct (match msg_content m with Some t => clean_answer t | None => [] end)
      as [|c a] eqn:Hc; [congruence|].
    assert (Ha : answer
              = match msg_stop_reason m with
                | stop_sequence =>
                    ((match previous_context l with [] => answer_start l | _ => [] end)
                     ++ c :: a) ++ py "</body>"
                | _ => (match previous_context l with [] => answer_start l | _ => [] end)
                       ++ c :: a
                end).
    { subst answer. unfold assembled_answer. rewrite Hc.
      destruct (msg_stop_reason m); rewrite <- ?app_assoc, ?app_nil_r; reflexivity. }
    rewrite <- Ha, Hleak. reflexivity.
  - intros Hh. subst hebrew. unfold slice, norm_index.
    replace (Z.of_nat h0 - 20 <? 0)%Z with false by (symmetry; apply Z.ltb_ge; lia).
    replace (Z.of_nat h0 + 20 <? 0)%Z with false by (symmetry; apply Z.ltb_ge; lia).
    replace (Z.to_nat (Z.of_nat h0 - 20)) with (h0 - 20) by lia.
    replace (Z.to_nat (Z.of_nat h0 + 20)) with (h0 + 20) by lia.
    destruct (Nat.le_gt_cases (length answer) (h0 - 20)) as [Hshort|Hlong].
    + rewrite !drop_ge by lia. now rewrite !take_nil.
    + rewrite (Nat.min_l (h0 - 20)) by lia.
      destruct (Nat.le_gt_cases (h0 + 20) (length answer)) as [Hfits|Hcut].
      * rewrite Nat.min_l by lia. f_equal. lia.
      * rewrite Nat.min_r by lia. rewrite !take_ge; [reflexivity|..];
          rewrite length_drop; lia.
  - intros Hh Hlen. subst hebrew. unfold slice, norm_index.
    replace (Z.of_nat h0 - 20 <? 0)%Z with true by (symmetry; apply Z.ltb_lt; lia).
    replace (Z.of_nat h0 + 20 <? 0)%Z with false by (symmetry; apply Z.ltb_ge; lia).
    replace (Z.to_nat (Z.of_nat (length answer) + (Z.of_nat h0 - 20)))
      with (length answer + h0 - 20) by lia.
    replace (Z.to_nat (Z.of_nat h0 + 20)) with (h0 + 20) by lia.
    rewrite Nat.min_l by lia.
    replace (h0 + 20 - (length answer + h0 - 20)) with 0 by lia. reflexivity.
Qed.

End HebrewExcerpt.

(** ** The properties above at concrete inputs *)


Lemma reconstruct_restores_tags_witness :
  let texts := [[]; []; py "Lieu"; []] in
  length texts = length (tag_items linked_skeleton)
  /\ reconstruct_html_from_structure linked_skeleton
       (interleave texts (map simplified_tag (tag_items linked_skeleton)) [])
     = inr (interleave texts (map element (tag_items linked_skeleton)) []).
Proof.
  intros texts. split; [reflexivity|].
  apply (reconstruct_restores_tags linked_skeleton texts []); reflexivity.
Defined.

Lemma reconstruct_stops_at_marker_witness :
  let rest := py "</incomplete-translation></body>" in
  simplified_tag broken_item <> incomplete_marker
  /\ reconstruct_html_from_structure (broken_head ++ broken_item :: broken_tail)
       (interleave [[]] (map simplified_tag (tag_items broken_head))
          (py "Bonjour" ++ incomplete_marker ++ rest))
     = inr (interleave [[]] (map element (tag_items broken_head))
              (py "Bonjour" ++ incomplete_marker ++ rest)).
Proof.
  intros rest.
  assert (Hne : simplified_tag broken_item <> incomplete_marker) by discriminate.
  split; [exact Hne|].
  apply (reconstruct_stops_at_marker broken_head broken_tail broken_item
           [[]] (py "Bonjour") rest); try reflexivity. exact Hne.
Defined.

Lemma temperature_in_range_witness :
  (0 <= default_temperature (example_config false))%Q
  /\ (temperature (example_config false) false 2 <= 1)%Q.
Proof.
  assert (H : (0 <= default_temperature (example_config false))%Q) by discriminate.
  split; [exact H|].
  exact (proj2 (temperature_in_range (example_config false) false 2 H)).
Defined.

Lemma recovery_fragment_marked_witness :
  let l := Locals (py "<body>Bon") [] [] None 0 1 0 1000 false [] [] 
             (SavedData [] [] 0 [] 0) 12 [] [] in
  exists t,
    handle_exception (example_config true) (py "French") french (py "site/fr/a") 2
      (ValueError (py "Structure Mismatch") None) None l empty_world = Fragment t
    /\ Py.contains t incomplete_marker = true.
Proof.
  intros l. eexists. split; [vm_compute; reflexivity|].
  refine (proj1 (proj2 (proj2 (recovery_fragment_marked (example_config true)
            (py "French") french (py "site/fr/a") 2
            (ValueError (py "Structure Mismatch") None) None l empty_world _ _)))).
  vm_compute. reflexivity.
Defined.

Lemma completed_chunk_is_resumed_witness :
  let m := Message (Some (py "div>Bonjour<br>Monde</div>")) stop_sequence 50 in
  let answer := py "<body><div><a>Title</a></div><div>Bonjour<br>Monde</div></body>" in
  exists t w',
    accept_increment (example_config false) json_dumps example_body_chunk
      (py "site/fr/a") m answer 12 [] first_attempt empty_world = (Completed t, w')
    /\ resume (example_config false) json_loads example_body_chunk french []
         (py "site/fr/a") false w' = inr (inl (t, false)).
Proof.
  intros m answer. do 2 eexists. split; [vm_compute; reflexivity|].
  apply (completed_chunk_is_resumed (example_config false) json_dumps json_loads
           example_body_chunk french [] (py "site/fr/a") false m answer 12 []
           first_attempt empty_world).
  - vm_compute. reflexivity.
  - intros _. reflexivity.
  - intros sd H. vm_compute in H. injection H as <-. vm_compute. reflexivity.
Defined.


Lemma translate_chunk_response_witness :
  exists t p script' w',
    example_translate_chunk false example_body_chunk (py "French") french [] []
      (py "site/fr/a") example_skeleton false true
      [reply "div>Bonjour<br>Monde</div>" stop_sequence] empty_world
      = (Return (t, p), script', w')
    /\ t <> [].
Proof.
  do 4 eexists. split; [vm_compute; reflexivity|].
  destruct (translate_chunk_response (example_config false) hebrew_block
              ascii_isalnum ascii_lower json_dumps json_loads plain_system_text
              plain_log_entry example_body_chunk (py "French") french [] []
              (py "site/fr/a") example_skeleton false true
              [reply "div>Bonjour<br>Monde</div>" stop_sequence] _ empty_world _ _ _
              ltac:(vm_compute; lia) ltac:(vm_compute; reflexivity)) as [H|H].
  - exact H.
  - vm_compute in H. discriminate H.
Defined.

Lemma split_chunks_sizes_witness :
  0 < 40
  /\ exists chunks,
       split_chunks 40 example_body = inr chunks
       /\ length chunks = length example_body / 40 + 1
       /\ Forall (fun c => length (snd c) <= 40) chunks.
Proof.
  split; [lia|]. apply (split_chunks_sizes 40 example_body). lia.
Defined.

Lemma finished_site_is_left_alone_witness :
  let script := [ApiRaise (OtherError (py "unused"))] in
  example_translate_files [py "a.html"] (py "French") french 0 0 None script
    finished_site
  = (Return tt, script, finished_site).
Proof.
  intros script. unfold example_translate_files.
  apply finished_site_is_left_alone.
  intros file Hin. apply list_elem_of_singleton in Hin. subst file.
  split; [do 2 eexists|]; vm_compute; reflexivity.
Defined.

Lemma finished_page_is_cleaned_up_witness :
  let result :=
    example_process_file (py "French") french (py "site/a.html") (py "site/fr/a.html")
      0 0 None [reply "div>Bonjour<br>Monde</div>" stop_sequence] two_pages in
  Py.endswith (py "site/fr/a.html") (py ".html") = true
  /\ is_Some (fs result.2 !! py "site/fr/a.html")
  /\ fs result.2 !! py "site/fr/a.json" = None
  /\ fs result.2 !! py "site/fr/a.partial.html" = None.
Proof.
  intros result. split; [reflexivity|].
  destruct (finished_page_is_cleaned_up (example_config false) hebrew_block
              example_separators ascii_isalnum ascii_lower json_dumps json_loads
              plain_system_text plain_log_entry
              (fun _ content => content) (fun _ content => content) false 0
              (py "French") french (py "site/a.html") (py "site/fr/a.html")
              0 0 None [reply "div>Bonjour<br>Monde</div>" stop_sequence] _
              two_pages _ example_page _
              ltac:(vm_compute; reflexivity) eq_refl
              ltac:(vm_compute; reflexivity) ltac:(vm_compute; reflexivity))
    as (_ & _ & _ & Htarget & Hjson & _ & Hpartial & _).
  split; [|split].
  - eexists. exact Htarget.
  - exact Hjson.
  - exact Hpartial.
Defined.

Lemma test_mode_discards_errors_witness :
  1 <= 1
  /\ (example_test_run [py "a.html"; py "b.html"] (py "French") french 0 0 None
        [ApiRaise (RateLimitError (py "429"))] two_pages).1.1
     <> Raise (RuntimeError (py "Stuck in a loop with LLM")).
Proof.
  split; [lia|]. unfold example_test_run.
  apply test_mode_discards_errors; [reflexivity | lia].
Defined.

Lemma degraded_fragment_ends_document_witness :
  let script :=
    [reply "div>Bonjour<br>Mon" max_tokens_stop; ApiRaise (RateLimitError (py "429"))] in
  exists fragment script' w',
    translate_chunks (example_config true) hebrew_block ascii_isalnum ascii_lower
      json_dumps json_loads plain_system_text plain_log_entry
      [example_body_chunk; (1, py "<p>More</p>")] (py "French") french
      (py "site/fr/a") example_skeleton (DocState [] [] [] false) script empty_world
    = (Return ([] ++ fragment), script', w')
    /\ Py.contains fragment incomplete_marker = true.
Proof.
  intros script. do 3 eexists. split.
  - apply (degraded_fragment_ends_document (example_config true) hebrew_block
             ascii_isalnum ascii_lower json_dumps json_loads plain_system_text
             plain_log_entry example_body_chunk [(1, py "<p>More</p>")] (py "French")
             french (py "site/fr/a") example_skeleton (DocState [] [] [] false)
             script _ empty_world _ _ true);
      vm_compute; reflexivity.
  - vm_compute. reflexivity.
Defined.

Lemma page_without_headline_fails_witness :
  Py.contains (py "<html><body>plain</body></html>") headline_marker = false
  /\ example_process_file (py "French") french (py "site/a.html")
       (py "site/fr/a.html") 0 0 None [] bare_site
     = (Go 1, None, [], bare_site).
Proof.
  split; [reflexivity|]. unfold example_process_file.
  apply (page_without_headline_fails (example_config false) hebrew_block
           example_separators ascii_isalnum ascii_lower json_dumps json_loads
           plain_system_text plain_log_entry
           (fun _ content => content) (fun _ content => content) false 0
           (py "French") french (py "site/a.html") (py "site/fr/a.html") 0 0 None []
           bare_site (py "<html><body>plain</body></html>"));
    vm_compute; reflexivity.
Defined.

Lemma abnormal_repetitions_reports_witness :
  let reported :=
    abnormal_repetitions ascii_isalnum ascii_lower three_words_repeated false in
  reported <> []
  /\ exists k,
       100 * k + 200
         <= length (words_of ascii_isalnum ascii_lower three_words_repeated false)
       /\ List.NoDup reported.
Proof.
  intros reported.
  assert (Hne : reported <> []) by (vm_compute; discriminate).
  split; [exact Hne|].
  destruct (abnormal_repetitions_reports ascii_isalnum ascii_lower
              three_words_repeated false Hne) as (k & Hk & Hnd & _).
  exists k. split; [exact Hk | exact Hnd].
Defined.

Lemma checkpoint_json_roundtrip_witness :
  valid_checkpoint (with_chunk_end example_new) = true
  /\ json_loads (json_dumps (with_chunk_end example_new))
     = inr (with_chunk_end example_new).
Proof.
  split; [reflexivity|].
  apply (checkpoint_json_roundtrip (with_chunk_end example_new)). reflexivity.
Defined.

Lemma hebrew_excerpt_wraps_witness :
  contains_hebrew hebrew_block (assembled_answer leaking_reply continuing) = [3]
  /\ check_answer hebrew_block ascii_isalnum ascii_lower (py "French") french
       (snd example_body_chunk) example_skeleton leaking_reply continuing
     = inl (hebrew_warning (py "French") [],
            ValueError (py "Hebrew in translation: ...") None).
Proof.
  assert (Hleak : contains_hebrew hebrew_block (assembled_answer leaking_reply continuing)
                  = [3]) by (vm_compute; reflexivity).
  split; [exact Hleak|].
  destruct (hebrew_excerpt_wraps hebrew_block ascii_isalnum ascii_lower (py "French")
              french (snd example_body_chunk) example_skeleton leaking_reply
              continuing 3 [] ltac:(vm_compute; discriminate) Hleak)
    as (Hcheck & _ & Hempty).
  rewrite Hcheck, Hempty by (vm_compute; lia). reflexivity.
Defined.
